(** * Three-body simulator: the ring station-keeper and the seeded generator

    A shallow embedding of three pieces of the simulator:

    - [src/utils/random.ts]: the Mulberry32 generator [createSeededRandom]
      and [pickRandom].  JavaScript's 32-bit integer operators are written
      out on [Z] with their wrap-around; a generator output, an unsigned
      32-bit integer over 4294967296, is an exact rational ([Q]).
    - [makeRosetteController] (the controller factory of the application
      module): the acceleration law that keeps the "Petal" bodies of the
      Rosette preset on a co-rotating ring.  JavaScript numbers are read
      as real numbers ([R]): arithmetic is exact, rounding is outside the
      model.  What the code can raise (a property read on [undefined]) and
      what the analysis wants to rule out (a division by zero) are
      explicit outcomes of an error monad.  Two further readings of the
      same law stand beside it: [Binary64], the law on IEEE 754 doubles,
      which shows what rounding does to the cap, and [Closure], the
      factory and the law on a heap of objects reached by reference,
      which shows what an evaluation writes.
    - [src/services/starfieldGenerator.ts]: colours, points on a shell and
      the typed arrays of the star layers.

    Beside them: the mode registry [src/modes/registry.ts] (lookup by id,
    the deep copy of a preset's bodies) and the trail length of the
    application module. *)

From Stdlib Require Import ZArith QArith Qround Reals Lra Lia Psatz.
From Stdlib Require Import Qminmax Qreals.
From Stdlib Require Import String Ascii List.
From Stdlib Require Floats.
From stdpp Require Import base list.

(** ** Outcomes of a JavaScript call *)

Inductive JSError : Type :=
| TypeError (* a property read on [undefined] *)
| DivisionByZero (* a quotient whose divisor is zero *)
| ThrownError (msg : string) (* [throw new Error(msg)] *).

Inductive Result (A : Type) : Type :=
| Ok (a : A)
| Throw (e : JSError).
Arguments Ok {A} a.
Arguments Throw {A} e.

Definition bindR {A B : Type} (m : Result A) (k : A -> Result B) : Result B :=
  match m with
  | Ok a => k a
  | Throw e => Throw e
  end.

Declare Scope js_scope.
Delimit Scope js_scope with js.
Notation "'do' x <- m ; k" := (bindR m (fun x => k))
  (at level 10, x pattern, m at level 100, k at level 200,
   format "'[v' 'do'  x  <-  m ; '/' k ']'") : js_scope.
Open Scope js_scope.

(** [for (const x of xs) { acc = body(acc, x) }] where the body may throw. *)
Fixpoint forOf {A B : Type} (body : B -> A -> Result B) (xs : list A) (acc : B)
  : Result B :=
  match xs with
  | [] => Ok acc
  | x :: rest => do acc' <- body acc x; forOf body rest acc'
  end.

(** ** [src/utils/random.ts] *)

Module Random.

Local Open Scope Z_scope.

(** A JavaScript number as [createSeededRandom] can receive it: a finite
    double is a (dyadic) rational. *)
Inductive JSNumber : Type :=
| Finite (q : Q)
| NaN
| PosInfinity
| NegInfinity.

Definition two32 : Z := 4294967296.
Definition two31 : Z := 2147483648.

(** ECMAScript ToUint32 and ToInt32 on an integer. *)
Definition ToUint32 (z : Z) : Z := z mod two32.
Definition ToInt32 (z : Z) : Z := (z + two31) mod two32 - two31.

(** ToUint32 on any number: not-a-number and the infinities go to 0, a
    finite number is truncated towards zero first. *)
Definition NumberToUint32 (x : JSNumber) : Z :=
  match x with
  | Finite q => ToUint32 (Z.quot (Qnum q) (Zpos (Qden q)))
  | NaN | PosInfinity | NegInfinity => 0
  end.

(** [a ^ b], [a | b], [a >>> n] and [Math.imul(a, b)]. *)
Definition xor (a b : Z) : Z := ToInt32 (Z.lxor (ToInt32 a) (ToInt32 b)).
Definition bor (a b : Z) : Z := ToInt32 (Z.lor (ToInt32 a) (ToInt32 b)).
Definition ushr (a n : Z) : Z := Z.shiftr (ToUint32 a) (n mod 32).
Definition imul (a b : Z) : Z := ToInt32 (ToInt32 a * ToInt32 b).

(** The generator is a closure over one mutable variable [s]. *)
Definition SeededRandom : Type := Z.

Definition createSeededRandom (seed : JSNumber) : SeededRandom :=
  NumberToUint32 seed.

(** The unsigned 32-bit integer the call divides by 4294967296, and the
    new value of [s]. *)
Definition nextRaw (s : SeededRandom) : Z * SeededRandom :=
  let s := bor (s + 0x6d2b79f5) 0 in
  let t := imul (xor s (ushr s 15)) (bor 1 s) in
  let t := xor t (t + imul (xor t (ushr t 7)) (bor 61 t)) in
  (ushr (xor t (ushr t 14)) 0, s).

(** One call [rand()]. *)
Definition next (s : SeededRandom) : Q * SeededRandom :=
  let '(n, s') := nextRaw s in (Qmake n 4294967296, s').

(** The state after [k] calls and the value of call number [k] (from 0). *)
Fixpoint stateAfter (k : nat) (s : SeededRandom) : SeededRandom :=
  match k with
  | O => s
  | S k' => stateAfter k' (snd (next s))
  end.

Definition output (k : nat) (s : SeededRandom) : Q := fst (next (stateAfter k s)).

(** [randomRange(rand, min, max)]. *)
Definition randomRange {St : Type} (rand : St -> Q * St) (s : St) (min max : Q)
  : Q * St :=
  let '(v, s') := rand s in ((min + (max - min) * v)%Q, s').

(** [items[idx]] for a number [idx] that is an integer: an element, or
    [undefined] ([None]) outside the array. *)
Definition arrayGet {T : Type} (items : list T) (idx : Z) : option T :=
  if idx <? 0 then None else items !! Z.to_nat idx.

(** [pickRandom(rand, items)]: the outcome and the generator afterwards. *)
Definition pickRandom {St T : Type} (rand : St -> Q * St) (s : St) (items : list T)
  : Result (option T) * St :=
  if (Z.of_nat (length items) =? 0) then
    (Throw (ThrownError "Cannot pick from an empty array"), s)
  else
    let '(v, s') := rand s in
    let idx := Qfloor (v * inject_Z (Z.of_nat (length items))) in
    (Ok (arrayGet items idx), s').

End Random.

(** ** [makeRosetteController] *)

Module Rosette.

Local Open Scope R_scope.

Record Vector3 : Type := mkVector3 { x : R; y : R; z : R }.

Record BodyState : Type := mkBodyState {
  name : string;
  mass : R;
  radius : R;
  color : string;
  isStar : bool;
  position : Vector3;
  velocity : Vector3
}.

(** [Math.hypot] with two and with three arguments. *)
Definition hypot2 (a b : R) : R := sqrt (a * a + b * b).
Definition hypot3 (a b c : R) : R := sqrt (a * a + b * b + c * c).

(** [v || d] on numbers: [d] when [v] is zero. *)
Definition orElse (v d : R) : R := if Req_dec_T v 0 then d else v.

(** [Math.atan2(b, a)], without the signed zeros of the doubles. *)
Definition atan2 (b a : R) : R :=
  if Rlt_dec 0 a then atan (b / a)
  else if Rlt_dec a 0 then
    (if Rle_dec 0 b then atan (b / a) + PI else atan (b / a) - PI)
  else if Rlt_dec 0 b then PI / 2
  else if Rlt_dec b 0 then - PI / 2
  else 0.

(** [a / b], with the zero divisor made visible. *)
Definition fdiv (a b : R) : Result R :=
  if Req_dec_T b 0 then Throw DivisionByZero else Ok (a / b).

(** [const b = state[i]] followed by a property read on [b]. *)
Definition getBody (state : list BodyState) (i : nat) : Result BodyState :=
  match state !! i with
  | Some b => Ok b
  | None => Throw TypeError
  end.

(** [b.name.startsWith('Petal')]. *)
Definition isPetal (b : BodyState) : bool := String.prefix "Petal" (name b).

(** [initialBodies.map((b, i) => ({ b, i })).filter(...).map(x => x.i)]. *)
Definition petalIndices (initialBodies : list BodyState) : list nat :=
  map snd (List.filter (fun bi => isPetal (fst bi))
                       (imap (fun i b => (b, i)) initialBodies)).

(** Gains and thrust cap. *)
Definition k_r : R := 0.08.
Definition k_dr : R := 0.18.
Definition k_t : R := 0.12.
Definition k_dt : R := 0.08.
Definition k_c : R := 0.02.
Definition a_max : R := 0.04.

(** *** The constants fixed at construction *)

Definition rStarStep (initialBodies : list BodyState) (acc : R * R) (i : nat)
  : Result (R * R) :=
  let '(mSum, mrSum) := acc in
  do b <- getBody initialBodies i;
  let r := hypot3 (x (position b)) (y (position b)) (z (position b)) in
  Ok (mSum + mass b, mrSum + mass b * r).

Definition computeRStar (initialBodies : list BodyState) (petalIdx : list nat)
  : Result R :=
  do (mSum, mrSum) <- forOf (rStarStep initialBodies) petalIdx (0, 0);
  if Rgt_dec mSum 0 then fdiv mrSum mSum else Ok 12.

Definition omegaStarStep (initialBodies : list BodyState) (acc : R * R) (i : nat)
  : Result (R * R) :=
  let '(mSum, sum) := acc in
  do b <- getBody initialBodies i;
  let r := orElse (hypot2 (x (position b)) (y (position b))) 1e-6 in
  let theta := atan2 (y (position b)) (x (position b)) in
  let vt := - x (velocity b) * sin theta + y (velocity b) * cos theta in
  do w <- fdiv vt r;
  Ok (mSum + mass b, sum + mass b * w).

Definition computeOmegaStar (initialBodies : list BodyState) (petalIdx : list nat)
  : Result R :=
  do (mSum, sum) <- forOf (omegaStarStep initialBodies) petalIdx (0, 0);
  if Rgt_dec mSum 0 then fdiv sum mSum else Ok 0.

(** What the returned closure captures. *)
Record Controller : Type := mkController {
  petalIdx : list nat;
  rStar : R;
  omegaStar : R
}.

Definition makeRosetteController (initialBodies : list BodyState)
  : Result Controller :=
  let petalIdx := petalIndices initialBodies in
  do rStar <- computeRStar initialBodies petalIdx;
  do omegaStar <- computeOmegaStar initialBodies petalIdx;
  Ok (mkController petalIdx rStar omegaStar).

(** *** The returned acceleration law *)

(** The ring's centroid, centroid velocity and plane normal of one call. *)
Record Frame : Type := mkFrame {
  cx : R; cy : R; cz : R;
  cvx : R; cvy : R; cvz : R;
  nx : R; ny : R; nz : R
}.

Definition centroidStep (state : list BodyState)
  (acc : R * R * R * R * R * R * R) (i : nat)
  : Result (R * R * R * R * R * R * R) :=
  let '(mSum, cx, cy, cz, cvx, cvy, cvz) := acc in
  do b <- getBody state i;
  Ok (mSum + mass b,
      cx + mass b * x (position b),
      cy + mass b * y (position b),
      cz + mass b * z (position b),
      cvx + mass b * x (velocity b),
      cvy + mass b * y (velocity b),
      cvz + mass b * z (velocity b)).

Definition momentumStep (state : list BodyState) (cx cy cz cvx cvy cvz : R)
  (acc : R * R * R) (i : nat) : Result (R * R * R) :=
  let '(Lx, Ly, Lz) := acc in
  do b <- getBody state i;
  let rx := x (position b) - cx in
  let ry := y (position b) - cy in
  let rz := z (position b) - cz in
  let vx := x (velocity b) - cvx in
  let vy := y (velocity b) - cvy in
  let vz := z (velocity b) - cvz in
  Ok (Lx + (ry * vz - rz * vy) * mass b,
      Ly + (rz * vx - rx * vz) * mass b,
      Lz + (rx * vy - ry * vx) * mass b).

(** The correction of one ring member before the cap ([ax], [ay], [az] as
    first assigned). *)
Definition unclamped (c : Controller) (f : Frame) (b : BodyState)
  : Result Vector3 :=
  let rx := x (position b) - cx f in
  let ry := y (position b) - cy f in
  let rz := z (position b) - cz f in
  let vx := x (velocity b) - cvx f in
  let vy := y (velocity b) - cvy f in
  let vz := z (velocity b) - cvz f in
  let r := orElse (hypot3 rx ry rz) 1e-9 in
  do rhx <- fdiv rx r;
  do rhy <- fdiv ry r;
  do rhz <- fdiv rz r;
  let tx0 := ny f * rhz - nz f * rhy in
  let ty0 := nz f * rhx - nx f * rhz in
  let tz0 := nx f * rhy - ny f * rhx in
  let t_norm := orElse (hypot3 tx0 ty0 tz0) 1e-9 in
  do thx <- fdiv tx0 t_norm;
  do thy <- fdiv ty0 t_norm;
  do thz <- fdiv tz0 t_norm;
  let vr := vx * rhx + vy * rhy + vz * rhz in
  let vt := vx * thx + vy * thy + vz * thz in
  let a_r := - k_r * (r - rStar c) - k_dr * vr in
  let a_t := - k_t * (vt - omegaStar c * r) - k_dt * vt in
  Ok (mkVector3 (a_r * rhx + a_t * thx - k_c * vx)
                (a_r * rhy + a_t * thy - k_c * vy)
                (a_r * rhz + a_t * thz - k_c * vz)).

(** [if (aN > a_max) { const s = a_max / aN; ax *= s; ay *= s; az *= s; }]. *)
Definition clamp (a : Vector3) : Result Vector3 :=
  let aN := hypot3 (x a) (y a) (z a) in
  if Rgt_dec aN a_max then
    do s <- fdiv a_max aN;
    Ok (mkVector3 (x a * s) (y a * s) (z a * s))
  else Ok a.

(** [acc[i].x = ax; acc[i].y = ay; acc[i].z = az]: a write through
    [acc[i]], which has to be there. *)
Definition setAcc (acc : list Vector3) (i : nat) (a : Vector3)
  : Result (list Vector3) :=
  match acc !! i with
  | Some _ => Ok (<[i := a]> acc)
  | None => Throw TypeError
  end.

Definition petalStep (c : Controller) (f : Frame) (state : list BodyState)
  (acc : list Vector3) (i : nat) : Result (list Vector3) :=
  do b <- getBody state i;
  do a <- unclamped c f b;
  do a <- clamp a;
  setAcc acc i a.

(** The closure [(state, t) => ...].  [Array.from({ length: n }, () =>
    ({ x: 0, y: 0, z: 0 }))] builds one fresh object per index, so the
    entries of [acc] do not alias and a list of values models the array. *)
Definition law (c : Controller) (state : list BodyState) (t : R)
  : Result (list Vector3) :=
  let n := length state in
  let acc := replicate n (mkVector3 0 0 0) in
  if Nat.eqb (length (petalIdx c)) 0 then Ok acc else
  do (mSum, cx, cy, cz, cvx, cvy, cvz) <-
     forOf (centroidStep state) (petalIdx c) (0, 0, 0, 0, 0, 0, 0);
  if Rle_dec mSum 0 then Ok acc else
  do cx <- fdiv cx mSum;
  do cy <- fdiv cy mSum;
  do cz <- fdiv cz mSum;
  do cvx <- fdiv cvx mSum;
  do cvy <- fdiv cvy mSum;
  do cvz <- fdiv cvz mSum;
  do (Lx, Ly, Lz) <-
     forOf (momentumStep state cx cy cz cvx cvy cvz) (petalIdx c) (0, 0, 0);
  let Ln := orElse (hypot3 Lx Ly Lz) 1 in
  do nx <- fdiv Lx Ln;
  do ny <- fdiv Ly Ln;
  do nz <- fdiv Lz Ln;
  forOf (petalStep c (mkFrame cx cy cz cvx cvy cvz nx ny nz) state)
        (petalIdx c) acc.

End Rosette.

(** ** The station-keeper as the specification words it

    These definitions follow the specification's sentences, not the code;
    the theorems below compare them with [Rosette]. *)

Module RosetteSpec.

Import Rosette.
Local Open Scope R_scope.

Definition vadd (u v : Vector3) : Vector3 :=
  mkVector3 (x u + x v) (y u + y v) (z u + z v).
Definition vsub (u v : Vector3) : Vector3 :=
  mkVector3 (x u - x v) (y u - y v) (z u - z v).
Definition vscale (k : R) (v : Vector3) : Vector3 :=
  mkVector3 (k * x v) (k * y v) (k * z v).
Definition vdiv (v : Vector3) (k : R) : Vector3 :=
  mkVector3 (x v / k) (y v / k) (z v / k).
Definition dot (u v : Vector3) : R := x u * x v + y u * y v + z u * z v.
Definition cross (u v : Vector3) : Vector3 :=
  mkVector3 (y u * z v - z u * y v) (z u * x v - x u * z v) (x u * y v - y u * x v).

(** The Euclidean norm of a 3-vector. *)
Definition norm (v : Vector3) : R := sqrt (x v * x v + y v * y v + z v * z v).

Definition zero3 : Vector3 := mkVector3 0 0 0.

(** Sum of [f] over the members. *)
Definition sumOver (f : BodyState -> R) (members : list BodyState) : R :=
  fold_right (fun b s => f b + s) 0 members.

Definition totalMass (members : list BodyState) : R := sumOver mass members.

(** Mass-weighted mean of [f] over the members. *)
Definition weightedMean (f : BodyState -> R) (members : list BodyState) : R :=
  sumOver (fun b => mass b * f b) members / totalMass members.

Definition weightedMeanVec (f : BodyState -> Vector3) (members : list BodyState)
  : Vector3 :=
  mkVector3 (weightedMean (fun b => x (f b)) members)
            (weightedMean (fun b => y (f b)) members)
            (weightedMean (fun b => z (f b)) members).

(** The ring subset: the bodies of a snapshot at the ring's indices. *)
Definition ringMembers (idx : list nat) (state : list BodyState)
  : list BodyState :=
  omap (fun i => state !! i) idx.

(** A snapshot holds a body at every ring index. *)
Definition covers (idx : list nat) (state : list BodyState) : Prop :=
  Forall (fun i => (i < length state)%nat) idx.

(** A simulation state of an engine built on [initialBodies]: as long as
    the initial snapshot, every mass positive. *)
Definition wellFormed (initialBodies state : list BodyState) : Prop :=
  length state = length initialBodies /\ Forall (fun b => 0 < mass b) state.

(** Target radius: mass-weighted mean radial distance from the origin. *)
Definition targetRadius (members : list BodyState) : R :=
  weightedMean (fun b => norm (position b)) members.

(** The summand of the loop for the target angular speed, body by body,
    as the code writes it (with its [atan2] and its floor of 1e-6 on the
    z axis), and the mean of it: what the lemmas on the loop are stated
    with. *)
Definition axisDistance (b : BodyState) : R :=
  orElse (hypot2 (x (position b)) (y (position b))) 1e-6.
Definition azimuth (b : BodyState) : R :=
  atan2 (y (position b)) (x (position b)).
Definition tangentialVelocity (b : BodyState) : R :=
  - x (velocity b) * sin (azimuth b) + y (velocity b) * cos (azimuth b).
Definition targetAngularSpeed (members : list BodyState) : R :=
  weightedMean (fun b => tangentialVelocity b / axisDistance b) members.

(** Angular speed in geometric terms, without the azimuth angle: the
    distance of a body from the z axis, its velocity along the direction
    of increasing azimuth, [(-y, x, 0)] over that distance, and its
    angular velocity about the z axis. *)
Definition planarDistance (b : BodyState) : R :=
  sqrt (x (position b) * x (position b) + y (position b) * y (position b)).
Definition azimuthalVelocity (b : BodyState) : R :=
  (x (position b) * y (velocity b) - y (position b) * x (velocity b))
  / planarDistance b.
Definition angularVelocityAboutZ (b : BodyState) : R :=
  (x (position b) * y (velocity b) - y (position b) * x (velocity b))
  / (x (position b) * x (position b) + y (position b) * y (position b)).

(** Mass-weighted centroid, centroid velocity, total angular momentum
    about the centroid and the orbital-plane normal (the momentum over its
    magnitude, over 1 when the momentum vanishes). *)
Definition centroid (members : list BodyState) : Vector3 :=
  weightedMeanVec position members.
Definition centroidVelocity (members : list BodyState) : Vector3 :=
  weightedMeanVec velocity members.
Definition angularMomentum (members : list BodyState) : Vector3 :=
  let c := centroid members in
  let cv := centroidVelocity members in
  let l b := vscale (mass b) (cross (vsub (position b) c) (vsub (velocity b) cv)) in
  mkVector3 (sumOver (fun b => x (l b)) members)
            (sumOver (fun b => y (l b)) members)
            (sumOver (fun b => z (l b)) members).
Definition planeNormal (members : list BodyState) : Vector3 :=
  let L := angularMomentum members in
  vdiv L (orElse (norm L) 1).

Definition frameOf (members : list BodyState) : Frame :=
  let c := centroid members in
  let cv := centroidVelocity members in
  let n := planeNormal members in
  mkFrame (x c) (y c) (z c) (x cv) (y cv) (z cv) (x n) (y n) (z n).

(** The proportional-derivative correction of one member, before the cap,
    in the frame [f]. *)
Section Correction.

Variable c : Controller.
Variable f : Frame.
Variable b : BodyState.

Definition relPosition : Vector3 :=
  vsub (position b) (mkVector3 (cx f) (cy f) (cz f)).
Definition relVelocity : Vector3 :=
  vsub (velocity b) (mkVector3 (cvx f) (cvy f) (cvz f)).
Definition ringRadius : R := orElse (norm relPosition) 1e-9.
Definition r_hat : Vector3 := vdiv relPosition ringRadius.
Definition t_hat : Vector3 :=
  let t0 := cross (mkVector3 (nx f) (ny f) (nz f)) r_hat in
  vdiv t0 (orElse (norm t0) 1e-9).
Definition v_r : R := dot relVelocity r_hat.
Definition v_t : R := dot relVelocity t_hat.
Definition a_r : R := k_r * (rStar c - ringRadius) - k_dr * v_r.
Definition a_t : R := k_t * (omegaStar c * ringRadius - v_t) - k_dt * v_t.
Definition pdCorrection : Vector3 :=
  vsub (vadd (vscale a_r r_hat) (vscale a_t t_hat)) (vscale k_c relVelocity).

End Correction.

(** The cap: a vector longer than [a_max] is rescaled to length [a_max]
    along its own direction. *)
Definition capped (a : Vector3) : Vector3 :=
  if Rgt_dec (norm a) a_max then vscale (a_max / norm a) a else a.

(** What one evaluation is to return on a snapshot: the capped
    proportional-derivative correction at each ring index, in the frame of
    the ring's members, and zero everywhere else; all zero when the ring
    has no mass. *)
Definition stationKeeping (c : Controller) (state : list BodyState)
  : list Vector3 :=
  let members := ringMembers (petalIdx c) state in
  if Rlt_dec 0 (totalMass members) then
    imap (fun i b =>
            if in_dec Nat.eq_dec i (petalIdx c)
            then capped (pdCorrection c (frameOf members) b)
            else zero3)
         state
  else replicate (length state) zero3.

End RosetteSpec.

(** ** The law in double precision

    The returned law once more, in the arithmetic the code runs in: a
    JavaScript number is an IEEE 754 binary64 value, [+], [-], [*] and [/]
    round to nearest (ties to even) and a division never throws.  Decimal
    literals denote the nearest double.  [Math.hypot] is left to the
    implementation by ECMAScript; it is taken here as the rounded square
    root of the rounded sum of squares, which returns the absolute value
    of the component for the vectors along one axis that the evaluation
    below meets, as the implementations do. *)

Module Binary64.

Import PrimFloat.
Local Open Scope float_scope.
#[local] Set Warnings "-inexact-float".

Record Vector3 : Type := mkVector3 { x : float; y : float; z : float }.

Record BodyState : Type := mkBodyState {
  name : string;
  mass : float;
  radius : float;
  color : string;
  isStar : bool;
  position : Vector3;
  velocity : Vector3
}.

(** [Math.hypot(a, b, c)]. *)
Definition hypot3 (a b c : float) : float := sqrt (a * a + b * b + c * c).

(** [v || d] on numbers: [d] when [v] is [0], [-0] or not a number. *)
Definition orElse (v d : float) : float :=
  if (v =? 0) || is_nan v then d else v.

(** [const b = state[i]] followed by a property read on [b]. *)
Definition getBody (state : list BodyState) (i : nat) : Result BodyState :=
  match state !! i with
  | Some b => Ok b
  | None => Throw TypeError
  end.

(** Gains and thrust cap. *)
Definition k_r : float := 0.08.
Definition k_dr : float := 0.18.
Definition k_t : float := 0.12.
Definition k_dt : float := 0.08.
Definition k_c : float := 0.02.
Definition a_max : float := 0.04.

Record Controller : Type := mkController {
  petalIdx : list nat;
  rStar : float;
  omegaStar : float
}.

Record Frame : Type := mkFrame {
  cx : float; cy : float; cz : float;
  cvx : float; cvy : float; cvz : float;
  nx : float; ny : float; nz : float
}.

Definition centroidStep (state : list BodyState)
  (acc : float * float * float * float * float * float * float) (i : nat)
  : Result (float * float * float * float * float * float * float) :=
  let '(mSum, cx, cy, cz, cvx, cvy, cvz) := acc in
  do b <- getBody state i;
  Ok (mSum + mass b,
      cx + mass b * x (position b),
      cy + mass b * y (position b),
      cz + mass b * z (position b),
      cvx + mass b * x (velocity b),
      cvy + mass b * y (velocity b),
      cvz + mass b * z (velocity b)).

Definition momentumStep (state : list BodyState) (cx cy cz cvx cvy cvz : float)
  (acc : float * float * float) (i : nat) : Result (float * float * float) :=
  let '(Lx, Ly, Lz) := acc in
  do b <- getBody state i;
  let rx := x (position b) - cx in
  let ry := y (position b) - cy in
  let rz := z (position b) - cz in
  let vx := x (velocity b) - cvx in
  let vy := y (velocity b) - cvy in
  let vz := z (velocity b) - cvz in
  Ok (Lx + (ry * vz - rz * vy) * mass b,
      Ly + (rz * vx - rx * vz) * mass b,
      Lz + (rx * vy - ry * vx) * mass b).

(** [ax], [ay], [az] as first assigned. *)
Definition unclamped (c : Controller) (f : Frame) (b : BodyState) : Vector3 :=
  let rx := x (position b) - cx f in
  let ry := y (position b) - cy f in
  let rz := z (position b) - cz f in
  let vx := x (velocity b) - cvx f in
  let vy := y (velocity b) - cvy f in
  let vz := z (velocity b) - cvz f in
  let r := orElse (hypot3 rx ry rz) 1e-9 in
  let rhx := rx / r in
  let rhy := ry / r in
  let rhz := rz / r in
  let tx0 := ny f * rhz - nz f * rhy in
  let ty0 := nz f * rhx - nx f * rhz in
  let tz0 := nx f * rhy - ny f * rhx in
  let t_norm := orElse (hypot3 tx0 ty0 tz0) 1e-9 in
  let thx := tx0 / t_norm in
  let thy := ty0 / t_norm in
  let thz := tz0 / t_norm in
  let vr := vx * rhx + vy * rhy + vz * rhz in
  let vt := vx * thx + vy * thy + vz * thz in
  let a_r := - k_r * (r - rStar c) - k_dr * vr in
  let a_t := - k_t * (vt - omegaStar c * r) - k_dt * vt in
  mkVector3 (a_r * rhx + a_t * thx - k_c * vx)
            (a_r * rhy + a_t * thy - k_c * vy)
            (a_r * rhz + a_t * thz - k_c * vz).

(** [if (aN > a_max) { const s = a_max / aN; ax *= s; ay *= s; az *= s; }]. *)
Definition clamp (a : Vector3) : Vector3 :=
  let aN := hypot3 (x a) (y a) (z a) in
  if a_max <? aN then
    let s := a_max / aN in
    mkVector3 (x a * s) (y a * s) (z a * s)
  else a.

(** [acc[i].x = ax; acc[i].y = ay; acc[i].z = az]. *)
Definition setAcc (acc : list Vector3) (i : nat) (a : Vector3)
  : Result (list Vector3) :=
  match acc !! i with
  | Some _ => Ok (<[i := a]> acc)
  | None => Throw TypeError
  end.

(** The body of the last loop. *)
Definition petalStep (c : Controller) (f : Frame) (state : list BodyState)
  (acc : list Vector3) (i : nat) : Result (list Vector3) :=
  do b <- getBody state i;
  setAcc acc i (clamp (unclamped c f b)).

(** The closure [(state, t) => ...]. *)
Definition law (c : Controller) (state : list BodyState) (t : float)
  : Result (list Vector3) :=
  let n := length state in
  let acc := replicate n (mkVector3 0 0 0) in
  if Nat.eqb (length (petalIdx c)) 0 then Ok acc else
  do (mSum, cx, cy, cz, cvx, cvy, cvz) <-
     forOf (centroidStep state) (petalIdx c) (0, 0, 0, 0, 0, 0, 0);
  if mSum <=? 0 then Ok acc else
  let cx := cx / mSum in
  let cy := cy / mSum in
  let cz := cz / mSum in
  let cvx := cvx / mSum in
  let cvy := cvy / mSum in
  let cvz := cvz / mSum in
  do (Lx, Ly, Lz) <-
     forOf (momentumStep state cx cy cz cvx cvy cvz) (petalIdx c) (0, 0, 0);
  let Ln := orElse (hypot3 Lx Ly Lz) 1 in
  let nx := Lx / Ln in
  let ny := Ly / Ln in
  let nz := Lz / Ln in
  forOf (petalStep c (mkFrame cx cy cz cvx cvy cvz nx ny nz) state)
        (petalIdx c) acc.

End Binary64.

(** ** The law as a closure over a heap

    [Rosette] passes bodies and corrections by value.  Here the objects of
    the program live in a heap and are reached through references, so that
    a write to a body of the caller, to the captured index array or to the
    variables of the scope can be said: the array [state] holds references
    to body objects, a body holds references to its [position] and
    [velocity] objects, the closure holds a reference to its scope, and
    the scope one to the array [petalIdx].  Construction and evaluation
    read, allocate and write through the heap, in the order of the source;
    the arithmetic is [Rosette]'s. *)

Module Closure.

Import Rosette.
Local Open Scope R_scope.

(** A reference to an object is its address in the heap. *)
Abbreviation ref := nat (only parsing).

(** A [BodyState] object; [position] and [velocity] refer to vector objects. *)
Record BodyObject : Type := mkBodyObject {
  oName : string;
  oMass : R;
  oRadius : R;
  oColor : string;
  oIsStar : bool;
  oPosition : ref;
  oVelocity : ref
}.

(** The variables a law closes over: [petalIdx] refers to an array. *)
Record Scope : Type := mkScope {
  sPetalIdx : ref;
  sRStar : R;
  sOmegaStar : R
}.

(** The heap, one store per kind of object; an object's address is its
    index in its store, a new object goes to the end. *)
Record Heap : Type := mkHeap {
  vectors : list Vector3;          (* the objects { x, y, z } *)
  bodies : list BodyObject;        (* the BodyState objects *)
  bodyArrays : list (list ref);    (* arrays of BodyState *)
  vectorArrays : list (list ref);  (* arrays of { x, y, z } *)
  indexArrays : list (list nat);   (* arrays of indices *)
  scopes : list Scope              (* scopes of closures *)
}.

(** A computation on the heap: an outcome and the heap afterwards, also
    when it throws. *)
Definition M (A : Type) : Type := Heap -> Result A * Heap.

Definition ret {A : Type} (a : A) : M A := fun h => (Ok a, h).

Definition lift {A : Type} (r : Result A) : M A := fun h => (r, h).

Definition bindH {A B : Type} (m : M A) (k : A -> M B) : M B :=
  fun h =>
    match m h with
    | (Ok a, h') => k a h'
    | (Throw e, h') => (Throw e, h')
    end.

Declare Scope heap_scope.
Delimit Scope heap_scope with heap.
Notation "'do' x <- m ; k" := (bindH m (fun x => k))
  (at level 10, x pattern, m at level 100, k at level 200) : heap_scope.
Local Open Scope heap_scope.

(** A property read through a reference; the reference of a live program
    always finds its object. *)
Definition deref {A : Type} (store : Heap -> list A) (r : ref) : M A :=
  fun h =>
    match store h !! r with
    | Some a => (Ok a, h)
    | None => (Throw TypeError, h)
    end.

(** [{ x: ..., y: ..., z: ... }]: a new object. *)
Definition newVector (v : Vector3) : M ref :=
  fun h =>
    (Ok (length (vectors h)),
     mkHeap (vectors h ++ [v]) (bodies h) (bodyArrays h) (vectorArrays h)
       (indexArrays h) (scopes h)).

Definition newVectorArray (refs : list ref) : M ref :=
  fun h =>
    (Ok (length (vectorArrays h)),
     mkHeap (vectors h) (bodies h) (bodyArrays h) (vectorArrays h ++ [refs])
       (indexArrays h) (scopes h)).

Definition newIndexArray (idx : list nat) : M ref :=
  fun h =>
    (Ok (length (indexArrays h)),
     mkHeap (vectors h) (bodies h) (bodyArrays h) (vectorArrays h)
       (indexArrays h ++ [idx]) (scopes h)).

Definition newScope (s : Scope) : M ref :=
  fun h =>
    (Ok (length (scopes h)),
     mkHeap (vectors h) (bodies h) (bodyArrays h) (vectorArrays h)
       (indexArrays h) (scopes h ++ [s])).

(** [o.x = a] and the like: a write into the object [r] refers to. *)
Definition setField (update : Vector3 -> Vector3) (r : ref) : M unit :=
  fun h =>
    match vectors h !! r with
    | Some v =>
        (Ok tt,
         mkHeap (<[r := update v]> (vectors h)) (bodies h) (bodyArrays h)
           (vectorArrays h) (indexArrays h) (scopes h))
    | None => (Throw TypeError, h)
    end.

Definition setX (r : ref) (a : R) : M unit :=
  setField (fun v => mkVector3 a (y v) (z v)) r.
Definition setY (r : ref) (a : R) : M unit :=
  setField (fun v => mkVector3 (x v) a (z v)) r.
Definition setZ (r : ref) (a : R) : M unit :=
  setField (fun v => mkVector3 (x v) (y v) a) r.

(** [const b = state[i]] and the reads of [b.mass], [b.position.x], ...:
    the body as the heap has it now. *)
Definition readBody (state : ref) (i : nat) : M BodyState :=
  do arr <- deref bodyArrays state;
  match arr !! i with
  | None => lift (Throw TypeError)
  | Some r =>
      do o <- deref bodies r;
      do p <- deref vectors (oPosition o);
      do v <- deref vectors (oVelocity o);
      ret (mkBodyState (oName o) (oMass o) (oRadius o) (oColor o) (oIsStar o) p v)
  end.

(** [for (const x of xs) { ... }] on the heap. *)
Fixpoint forOfH {A B : Type} (body : B -> A -> M B) (xs : list A) (acc : B) : M B :=
  match xs with
  | [] => ret acc
  | x :: rest => do acc' <- body acc x; forOfH body rest acc'
  end.

(** A loop body of [Rosette] on the body read at index [i]. *)
Definition onBody {A : Type} (state : ref) (i : nat)
  (step : list BodyState -> nat -> Result A) : M A :=
  do b <- readBody state i; lift (step [b] 0%nat).

(** [Array.from({ length: n }, () => ({ x: 0, y: 0, z: 0 }))]. *)
Fixpoint newVectors (n : nat) : M (list ref) :=
  match n with
  | O => ret []
  | S k => do r <- newVector (mkVector3 0 0 0); do rs <- newVectors k; ret (r :: rs)
  end.

Definition arrayFrom (n : nat) : M ref :=
  do refs <- newVectors n; newVectorArray refs.

(** [acc[i].x = ax; acc[i].y = ay; acc[i].z = az]. *)
Definition setAcc (acc : ref) (i : nat) (a : Vector3) : M unit :=
  do arr <- deref vectorArrays acc;
  match arr !! i with
  | None => lift (Throw TypeError)
  | Some r => do _ <- setX r (x a); do _ <- setY r (y a); setZ r (z a)
  end.

Definition petalStep (c : Controller) (f : Frame) (state acc : ref)
  (_ : unit) (i : nat) : M unit :=
  do b <- readBody state i;
  do a <- lift (unclamped c f b);
  do a <- lift (clamp a);
  setAcc acc i a.

(** The closure [(state, t) => ...], called through the reference [cl] to
    its scope.  ([for (const i of petalIdx)] walks the captured array; no
    step of the loops writes to an index array, so it is read once.) *)
Definition law (cl : ref) (state : ref) (t : R) : M ref :=
  do scope <- deref scopes cl;
  do arr <- deref bodyArrays state;
  let n := length arr in
  do acc <- arrayFrom n;
  do petalIdx <- deref indexArrays (sPetalIdx scope);
  let c := mkController petalIdx (sRStar scope) (sOmegaStar scope) in
  if Nat.eqb (length petalIdx) 0 then ret acc else
  do (mSum, cx, cy, cz, cvx, cvy, cvz) <-
     forOfH (fun sums i => onBody state i (fun st j => centroidStep st sums j))
       petalIdx (0, 0, 0, 0, 0, 0, 0);
  if Rle_dec mSum 0 then ret acc else
  do cx <- lift (fdiv cx mSum);
  do cy <- lift (fdiv cy mSum);
  do cz <- lift (fdiv cz mSum);
  do cvx <- lift (fdiv cvx mSum);
  do cvy <- lift (fdiv cvy mSum);
  do cvz <- lift (fdiv cvz mSum);
  do (Lx, Ly, Lz) <-
     forOfH (fun sums i =>
               onBody state i (fun st j => momentumStep st cx cy cz cvx cvy cvz sums j))
       petalIdx (0, 0, 0);
  let Ln := orElse (hypot3 Lx Ly Lz) 1 in
  do nx <- lift (fdiv Lx Ln);
  do ny <- lift (fdiv Ly Ln);
  do nz <- lift (fdiv Lz Ln);
  do _ <- forOfH (petalStep c (mkFrame cx cy cz cvx cvy cvz nx ny nz) state acc)
            petalIdx tt;
  ret acc.

(** The values of a returned correction sequence. *)
Fixpoint readVectors (refs : list ref) : M (list Vector3) :=
  match refs with
  | [] => ret []
  | r :: rest => do v <- deref vectors r; do vs <- readVectors rest; ret (v :: vs)
  end.

Definition corrections (acc : ref) : M (list Vector3) :=
  do arr <- deref vectorArrays acc; readVectors arr.

(** A caller that evaluates the law on one input after the other, on the
    same closure and the same heap, and looks at what each call returned. *)
Fixpoint evaluations (cl : ref) (inputs : list (ref * R)) (h : Heap)
  : list (Result (list Vector3)) * Heap :=
  match inputs with
  | [] => ([], h)
  | (state, t) :: rest =>
      let '(out, h1) := bindH (law cl state t) corrections h in
      let '(outs, h2) := evaluations cl rest h1 in
      (out :: outs, h2)
  end.

(** [initialBodies.map(...).filter(...)]: every body is read, in order. *)
Fixpoint readBodies (state : ref) (from count : nat) : M (list BodyState) :=
  match count with
  | O => ret []
  | S k => do b <- readBody state from; do bs <- readBodies state (S from) k; ret (b :: bs)
  end.

(** The factory: it allocates the index array (the arrays that [map] and
    [filter] build on the way are dropped at once and left out), computes
    the two targets and returns the closure, a reference to its scope. *)
Definition makeRosetteController (initialBodies : ref) : M ref :=
  do arr <- deref bodyArrays initialBodies;
  do all <- readBodies initialBodies 0 (length arr);
  do petalIdxRef <- newIndexArray (petalIndices all);
  do petalIdx <- deref indexArrays petalIdxRef;
  do (mSum, mrSum) <-
     forOfH (fun sums i => onBody initialBodies i (fun st j => rStarStep st sums j))
       petalIdx (0, 0);
  do rStar <- lift (if Rgt_dec mSum 0 then fdiv mrSum mSum else Ok 12);
  do (mSum, sum) <-
     forOfH (fun sums i => onBody initialBodies i (fun st j => omegaStarStep st sums j))
       petalIdx (0, 0);
  do omegaStar <- lift (if Rgt_dec mSum 0 then fdiv sum mSum else Ok 0);
  newScope (mkScope petalIdxRef rStar omegaStar).

(** *** What the theorems read off a heap *)

Definition bodyAt (h : Heap) (r : ref) : option BodyState :=
  match bodies h !! r with
  | Some o =>
      match vectors h !! oPosition o, vectors h !! oVelocity o with
      | Some p, Some v =>
          Some (mkBodyState (oName o) (oMass o) (oRadius o) (oColor o) (oIsStar o) p v)
      | _, _ => None
      end
  | None => None
  end.

(** The bodies an array of the heap holds, by value. *)
Definition snapshot (h : Heap) (state : ref) : list BodyState :=
  match bodyArrays h !! state with
  | Some arr => omap (bodyAt h) arr
  | None => []
  end.

(** No reference of a body or of an array dangles. *)
Definition wellFormed (h : Heap) : Prop :=
  Forall (fun o => (oPosition o < length (vectors h))%nat
                   /\ (oVelocity o < length (vectors h))%nat) (bodies h)
  /\ Forall (Forall (fun r => (r < length (bodies h))%nat)) (bodyArrays h).

(** Every object of [h] is in [h'], at its address, as it was. *)
Definition preserved (h h' : Heap) : Prop :=
  vectors h `prefix_of` vectors h'
  /\ bodies h `prefix_of` bodies h'
  /\ bodyArrays h `prefix_of` bodyArrays h'
  /\ vectorArrays h `prefix_of` vectorArrays h'
  /\ indexArrays h `prefix_of` indexArrays h'
  /\ scopes h `prefix_of` scopes h'.

(** The heap after one evaluation on [h]: the objects of [h], then the
    [n] corrections [accs] and the array that holds them. *)
Definition withCorrections (h : Heap) (n : nat) (accs : list Vector3) : Heap :=
  mkHeap (vectors h ++ accs) (bodies h) (bodyArrays h)
    (vectorArrays h ++ [seq (length (vectors h)) n]) (indexArrays h) (scopes h).

(** The heap after a construction on [h]: the objects of [h], then the
    index array and the scope of the new closure. *)
Definition withClosure (h : Heap) (c : Controller) : Heap :=
  mkHeap (vectors h) (bodies h) (bodyArrays h) (vectorArrays h)
    (indexArrays h ++ [petalIdx c])
    (scopes h ++ [mkScope (length (indexArrays h)) (rStar c) (omegaStar c)]).

(** *** [deepCopyBodies] of [src/modes/registry.ts] *)

(** [{ ...b, position: ..., velocity: ... }]: a new body object. *)
Definition newBody (o : BodyObject) : M ref :=
  fun h =>
    (Ok (length (bodies h)),
     mkHeap (vectors h) (bodies h ++ [o]) (bodyArrays h) (vectorArrays h)
       (indexArrays h) (scopes h)).

Definition newBodyArray (refs : list ref) : M ref :=
  fun h =>
    (Ok (length (bodyArrays h)),
     mkHeap (vectors h) (bodies h) (bodyArrays h ++ [refs]) (vectorArrays h)
       (indexArrays h) (scopes h)).

(** The callback of [deepCopyBodies]:
    [b => ({ ...b, position: { ...b.position }, velocity: { ...b.velocity } })]. *)
Definition copyBody (r : ref) : M ref :=
  do o <- deref bodies r;
  do p <- deref vectors (oPosition o);
  do p' <- newVector p;
  do v <- deref vectors (oVelocity o);
  do v' <- newVector v;
  newBody (mkBodyObject (oName o) (oMass o) (oRadius o) (oColor o) (oIsStar o) p' v').

(** [bodies.map(callback)], element by element. *)
Fixpoint copyBodies (refs : list ref) : M (list ref) :=
  match refs with
  | [] => ret []
  | r :: rest => do r' <- copyBody r; do rs <- copyBodies rest; ret (r' :: rs)
  end.

(** [deepCopyBodies(bodies)] of the registry, on the heap. *)
Definition deepCopyBodies (bodiesRef : ref) : M ref :=
  do arr <- deref bodyArrays bodiesRef;
  do refs <- copyBodies arr;
  newBodyArray refs.

(** The objects a copy of the bodies [bs] adds to a heap with [base]
    vectors: two vectors and one body per body. *)
Definition copiedVectors (bs : list BodyState) : list Vector3 :=
  flat_map (fun b => [position b; velocity b]) bs.

Definition copiedBody (base k : nat) (b : BodyState) : BodyObject :=
  mkBodyObject (name b) (mass b) (radius b) (color b) (isStar b)
    (base + 2 * k) (base + 2 * k + 1).

Definition withBodies (h : Heap) (bs : list BodyState) : Heap :=
  mkHeap (vectors h ++ copiedVectors bs)
    (bodies h ++ imap (copiedBody (length (vectors h))) bs)
    (bodyArrays h) (vectorArrays h) (indexArrays h) (scopes h).

Definition withCopy (h : Heap) (bs : list BodyState) : Heap :=
  mkHeap (vectors h ++ copiedVectors bs)
    (bodies h ++ imap (copiedBody (length (vectors h))) bs)
    (bodyArrays h ++ [seq (length (bodies h)) (length bs)])
    (vectorArrays h) (indexArrays h) (scopes h).

(** A heap that differs from [h] by corrections returned since. *)
Definition grownBy (h h' : Heap) : Prop :=
  vectors h `prefix_of` vectors h'
  /\ vectorArrays h `prefix_of` vectorArrays h'
  /\ bodies h' = bodies h
  /\ bodyArrays h' = bodyArrays h
  /\ indexArrays h' = indexArrays h
  /\ scopes h' = scopes h.

End Closure.


(** ** [src/services/starfieldGenerator.ts] *)

Module Starfield.

Import Random.
Local Open Scope Z_scope.

(** *** Strings and [parseInt]

    A string is a sequence of code units below 256. *)

(** White space and line terminators among the code units below 256. *)
Definition isWhiteSpace (c : ascii) : bool :=
  existsb (Nat.eqb (nat_of_ascii c)) [9; 10; 11; 12; 13; 32; 160]%nat.

Fixpoint trimStart (s : string) : string :=
  match s with
  | EmptyString => EmptyString
  | String c rest => if isWhiteSpace c then trimStart rest else s
  end.

Fixpoint trimEnd (s : string) : string :=
  match s with
  | EmptyString => EmptyString
  | String c rest =>
      match trimEnd rest with
      | EmptyString => if isWhiteSpace c then EmptyString else String c EmptyString
      | t => String c t
      end
  end.

(** [s.trim()]. *)
Definition trim (s : string) : string := trimEnd (trimStart s).

(** [s.slice(1)]. *)
Definition slice1 (s : string) : string :=
  match s with
  | EmptyString => EmptyString
  | String _ rest => rest
  end.

(** [s.split('').map((c) => c + c).join('')]. *)
Fixpoint doubleChars (s : string) : string :=
  match s with
  | EmptyString => EmptyString
  | String c rest => String c (String c (doubleChars rest))
  end.

(** The value of a digit of radix 16. *)
Definition hexDigit (c : ascii) : option Z :=
  let n := Z.of_nat (nat_of_ascii c) in
  if (48 <=? n) && (n <=? 57) then Some (n - 48)
  else if (97 <=? n) && (n <=? 102) then Some (n - 87)
  else if (65 <=? n) && (n <=? 70) then Some (n - 55)
  else None.

(** The integer written by the longest prefix of radix-16 digits; [None]
    when the string starts with no digit. *)
Fixpoint hexPrefix (s : string) (acc : option Z) : option Z :=
  match s with
  | EmptyString => acc
  | String c rest =>
      match hexDigit c with
      | Some d => hexPrefix rest (Some (16 * match acc with Some a => a | None => 0 end + d))
      | None => acc
      end
  end.

(** The double nearest to a non-negative integer, ties to even, as an
    integer with an unbounded exponent. *)
Definition roundTo53 (m : Z) : Z :=
  if m <? 2 ^ 53 then m
  else
    let e := Z.log2 m - 52 in
    let q := Z.shiftr m e in
    let r := m mod 2 ^ e in
    let half := 2 ^ (e - 1) in
    let q' :=
      if r <? half then q
      else if half <? r then q + 1
      else if Z.even q then q else q + 1 in
    q' * 2 ^ e.

(** The Number value of an integer: rounded, infinite from 2^1024 on. *)
Definition integerToNumber (z : Z) : JSNumber :=
  let m := roundTo53 (Z.abs z) in
  if 2 ^ 1024 <=? m then (if z <? 0 then NegInfinity else PosInfinity)
  else Finite (inject_Z (Z.sgn z * m)).

(** [parseInt(s, 16)]: leading white space, a sign, a [0x] or [0X]
    prefix, then the digits up to the first character that is none. *)
Definition parseInt16 (s : string) : JSNumber :=
  let s := trimStart s in
  let '(sign, s) :=
    match s with
    | String "-" rest => (-1, rest)
    | String "+" rest => (1, rest)
    | _ => (1, s)
    end in
  let s :=
    match s with
    | String "0" (String "x" rest) => rest
    | String "0" (String "X" rest) => rest
    | _ => s
    end in
  match hexPrefix s None with
  | None => NaN
  | Some m => integerToNumber (sign * m)
  end.

(** ToInt32 on any number. *)
Definition NumberToInt32 (v : JSNumber) : Z :=
  match v with
  | Finite q => ToInt32 (Z.quot (Qnum q) (Zpos (Qden q)))
  | NaN | PosInfinity | NegInfinity => 0
  end.

(** [a >> n] and [a & b] on 32-bit integers. *)
Definition sar (a n : Z) : Z := Z.shiftr (ToInt32 a) (n mod 32).
Definition band (a b : Z) : Z := ToInt32 (Z.land (ToInt32 a) (ToInt32 b)).

(** [hexToRGB(hex)]. *)
Definition hexToRGB (hex : string) : Q * Q * Q :=
  let normalized := trim hex in
  let normalized :=
    if String.prefix "#" normalized then slice1 normalized else normalized in
  let normalized :=
    if (String.length normalized =? 3)%nat then doubleChars normalized
    else normalized in
  let num := NumberToInt32 (parseInt16 normalized) in
  let r := band (sar num 16) 255 in
  let g := band (sar num 8) 255 in
  let b := band num 255 in
  (inject_Z r / 255, inject_Z g / 255, inject_Z b / 255)%Q.

(** [clamp(value, min, max)]. *)
Definition clamp (value min max : Q) : Q := Qmin max (Qmax min value).

(** *** Typed arrays

    A [Float32Array] holds the single-precision roundings of what is
    stored in it; the rounding [fround] is left open. *)

Definition rangeError (msg : string) : JSError :=
  ThrownError ("RangeError: " ++ msg).

Section Float32.

Variable fround : R -> R.

(** [new Float32Array(n)] for an integer [n]. *)
Definition newFloat32Array (n : Z) : Result (list R) :=
  if n <? 0 then Throw (rangeError "Invalid typed array length")
  else Ok (replicate (Z.to_nat n) 0%R).

Fixpoint writeFrom (arr : list R) (offset : nat) (vals : list R) : list R :=
  match vals with
  | [] => arr
  | v :: rest => writeFrom (<[offset := fround v]> arr) (S offset) rest
  end.

(** [arr.set(vals, offset)]. *)
Definition typedSet (arr : list R) (vals : list R) (offset : nat)
  : Result (list R) :=
  if (length arr <? offset + length vals)%nat
  then Throw (rangeError "offset is out of bounds")
  else Ok (writeFrom arr offset vals).

(** [arr[i] = v]: a write outside the array is dropped. *)
Definition typedPut (arr : list R) (i : nat) (v : R) : list R :=
  <[i := fround v]> arr.

(** *** The generator functions, over any generator [rand] *)

Section Generator.

Context {St : Type}.
Variable rand : St -> Q * St.

(** One channel of [jitterColor]: the callback of [base.map]. *)
Definition jitterChannel (amount channel : Q) (s : St) : Q * St :=
  let '(v, s') := rand s in
  (clamp (channel + (v * 2 - 1) * amount) 0 1, s')%Q.

(** [jitterColor(base, rand, amount)]. *)
Definition jitterColor (base : Q * Q * Q) (s : St) (amount : Q)
  : (Q * Q * Q) * St :=
  let '(r, g, b) := base in
  let '(r', s) := jitterChannel amount r s in
  let '(g', s) := jitterChannel amount g s in
  let '(b', s) := jitterChannel amount b s in
  ((r', g', b'), s).

(** [randomUnitVector(rand, scale)].  ([Math.sqrt] is the real square
    root where its argument is not negative, that is for draws between 0
    and 1.) *)
Definition randomUnitVector (s : St) (scale : R) : (R * R * R) * St :=
  let '(a, s) := rand s in
  let u := (Q2R a * 2 - 1)%R in
  let '(b, s) := rand s in
  let theta := (Q2R b * PI * 2)%R in
  let factor := sqrt (1 - u * u) in
  ((cos theta * factor * scale, sin theta * factor * scale, u * scale)%R, s).

(** [randomPointInShell(rand, radius, thickness)]. *)
Definition randomPointInShell (s : St) (radius thickness : Q)
  : (R * R * R) * St :=
  let '(dir, s) := randomUnitVector s 1 in
  let '(offset, s) := randomRange rand s (- thickness / 2)%Q (thickness / 2)%Q in
  let r := Qmax 1 (radius + offset)%Q in
  let '(d0, d1, d2) := dir in
  ((d0 * Q2R r, d1 * Q2R r, d2 * Q2R r)%R, s).

Record StarLayerConfig : Type := mkStarLayerConfig {
  id : string;
  count : Z;
  radius : Q;
  thickness : Q;
  sizeRange : Q * Q;
  twinkleSpeedRange : Q * Q;
  twinkleAmplitudeRange : Q * Q;
  driftStrength : Q;
  parallaxFactor : Q
}.

(** The seven typed arrays of a layer. *)
Record Buffers : Type := mkBuffers {
  positions : list R;
  colors : list R;
  sizes : list R;
  twinkleSpeed : list R;
  twinklePhase : list R;
  twinkleAmplitude : list R;
  drift : list R
}.

Record StarLayerData : Type := mkStarLayerData {
  layerId : string;
  layerCount : Z;
  layerParallaxFactor : Q;
  buffers : Buffers
}.

Definition tripleToList (t : R * R * R) : list R :=
  let '(a, b, c) := t in [a; b; c].

Definition colorToList (t : Q * Q * Q) : list R :=
  let '(a, b, c) := t in [Q2R a; Q2R b; Q2R c].

(** The body of the loop of [generateLayer], for star [i]. *)
Definition starStep (layerConfig : StarLayerConfig) (palette : list string)
  (colorJitter : Q) (acc : Buffers * St) (i : nat) : Result (Buffers * St) :=
  let '(buf, s) := acc in
  let '(pos, s) :=
    randomPointInShell s (radius layerConfig) (thickness layerConfig) in
  do positions <- typedSet (positions buf) (tripleToList pos) (i * 3);
  let '(picked, s) := pickRandom rand s palette in
  do picked <- picked;
  do hex <- match picked with Some h => Ok h | None => Throw TypeError end;
  let '(color, s) := jitterColor (hexToRGB hex) s colorJitter in
  do colors <- typedSet (colors buf) (colorToList color) (i * 3);
  let '(size, s) :=
    randomRange rand s (fst (sizeRange layerConfig)) (snd (sizeRange layerConfig)) in
  let sizes := typedPut (sizes buf) i (Q2R size) in
  let '(speed, s) :=
    randomRange rand s (fst (twinkleSpeedRange layerConfig))
      (snd (twinkleSpeedRange layerConfig)) in
  let twinkleSpeed := typedPut (twinkleSpeed buf) i (Q2R speed) in
  let '(phase, s) := rand s in
  let twinklePhase := typedPut (twinklePhase buf) i (Q2R phase * PI * 2)%R in
  let '(amplitude, s) :=
    randomRange rand s (fst (twinkleAmplitudeRange layerConfig))
      (snd (twinkleAmplitudeRange layerConfig)) in
  let twinkleAmplitude := typedPut (twinkleAmplitude buf) i (Q2R amplitude) in
  let '(driftVec, s) := randomUnitVector s (Q2R (driftStrength layerConfig)) in
  do drift <- typedSet (drift buf) (tripleToList driftVec) (i * 3);
  Ok (mkBuffers positions colors sizes twinkleSpeed twinklePhase
        twinkleAmplitude drift, s).

(** [generateLayer(layerConfig, palette, colorJitter, rand)]: the layer
    and the generator after it. *)
Definition generateLayer (layerConfig : StarLayerConfig) (palette : list string)
  (colorJitter : Q) (s : St) : Result (StarLayerData * St) :=
  let count := count layerConfig in
  do positions <- newFloat32Array (count * 3);
  do colors <- newFloat32Array (count * 3);
  do sizes <- newFloat32Array count;
  do twinkleSpeed <- newFloat32Array count;
  do twinklePhase <- newFloat32Array count;
  do twinkleAmplitude <- newFloat32Array count;
  do drift <- newFloat32Array (count * 3);
  do (buf, s) <-
     forOf (starStep layerConfig palette colorJitter)
       (seq 0 (Z.to_nat count))
       (mkBuffers positions colors sizes twinkleSpeed twinklePhase
          twinkleAmplitude drift, s);
  Ok (mkStarLayerData (id layerConfig) count (parallaxFactor layerConfig) buf, s).

(** [layers.map((layer) => generateLayer(layer, palette, colorJitter, rand))]
    on the one generator. *)
Fixpoint generateLayers (layers : list StarLayerConfig) (palette : list string)
  (colorJitter : Q) (s : St) : Result (list StarLayerData * St) :=
  match layers with
  | [] => Ok ([], s)
  | layer :: rest =>
      do (data, s) <- generateLayer layer palette colorJitter s;
      do (others, s) <- generateLayers rest palette colorJitter s;
      Ok (data :: others, s)
  end.

End Generator.

(** *** Configuration *)

Record StarfieldConfig : Type := mkStarfieldConfig {
  seed : JSNumber;
  palette : list string;
  colorJitter : Q;
  layers : list StarLayerConfig
}.

(** A [Partial<StarfieldConfig>]: each property present with a value, or
    absent. *)
Record PartialStarfieldConfig : Type := mkPartialStarfieldConfig {
  seed' : option JSNumber;
  palette' : option (list string);
  colorJitter' : option Q;
  layers' : option (list StarLayerConfig)
}.

Definition DEFAULT_STARFIELD_CONFIG : StarfieldConfig :=
  mkStarfieldConfig (Finite 1337) ["#f4f8ff"; "#dbeafe"; "#fff7d6"; "#ffd1dc"; "#e0ecff"]%string
    0.1
    [ mkStarLayerConfig "near" 210 45 18 (6, 14) (0.8, 1.6) (0.4, 1.2) 0.05 0.35;
      mkStarLayerConfig "mid" 450 70 25 (4, 10) (0.4, 1.2) (0.2, 0.7) 0.02 0.2;
      mkStarLayerConfig "far" 700 110 30 (3, 7) (0.2, 0.6) (0.05, 0.3) 0.01 0.05 ]%Q.

(** [cloneConfig(source)]: fresh arrays and objects with the same
    contents. *)
Definition cloneConfig (source : StarfieldConfig) : StarfieldConfig :=
  mkStarfieldConfig (seed source) (palette source) (colorJitter source)
    (map (fun layer => layer) (layers source)).

Definition getDefaultStarfieldConfig : StarfieldConfig :=
  cloneConfig DEFAULT_STARFIELD_CONFIG.

(** [{ ...baseConfig, ...config, layers: (config?.layers ??
    baseConfig.layers).map((layer) => ({ ...layer })) }]. *)
Definition mergeConfig (config : option PartialStarfieldConfig) : StarfieldConfig :=
  let baseConfig := cloneConfig DEFAULT_STARFIELD_CONFIG in
  let pick {A : Type} (field : PartialStarfieldConfig -> option A) (base : A) : A :=
    match config with
    | Some c => match field c with Some v => v | None => base end
    | None => base
    end in
  mkStarfieldConfig
    (pick seed' (seed baseConfig))
    (pick palette' (palette baseConfig))
    (pick colorJitter' (colorJitter baseConfig))
    (map (fun layer => layer) (pick layers' (layers baseConfig))).

(** [generateStarfield(config)]: the layers ([StarfieldData] has no other
    field). *)
Definition generateStarfield (config : option PartialStarfieldConfig)
  : Result (list StarLayerData) :=
  let mergedConfig := mergeConfig config in
  let rng := createSeededRandom (seed mergedConfig) in
  do (layers, _) <-
     generateLayers next (layers mergedConfig) (palette mergedConfig)
       (colorJitter mergedConfig) rng;
  Ok layers.

End Float32.

End Starfield.

(** ** Reading colours: the vocabulary of the statements *)

Module StarfieldSpec.

Import Starfield.
Local Open Scope Z_scope.

(** A string made of radix-16 digits only, with the values of its
    digits. *)
Inductive HexString : string -> list Z -> Prop :=
| HexEmpty : HexString EmptyString []
| HexCons (c : ascii) (d : Z) (s : string) (ds : list Z) :
    hexDigit c = Some d -> HexString s ds -> HexString (String c s) (d :: ds).

(** The number a list of radix-16 digits writes, after the digits of
    [acc]. *)
Definition hexValue (ds : list Z) (acc : Z) : Z :=
  fold_left (fun a d => 16 * a + d) ds acc.

(** The state of a generator after [k] calls. *)
Fixpoint advance {St : Type} (rand : St -> Q * St) (k : nat) (s : St) : St :=
  match k with
  | O => s
  | S k' => advance rand k' (snd (rand s))
  end.

(** The lengths of the seven arrays of a layer of [n] stars. *)
Definition sizedFor (n : nat) (buf : Buffers) : Prop :=
  length (positions buf) = (3 * n)%nat
  /\ length (colors buf) = (3 * n)%nat
  /\ length (sizes buf) = n
  /\ length (twinkleSpeed buf) = n
  /\ length (twinklePhase buf) = n
  /\ length (twinkleAmplitude buf) = n
  /\ length (drift buf) = (3 * n)%nat.

(** The number of stars of a list of layers. *)
Definition totalStars (layers : list StarLayerConfig) : nat :=
  fold_right (fun layer n => (Z.to_nat (count layer) + n)%nat) 0%nat layers.

(** A generated layer answers its configuration: same id, count and
    parallax factor, arrays of three entries per star for positions,
    colours and drift and of one entry per star for the rest. *)
Definition answers (layer : StarLayerConfig) (data : StarLayerData) : Prop :=
  layerId data = id layer
  /\ layerCount data = count layer
  /\ layerParallaxFactor data = parallaxFactor layer
  /\ sizedFor (Z.to_nat (count layer)) (buffers data).

End StarfieldSpec.

(** ** The application module: trails *)

Module App.

(** [getTrailLength(speed)]. *)
Definition getTrailLength (speed : Q) : Z :=
  if Qlt_le_dec 8 speed then 60
  else if Qlt_le_dec 5 speed then 80
  else if Qlt_le_dec 2 speed then 120
  else 200.

End App.

(** ** [src/modes/registry.ts] *)

Module Registry.

Import Rosette.

Record ParameterMeta : Type := mkParameterMeta {
  key : string;
  label : string;
  default : Q;
  min : Q;
  max : Q;
  step : Q
}.

(** A preset of the constants module: what the registry reads of it. *)
Record Preset : Type := mkPreset {
  presetName : string;
  presetLabel : string;
  presetBodies : list BodyState
}.

(** A mode.  Its [createInitialBodies] closes over the preset (the copy
    it makes is [Closure.deepCopyBodies]), its [createController] is there
    for the Rosette only. *)
Record Mode : Type := mkMode {
  modeId : string;
  modeLabel : string;
  modePreset : Preset;
  parameters : option (list ParameterMeta);
  hasController : bool
}.

Definition rosetteParameters : list ParameterMeta :=
  [ mkParameterMeta "k_r" "Radial stiffness (k_r)" 0.08 0 0.5 0.01;
    mkParameterMeta "k_dr" "Radial damping (k_dr)" 0.18 0 1.0 0.01;
    mkParameterMeta "k_t" "Tangential stiffness (k_t)" 0.12 0 0.5 0.01;
    mkParameterMeta "k_dt" "Tangential damping (k_dt)" 0.08 0 0.5 0.01;
    mkParameterMeta "k_c" "Drag (k_c)" 0.02 0 0.2 0.005;
    mkParameterMeta "a_max" "Accel cap (a_max)" 0.04 0.005 0.2 0.005 ]%Q.

Section Modes.

(** [PRESETS] comes from the constants module. *)
Variable PRESETS : list Preset.

(** The callback of [PRESETS.map]. *)
Definition buildMode (preset : Preset) : Mode :=
  if String.eqb (presetName preset) "Rosette"
  then mkMode (presetName preset) (presetLabel preset) preset
         (Some rosetteParameters) true
  else mkMode (presetName preset) (presetLabel preset) preset None false.

Definition modes : list Mode := map buildMode PRESETS.

Definition getAllModes : list Mode := modes.

(** [getModeById(id)]. *)
Definition getModeById (id : string) : Result Mode :=
  match List.find (fun m => String.eqb (modeId m) id) modes with
  | Some m => Ok m
  | None => Throw (ThrownError ("Mode not found: " ++ id))
  end.

(** [getModeOptions()]. *)
Definition getModeOptions : list (string * string) :=
  map (fun m => (modeId m, modeLabel m)) modes.

End Modes.

End Registry.

(** ** Sample snapshots *)

Module Samples.

Import PrimFloat.
Import Rosette.
Local Open Scope R_scope.
#[local] Set Warnings "-inexact-float".

Definition sun : BodyState :=
  mkBodyState "Sun" 10 1 "#ffcc00" true (mkVector3 0 0 0) (mkVector3 0 0 0).
Definition petal1 : BodyState :=
  mkBodyState "Petal 1" 2 0.3 "#22c55e" false (mkVector3 3 0 4) (mkVector3 0 1 0).
Definition petal2 : BodyState :=
  mkBodyState "Petal 2" 1 0.3 "#22c55e" false (mkVector3 (-3) 0 4) (mkVector3 0 (-1) 0).

(** A star and a ring of two. *)
Definition ring : list BodyState := [sun; petal1; petal2].

(** The same system observed later. *)
Definition petal1Later : BodyState :=
  mkBodyState "Petal 1" 2 0.3 "#22c55e" false (mkVector3 3 1 4) (mkVector3 (-1) 1 0).
Definition petal2Later : BodyState :=
  mkBodyState "Petal 2" 1 0.3 "#22c55e" false (mkVector3 (-3) (-1) 4) (mkVector3 1 (-1) 0).
Definition ringLater : list BodyState := [sun; petal1Later; petal2Later].

(** The ring at rest: no angular momentum about its centroid. *)
Definition petal1AtRest : BodyState :=
  mkBodyState "Petal 1" 2 0.3 "#22c55e" false (mkVector3 3 0 4) (mkVector3 0 0 0).
Definition petal2AtRest : BodyState :=
  mkBodyState "Petal 2" 1 0.3 "#22c55e" false (mkVector3 (-3) 0 4) (mkVector3 0 0 0).
Definition ringAtRest : list BodyState := [sun; petal1AtRest; petal2AtRest].

(** A snapshot that lost its last body. *)
Definition ringShort : list BodyState := [sun; petal1].

(** A system with no ring. *)
Definition noRing : list BodyState := [sun].

(** The nearest layer of the default starfield, and its palette. *)
Definition nearLayer : Starfield.StarLayerConfig :=
  Starfield.mkStarLayerConfig "near" 210 45 18 (6, 14)%Q (0.8, 1.6)%Q
    (0.4, 1.2)%Q 0.05%Q 0.35%Q.

Definition palette : list string :=
  ["#f4f8ff"; "#dbeafe"; "#fff7d6"; "#ffd1dc"; "#e0ecff"]%string.

(** Three presets as the registry reads them. *)
Definition presets : list Registry.Preset :=
  [ Registry.mkPreset "Figure8" "Figure-8" [];
    Registry.mkPreset "Rosette" "Rosette Hexa-Ring" ring;
    Registry.mkPreset "Random" "Random" [] ].



(** A heap that holds [ring]: six vectors, three bodies and the array of
    the three bodies. *)
Definition ringHeap : Closure.Heap :=
  Closure.mkHeap
    [ position sun; velocity sun; position petal1; velocity petal1;
      position petal2; velocity petal2 ]
    [ Closure.mkBodyObject "Sun" 10 1 "#ffcc00" true 0 1;
      Closure.mkBodyObject "Petal 1" 2 0.3 "#22c55e" false 2 3;
      Closure.mkBodyObject "Petal 2" 1 0.3 "#22c55e" false 4 5 ]
    [ [0; 1; 2]%nat ] [] [] [].

End Samples.

(** * Properties of the seeded generator *)

Section RandomFacts.

Import Random.
Local Open Scope Z_scope.

Lemma ToUint32_range (a : Z) : 0 <= ToUint32 a < two32.
Proof. unfold ToUint32, two32. apply Z.mod_pos_bound. lia. Qed.

Lemma ToInt32_range (a : Z) : - two31 <= ToInt32 a < two31.
Proof.
  unfold ToInt32.
  pose proof (Z.mod_pos_bound (a + two31) two32) as H.
  unfold two31, two32 in *. lia.
Qed.

Lemma ToInt32_congr (a : Z) : ToInt32 a mod two32 = a mod two32.
Proof.
  unfold ToInt32.
  replace ((a + two31) mod two32 - two31)
    with ((a + two31) mod two32 + (- two31)) by lia.
  rewrite Zplus_mod_idemp_l.
  f_equal. lia.
Qed.

Lemma ToInt32_small (a : Z) : - two31 <= a < two31 -> ToInt32 a = a.
Proof.
  intros H. unfold ToInt32.
  rewrite Z.mod_small; unfold two31, two32 in *; lia.
Qed.

Lemma ushr_range (a n : Z) : 0 <= ushr a n < two32.
Proof.
  unfold ushr.
  pose proof (ToUint32_range a) as Ha.
  assert (Hn : 0 <= n mod 32) by (apply Z.mod_pos_bound; lia).
  rewrite Z.shiftr_div_pow2 by exact Hn.
  assert (Hp : 0 < 2 ^ (n mod 32)) by (apply Z.pow_pos_nonneg; lia).
  split.
  - apply Z.div_pos; lia.
  - apply Z.le_lt_trans with (ToUint32 a); [ | lia ].
    apply Z.div_le_upper_bound; [ lia | nia ].
Qed.

Lemma bor_zero_r (a : Z) : bor a 0 = ToInt32 a.
Proof.
  unfold bor.
  rewrite (ToInt32_small 0) by (unfold two31; lia).
  rewrite Z.lor_0_r.
  apply ToInt32_small, ToInt32_range.
Qed.

Lemma nextRaw_output_range (s : SeededRandom) : 0 <= fst (nextRaw s) < two32.
Proof. unfold nextRaw. cbn [fst]. apply ushr_range. Qed.

Lemma nextRaw_state (s : SeededRandom) :
  snd (nextRaw s) = ToInt32 (s + 0x6d2b79f5).
Proof. unfold nextRaw. cbn [snd]. apply bor_zero_r. Qed.

Lemma next_fst (s : SeededRandom) : fst (next s) = Qmake (fst (nextRaw s)) 4294967296.
Proof. unfold next. destruct (nextRaw s). reflexivity. Qed.

Lemma next_snd (s : SeededRandom) : snd (next s) = snd (nextRaw s).
Proof. unfold next. destruct (nextRaw s). reflexivity. Qed.

Lemma NumberToUint32_range (seed : JSNumber) : 0 <= NumberToUint32 seed < two32.
Proof.
  destruct seed; cbn [NumberToUint32];
    [ apply ToUint32_range | unfold two32; lia .. ].
Qed.

Lemma stateAfter_congr (k : nat) (s : SeededRandom) :
  stateAfter k s mod two32 = (s + Z.of_nat k * 0x6d2b79f5) mod two32.
Proof.
  revert s. induction k as [ | k IH ]; intros s.
  - cbn [stateAfter]. f_equal. lia.
  - cbn [stateAfter]. rewrite IH, next_snd, nextRaw_state.
    rewrite <- Zplus_mod_idemp_l, ToInt32_congr, Zplus_mod_idemp_l.
    f_equal. lia.
Qed.

Lemma stateAfter_range (k : nat) (s : SeededRandom) :
  - two31 <= s < two32 -> - two31 <= stateAfter k s < two32.
Proof.
  revert s. induction k as [ | k IH ]; intros s Hs; cbn [stateAfter].
  - exact Hs.
  - apply IH. rewrite next_snd, nextRaw_state.
    pose proof (ToInt32_range (s + 0x6d2b79f5)). unfold two31, two32 in *. lia.
Qed.

Lemma unit_interval_of_uint32 (n : Z) :
  0 <= n < two32 -> (0 <= Qmake n 4294967296 /\ Qmake n 4294967296 < 1)%Q.
Proof.
  intros [H0 H1]. unfold Qle, Qlt. cbn [Qnum Qden].
  unfold two32 in H1. lia.
Qed.

(** C9: for every seed, every value the generator of
    [createSeededRandom] produces lies in the interval from 0 (included)
    to 1 (excluded); it is an unsigned 32-bit integer divided by
    4294967296, and the internal state stays a 32-bit value that agrees
    modulo 2^32 with the seed advanced by the increment once per call. *)
Theorem createSeededRandom_outputs_in_unit_interval :
  forall (seed : JSNumber) (k : nat),
    let s0 := createSeededRandom seed in
    (0 <= output k s0 /\ output k s0 < 1)%Q
    /\ (exists n : Z, 0 <= n < 4294967296 /\ output k s0 = Qmake n 4294967296)
    /\ - 2147483648 <= stateAfter k s0 < 4294967296
    /\ stateAfter k s0 mod 4294967296
       = (NumberToUint32 seed + Z.of_nat k * 0x6d2b79f5) mod 4294967296.
Proof.
  intros seed k s0.
  pose proof (nextRaw_output_range (stateAfter k s0)) as Hn.
  assert (Hout : output k s0 = Qmake (fst (nextRaw (stateAfter k s0))) 4294967296)
    by (unfold output; apply next_fst).
  split; [ | split; [ | split ] ].
  - rewrite Hout. apply unit_interval_of_uint32, Hn.
  - exists (fst (nextRaw (stateAfter k s0))). split; [ exact Hn | exact Hout ].
  - pose proof (NumberToUint32_range seed) as Hs.
    apply (stateAfter_range k s0). unfold s0, createSeededRandom, two31, two32 in *. lia.
  - apply (stateAfter_congr k s0).
Qed.

End RandomFacts.

Section PickRandomFacts.

Import Random.
Local Open Scope Z_scope.

Context {St T : Type}.
Variable rand : St -> Q * St.

Lemma pickRandom_empty (s : St) :
  pickRandom rand s (@nil T)
  = (Throw (ThrownError "Cannot pick from an empty array"), s).
Proof. reflexivity. Qed.

Lemma pickRandom_nonempty (s : St) (items : list T) :
  items <> [] ->
  pickRandom rand s items
  = (Ok (arrayGet items
           (Qfloor (fst (rand s) * inject_Z (Z.of_nat (length items))))),
     snd (rand s)).
Proof.
  intros Hne. unfold pickRandom.
  destruct items as [ | a l ]; [ congruence | ].
  replace (Z.of_nat (length (a :: l)) =? 0) with false
    by (symmetry; apply Z.eqb_neq; cbn [length]; lia).
  destruct (rand s); reflexivity.
Qed.

Lemma floor_scaled_index (v : Q) (len : Z) :
  0 < len -> (0 <= v)%Q -> (v < 1)%Q ->
  0 <= Qfloor (v * inject_Z len) < len.
Proof.
  intros Hlen H0 H1.
  assert (Hl : (0 < inject_Z len)%Q) by (unfold Qlt; cbn; lia).
  split.
  - change 0 with (Qfloor 0). apply Qfloor_resp_le.
    apply Qmult_le_0_compat; [ exact H0 | apply Qlt_le_weak, Hl ].
  - assert (Hq : (v * inject_Z len < inject_Z len)%Q).
    { pose proof (Qmult_lt_compat_r v 1 (inject_Z len) Hl H1) as Hm.
      rewrite Qmult_1_l in Hm. exact Hm. }
    pose proof (Qfloor_le (v * inject_Z len)) as Hf.
    rewrite Zlt_Qlt.
    eapply Qle_lt_trans; eassumption.
Qed.

Lemma floor_of_generator_value (v : Q) (n len : Z) :
  (v == inject_Z n / 4294967296)%Q ->
  Qfloor (v * inject_Z len) = n * len / 4294967296.
Proof.
  intros Hv. rewrite Zdiv_Qdiv. apply Qfloor_comp.
  rewrite Hv, inject_Z_mult. field.
Qed.

(** C10: [pickRandom(rand, items)] throws exactly when [items] is empty;
    on a non-empty list, with a generator value in the interval from 0
    (included) to 1 (excluded), it returns an element of the list; and
    where the product [rand() * items.length] is exact in double
    precision, as it is for a generator value [n / 2^32] (what the seeded
    generator returns) and a list of fewer than 2^21 entries, that
    element is [items[floor(rand() * items.length)]], at the index
    [n * items.length] divided by 2^32 and rounded down. *)
Theorem pickRandom_throws_iff_empty_else_picks_member :
  forall (s : St) (items : list T),
    ((exists e, fst (pickRandom rand s items) = Throw e) <-> items = [])
    /\ (items <> [] ->
        (0 <= fst (rand s) /\ fst (rand s) < 1)%Q ->
        exists a : T,
          pickRandom rand s items = (Ok (Some a), snd (rand s))
          /\ In a items)
    /\ (items <> [] ->
        forall n : Z,
          0 <= n < 4294967296 ->
          (fst (rand s) == inject_Z n / 4294967296)%Q ->
          Z.of_nat (length items) < 2097152 ->
          exists a : T,
            pickRandom rand s items = (Ok (Some a), snd (rand s))
            /\ items !! Z.to_nat
                 (Qfloor (fst (rand s) * inject_Z (Z.of_nat (length items))))
               = Some a
            /\ Qfloor (fst (rand s) * inject_Z (Z.of_nat (length items)))
               = n * Z.of_nat (length items) / 4294967296
            /\ In a items).
Proof.
  intros s items.
  assert (Hpick : items <> [] ->
                  (0 <= fst (rand s) /\ fst (rand s) < 1)%Q ->
                  exists a : T,
                    pickRandom rand s items = (Ok (Some a), snd (rand s))
                    /\ items !! Z.to_nat
                         (Qfloor (fst (rand s) * inject_Z (Z.of_nat (length items))))
                       = Some a
                    /\ In a items).
  { intros Hne [H0 H1].
    rewrite (pickRandom_nonempty s items Hne).
    assert (Hlen : 0 < Z.of_nat (length items))
      by (destruct items; [ congruence | cbn [length]; lia ]).
    pose proof (floor_scaled_index _ _ Hlen H0 H1) as [Hi0 Hi1].
    set (idx := Qfloor (fst (rand s) * inject_Z (Z.of_nat (length items)))) in *.
    assert (Hlt : (Z.to_nat idx < length items)%nat) by lia.
    destruct (lookup_lt_is_Some_2 items (Z.to_nat idx) Hlt) as [a Ha].
    exists a. split; [ | split ].
    + unfold arrayGet.
      replace (idx <? 0) with false by (symmetry; apply Z.ltb_ge; exact Hi0).
      rewrite Ha. reflexivity.
    + exact Ha.
    + apply list_elem_of_In. eapply list_elem_of_lookup_2. exact Ha. }
  split; [ | split ].
  - split.
    + intros [e He]. destruct items as [ | a l ]; [ reflexivity | ].
      rewrite pickRandom_nonempty in He by discriminate.
      discriminate He.
    + intros ->. rewrite pickRandom_empty. eexists. reflexivity.
  - intros Hne Hunit.
    destruct (Hpick Hne Hunit) as [a [Hrun [_ Hin]]].
    exists a. split; [ exact Hrun | exact Hin ].
  - intros Hne n Hn Hv Hshort.
    assert (Hunit : (0 <= fst (rand s) /\ fst (rand s) < 1)%Q).
    { rewrite Hv. split.
      - apply Qle_shift_div_l; [ reflexivity | ].
        rewrite Qmult_0_l. change 0%Q with (inject_Z 0). rewrite <- Zle_Qle. lia.
      - apply Qlt_shift_div_r; [ reflexivity | ].
        rewrite Qmult_1_l. change 4294967296%Q with (inject_Z 4294967296).
        rewrite <- Zlt_Qlt. lia. }
    destruct (Hpick Hne Hunit) as [a [Hrun [Hidx Hin]]].
    exists a. split; [ exact Hrun | ]. split; [ exact Hidx | ].
    split; [ | exact Hin ].
    apply floor_of_generator_value. exact Hv.
Qed.

End PickRandomFacts.

(** The generator of seed 42 draws 2581720956 / 4294967296 first. *)
Example mulberry32_seed_42 :
  Random.nextRaw (Random.createSeededRandom (Random.Finite (inject_Z 42)))
  = (2581720956, 1831565855)%Z.
Proof. vm_compute. reflexivity. Qed.

Lemma pickRandom_seed_42_witness :
  exists a : string,
    Random.pickRandom Random.next
      (Random.createSeededRandom (Random.Finite (inject_Z 42)))
      ["red"; "green"; "blue"]%string
    = (Ok (Some a),
       snd (Random.next (Random.createSeededRandom (Random.Finite (inject_Z 42)))))
    /\ ["red"; "green"; "blue"]%string
       !! Z.to_nat
            (Qfloor
               (fst (Random.next
                       (Random.createSeededRandom (Random.Finite (inject_Z 42))))
                * inject_Z (Z.of_nat (length ["red"; "green"; "blue"]%string))))
       = Some a
    /\ Qfloor
         (fst (Random.next
                 (Random.createSeededRandom (Random.Finite (inject_Z 42))))
          * inject_Z (Z.of_nat (length ["red"; "green"; "blue"]%string)))
       = (2581720956 * Z.of_nat (length ["red"; "green"; "blue"]%string)
          / 4294967296)%Z
    /\ In a ["red"; "green"; "blue"]%string.
Proof.
  apply (proj2 (proj2 (pickRandom_throws_iff_empty_else_picks_member Random.next
                         (Random.createSeededRandom (Random.Finite (inject_Z 42)))
                         ["red"; "green"; "blue"]%string))).
  - discriminate.
  - lia.
  - vm_compute. reflexivity.
  - cbn. lia.
Defined.

(** * Properties of the ring station-keeper *)

Section RosetteFacts.

Import Rosette RosetteSpec.
Local Open Scope R_scope.

(** ** Arithmetic of the guards *)

Lemma fdiv_ok (a b : R) : b <> 0 -> fdiv a b = Ok (a / b).
Proof. intros Hb. unfold fdiv. destruct (Req_dec_T b 0); [ contradiction | reflexivity ]. Qed.

Lemma fdiv_zero (a : R) : fdiv a 0 = Throw DivisionByZero.
Proof. unfold fdiv. destruct (Req_dec_T 0 0); [ reflexivity | contradiction ]. Qed.

Lemma squares3_nonneg (a b c : R) : 0 <= a * a + b * b + c * c.
Proof. nra. Qed.

Lemma hypot3_nonneg (a b c : R) : 0 <= hypot3 a b c.
Proof. apply sqrt_pos. Qed.

Lemma hypot2_nonneg (a b : R) : 0 <= hypot2 a b.
Proof. apply sqrt_pos. Qed.

Lemma hypot3_zero (a b c : R) : hypot3 a b c = 0 -> a = 0 /\ b = 0 /\ c = 0.
Proof.
  intros H. apply sqrt_eq_0 in H; [ | apply squares3_nonneg ].
  repeat split; nra.
Qed.

Lemma hypot3_origin : hypot3 0 0 0 = 0.
Proof.
  unfold hypot3. replace (0 * 0 + 0 * 0 + 0 * 0) with 0 by ring. apply sqrt_0.
Qed.

Lemma hypot3_norm (v : Vector3) : hypot3 (x v) (y v) (z v) = norm v.
Proof. reflexivity. Qed.

Lemma orElse_nonzero (v d : R) : d <> 0 -> orElse v d <> 0.
Proof. intros Hd. unfold orElse. destruct (Req_dec_T v 0); assumption. Qed.

Lemma orElse_zero (d : R) : orElse 0 d = d.
Proof. unfold orElse. destruct (Req_dec_T 0 0); [ reflexivity | contradiction ]. Qed.

Lemma orElse_keep (v d : R) : v <> 0 -> orElse v d = v.
Proof. intros Hv. unfold orElse. destruct (Req_dec_T v 0); [ contradiction | reflexivity ]. Qed.

Lemma orElse_pos (v d : R) : 0 <= v -> 0 < d -> 0 < orElse v d.
Proof. intros Hv Hd. unfold orElse. destruct (Req_dec_T v 0); lra. Qed.

Lemma a_max_pos : 0 < a_max.
Proof. unfold a_max. lra. Qed.

(** ** The ring subset *)

Lemma covers_nil (state : list BodyState) : covers [] state.
Proof. constructor. Qed.

Lemma covers_cons (i : nat) (idx : list nat) (state : list BodyState) :
  covers (i :: idx) state <-> (i < length state)%nat /\ covers idx state.
Proof.
  unfold covers. split.
  - intros H. inversion H; subst. split; assumption.
  - intros [Hi Hc]. constructor; assumption.
Qed.

Lemma getBody_Some (state : list BodyState) (i : nat) (b : BodyState) :
  state !! i = Some b -> getBody state i = Ok b.
Proof. intros H. unfold getBody. rewrite H. reflexivity. Qed.

Lemma getBody_None (state : list BodyState) (i : nat) :
  (length state <= i)%nat -> getBody state i = Throw TypeError.
Proof.
  intros H. unfold getBody. rewrite (proj2 (lookup_ge_None state i) H). reflexivity.
Qed.

Lemma ringMembers_cons (i : nat) (idx : list nat) (state : list BodyState)
  (b : BodyState) :
  state !! i = Some b ->
  ringMembers (i :: idx) state = b :: ringMembers idx state.
Proof. intros H. unfold ringMembers. cbn [omap list_omap]. rewrite H. reflexivity. Qed.

Lemma covers_members (idx : list nat) (state : list BodyState) :
  covers idx state ->
  Forall2 (fun i b => state !! i = Some b) idx (ringMembers idx state).
Proof.
  induction idx as [ | i idx IH ]; intros Hc.
  - constructor.
  - apply covers_cons in Hc as [Hi Hc].
    destruct (lookup_lt_is_Some_2 state i Hi) as [b Hb].
    rewrite (ringMembers_cons _ _ _ _ Hb).
    constructor; [ exact Hb | exact (IH Hc) ].
Qed.

Lemma members_nonempty (idx : list nat) (state : list BodyState) :
  covers idx state -> idx <> [] -> ringMembers idx state <> [].
Proof.
  intros Hc Hne. pose proof (covers_members idx state Hc) as HF.
  destruct HF; [ congruence | discriminate ].
Qed.

Lemma totalMass_pos (members : list BodyState) :
  members <> [] -> Forall (fun b => 0 < mass b) members -> 0 < totalMass members.
Proof.
  intros Hne HF. unfold totalMass.
  induction HF as [ | b l Hb HF IH ]; [ congruence | ].
  cbn [sumOver fold_right].
  destruct l as [ | b' l' ].
  - cbn. lra.
  - assert (0 < sumOver mass (b' :: l')) by (apply IH; discriminate).
    unfold sumOver in *. lra.
Qed.

(** ** The loops over the ring indices *)

Ltac tuple_eq := apply (f_equal Ok); repeat (apply pair_equal_spec; split).

Lemma rStar_fold (state : list BodyState) (idx : list nat)
  (members : list BodyState) (m0 s0 : R) :
  Forall2 (fun i b => state !! i = Some b) idx members ->
  forOf (rStarStep state) idx (m0, s0)
  = Ok (m0 + totalMass members,
        s0 + sumOver (fun b => mass b * norm (position b)) members).
Proof.
  intros HF. revert m0 s0.
  induction HF as [ | i b idx members Hb HF IH ]; intros m0 s0.
  - cbn. tuple_eq; ring.
  - cbn [forOf]. unfold rStarStep at 1.
    rewrite (getBody_Some _ _ _ Hb). cbn [bindR].
    rewrite IH. unfold totalMass. cbn [sumOver fold_right].
    tuple_eq; rewrite ?hypot3_norm; unfold sumOver; ring.
Qed.

Lemma axisDistance_nonzero (b : BodyState) : axisDistance b <> 0.
Proof. unfold axisDistance. apply orElse_nonzero. lra. Qed.

Lemma omegaStar_fold (state : list BodyState) (idx : list nat)
  (members : list BodyState) (m0 s0 : R) :
  Forall2 (fun i b => state !! i = Some b) idx members ->
  forOf (omegaStarStep state) idx (m0, s0)
  = Ok (m0 + totalMass members,
        s0 + sumOver (fun b => mass b * (tangentialVelocity b / axisDistance b))
               members).
Proof.
  intros HF. revert m0 s0.
  induction HF as [ | i b idx members Hb HF IH ]; intros m0 s0.
  - cbn. tuple_eq; ring.
  - cbn [forOf]. unfold omegaStarStep at 1.
    rewrite (getBody_Some _ _ _ Hb). cbn [bindR].
    rewrite (fdiv_ok _ _ (axisDistance_nonzero b)). cbn [bindR].
    rewrite IH. unfold totalMass. cbn [sumOver fold_right].
    tuple_eq; unfold sumOver, tangentialVelocity, azimuth, axisDistance; ring.
Qed.

Lemma centroid_fold (state : list BodyState) (idx : list nat)
  (members : list BodyState) (m0 px py pz qx qy qz : R) :
  Forall2 (fun i b => state !! i = Some b) idx members ->
  forOf (centroidStep state) idx (m0, px, py, pz, qx, qy, qz)
  = Ok (m0 + totalMass members,
        px + sumOver (fun b => mass b * x (position b)) members,
        py + sumOver (fun b => mass b * y (position b)) members,
        pz + sumOver (fun b => mass b * z (position b)) members,
        qx + sumOver (fun b => mass b * x (velocity b)) members,
        qy + sumOver (fun b => mass b * y (velocity b)) members,
        qz + sumOver (fun b => mass b * z (velocity b)) members).
Proof.
  intros HF. revert m0 px py pz qx qy qz.
  induction HF as [ | i b idx members Hb HF IH ]; intros m0 px py pz qx qy qz.
  - cbn. tuple_eq; ring.
  - cbn [forOf]. unfold centroidStep at 1.
    rewrite (getBody_Some _ _ _ Hb). cbn [bindR].
    rewrite IH. unfold totalMass. cbn [sumOver fold_right].
    tuple_eq; unfold sumOver; ring.
Qed.

Lemma momentum_fold (state : list BodyState) (idx : list nat)
  (members : list BodyState) (c cv : Vector3) (l0 l1 l2 : R) :
  Forall2 (fun i b => state !! i = Some b) idx members ->
  let l b := vscale (mass b) (cross (vsub (position b) c) (vsub (velocity b) cv)) in
  forOf (momentumStep state (x c) (y c) (z c) (x cv) (y cv) (z cv)) idx (l0, l1, l2)
  = Ok (l0 + sumOver (fun b => x (l b)) members,
        l1 + sumOver (fun b => y (l b)) members,
        l2 + sumOver (fun b => z (l b)) members).
Proof.
  intros HF l. revert l0 l1 l2.
  induction HF as [ | i b idx members Hb HF IH ]; intros l0 l1 l2.
  - cbn. tuple_eq; ring.
  - cbn [forOf]. unfold momentumStep at 1.
    rewrite (getBody_Some _ _ _ Hb). cbn [bindR].
    rewrite IH. cbn [sumOver fold_right].
    tuple_eq; unfold sumOver, l; cbn; ring.
Qed.

(** A loop that reads [state[i]] first throws on the first index the
    snapshot does not hold. *)
Lemma forOf_uncovered {B : Type} (step : B -> nat -> Result B)
  (state : list BodyState) (idx : list nat) (acc : B) :
  (forall a i, (length state <= i)%nat -> step a i = Throw TypeError) ->
  (forall a i, (i < length state)%nat -> exists a', step a i = Ok a') ->
  ~ covers idx state ->
  forOf step idx acc = Throw TypeError.
Proof.
  intros Hout Hin. revert acc.
  induction idx as [ | i idx IH ]; intros acc Hnc.
  - destruct Hnc. apply covers_nil.
  - cbn [forOf].
    destruct (le_lt_dec (length state) i) as [Hle | Hlt].
    + rewrite (Hout acc i Hle). reflexivity.
    + destruct (Hin acc i Hlt) as [a' Ha']. rewrite Ha'. cbn [bindR].
      apply IH. intros Hc. apply Hnc. apply covers_cons. split; assumption.
Qed.

Lemma centroid_uncovered (state : list BodyState) (idx : list nat)
  (acc : R * R * R * R * R * R * R) :
  ~ covers idx state -> forOf (centroidStep state) idx acc = Throw TypeError.
Proof.
  apply forOf_uncovered.
  - intros a i Hle. destruct a as [[[[[[? ?] ?] ?] ?] ?] ?].
    unfold centroidStep. rewrite (getBody_None _ _ Hle). reflexivity.
  - intros a i Hlt. destruct a as [[[[[[? ?] ?] ?] ?] ?] ?].
    destruct (lookup_lt_is_Some_2 state i Hlt) as [b Hb].
    unfold centroidStep. rewrite (getBody_Some _ _ _ Hb). cbn [bindR].
    eexists. reflexivity.
Qed.

(** ** The azimuth: what [atan2] contributes to the angular speed *)

Lemma sqrt_one_plus_slope (a b : R) :
  a <> 0 -> sqrt (1 + (b / a)²) = hypot2 a b / Rabs a.
Proof.
  intros Ha. unfold hypot2.
  assert (Hq : 1 + (b / a)² = (a * a + b * b) / (a * a))
    by (unfold Rsqr; field; exact Ha).
  rewrite Hq, sqrt_div_alt by nra.
  f_equal. apply sqrt_Rsqr_abs.
Qed.

Lemma hypot2_pos (a b : R) : a <> 0 \/ b <> 0 -> 0 < hypot2 a b.
Proof.
  intros H. unfold hypot2. apply sqrt_lt_R0. destruct H; nra.
Qed.

Lemma cos_sin_atan_slope (a b : R) :
  a <> 0 ->
  cos (atan (b / a)) = Rabs a / hypot2 a b
  /\ sin (atan (b / a)) = b / a * (Rabs a / hypot2 a b).
Proof.
  intros Ha.
  pose proof (hypot2_pos a b (or_introl Ha)) as Hh.
  pose proof (Rabs_pos_lt a Ha) as Habs.
  rewrite cos_atan, sin_atan, (sqrt_one_plus_slope a b Ha).
  split; field; repeat split; lra.
Qed.

(** Off the z axis, the cosine and sine of the azimuth are the planar
    coordinates over the planar distance. *)
Lemma cos_sin_atan2 (a b : R) :
  a <> 0 \/ b <> 0 ->
  cos (atan2 b a) = a / hypot2 a b /\ sin (atan2 b a) = b / hypot2 a b.
Proof.
  intros Hab. pose proof (hypot2_pos a b Hab) as Hh. unfold atan2.
  destruct (Rlt_dec 0 a) as [Hpos | Hnpos].
  - destruct (cos_sin_atan_slope a b) as [Hc Hs]; [ lra | ].
    rewrite Hc, Hs, Rabs_right by lra. split; field; lra.
  - destruct (Rlt_dec a 0) as [Hneg | Hnneg].
    + destruct (cos_sin_atan_slope a b) as [Hc Hs]; [ lra | ].
      rewrite Rabs_left in Hc, Hs by lra.
      destruct (Rle_dec 0 b).
      * rewrite neg_cos, neg_sin, Hc, Hs. split; field; lra.
      * rewrite cos_minus, sin_minus, cos_PI, sin_PI, Hc, Hs. split; field; lra.
    + assert (Ha : a = 0) by lra. subst a.
      assert (Hb : b <> 0) by (destruct Hab; [ lra | assumption ]).
      assert (Hh2 : hypot2 0 b = Rabs b).
      { unfold hypot2. replace (0 * 0 + b * b) with (b²) by (unfold Rsqr; ring).
        apply sqrt_Rsqr_abs. }
      rewrite Hh2.
      destruct (Rlt_dec 0 b) as [Hbp | Hbn].
      * rewrite cos_PI2, sin_PI2, Rabs_right by lra. split; field; lra.
      * destruct (Rlt_dec b 0) as [Hbn' | ]; [ | lra ].
        replace (- PI / 2) with (- (PI / 2)) by field.
        rewrite cos_neg, sin_neg, cos_PI2, sin_PI2, Rabs_left by lra.
        split; field; lra.
Qed.

(** Off the z axis the tangential velocity over the radial distance is
    the angular velocity about the z axis through the origin,
    [(x vy - y vx) / (x^2 + y^2)]. *)
Lemma angular_speed_about_origin (b : BodyState) :
  let px := x (position b) in
  let py := y (position b) in
  px <> 0 \/ py <> 0 ->
  axisDistance b = hypot2 px py
  /\ tangentialVelocity b
     = (px * y (velocity b) - py * x (velocity b)) / hypot2 px py
  /\ tangentialVelocity b / axisDistance b
     = (px * y (velocity b) - py * x (velocity b)) / (px * px + py * py).
Proof.
  intros px py Hoff.
  pose proof (hypot2_pos px py Hoff) as Hh.
  destruct (cos_sin_atan2 px py Hoff) as [Hc Hs].
  assert (Hr : axisDistance b = hypot2 px py)
    by (unfold axisDistance; apply orElse_keep; fold px py; lra).
  assert (Hv : tangentialVelocity b
               = (px * y (velocity b) - py * x (velocity b)) / hypot2 px py).
  { unfold tangentialVelocity, azimuth. fold px py. rewrite Hc, Hs. field. lra. }
  split; [ exact Hr | ]. split; [ exact Hv | ].
  rewrite Hv, Hr.
  assert (Hsq : hypot2 px py * hypot2 px py = px * px + py * py)
    by (unfold hypot2; apply sqrt_sqrt; nra).
  rewrite <- Hsq. field. lra.
Qed.

(** ** Construction: the ring indices and the two targets *)

Lemma petalIndices_spec (initialBodies : list BodyState) (i : nat) :
  In i (petalIndices initialBodies)
  <-> exists b, initialBodies !! i = Some b /\ isPetal b = true.
Proof.
  unfold petalIndices. rewrite in_map_iff. split.
  - intros [[b j] [Hj Hin]]. cbn [snd] in Hj. subst j.
    apply filter_In in Hin as [Hin Hp]. cbn [fst] in Hp.
    apply list_elem_of_In, list_elem_of_lookup in Hin as [j Hj].
    rewrite list_lookup_imap in Hj.
    destruct (initialBodies !! j) as [b' | ] eqn:Hb; [ | discriminate ].
    cbn in Hj. injection Hj as -> ->. exists b. split; assumption.
  - intros [b [Hb Hp]]. exists (b, i). split; [ reflexivity | ].
    apply filter_In. split; [ | exact Hp ].
    apply list_elem_of_In, list_elem_of_lookup. exists i.
    rewrite list_lookup_imap, Hb. reflexivity.
Qed.

Lemma petalIndices_covered (initialBodies state : list BodyState) :
  (length initialBodies <= length state)%nat ->
  covers (petalIndices initialBodies) state.
Proof.
  intros Hlen. unfold covers. apply List.Forall_forall. intros i Hi.
  apply petalIndices_spec in Hi as [b [Hb _]].
  apply lookup_lt_Some in Hb. lia.
Qed.

Lemma petalIndices_members_from (l pre : list BodyState) :
  omap (fun i => (pre ++ l) !! i)
       (map snd (List.filter (fun bi => isPetal (fst bi))
                   (imap (fun i b => (b, (length pre + i)%nat)) l)))
  = List.filter isPetal l.
Proof.
  revert pre. induction l as [ | b l IH ]; intros pre.
  - reflexivity.
  - rewrite imap_cons. cbn [List.filter fst].
    assert (Hshift : imap ((fun i b0 => (b0, (length pre + i)%nat)) ∘ S) l
                     = imap (fun i b0 => (b0, (length (pre ++ [b]) + i)%nat)) l).
    { apply imap_ext. intros i b0 _. cbn. rewrite length_app. cbn. f_equal. lia. }
    rewrite Hshift.
    specialize (IH (pre ++ [b])). rewrite <- app_assoc in IH. cbn [app] in IH.
    destruct (isPetal b) eqn:Hp.
    + cbn [map snd omap list_omap].
      replace ((pre ++ b :: l) !! (length pre + 0)%nat) with (Some b).
      * fold (@omap list _ _ _ (fun i => (pre ++ b :: l) !! i)).
        f_equal. exact IH.
      * symmetry. rewrite Nat.add_0_r. apply list_lookup_middle. reflexivity.
    + exact IH.
Qed.

(** The ring subset of the initial snapshot is its "Petal" bodies, in order. *)
Lemma petalIndices_members (initialBodies : list BodyState) :
  ringMembers (petalIndices initialBodies) initialBodies
  = List.filter isPetal initialBodies.
Proof. exact (petalIndices_members_from initialBodies []). Qed.

Lemma petalIndices_empty (initialBodies : list BodyState) :
  petalIndices initialBodies = [] <-> List.filter isPetal initialBodies = [].
Proof.
  rewrite <- petalIndices_members. split.
  - intros ->. reflexivity.
  - intros Hm. destruct (petalIndices initialBodies) as [ | i idx ] eqn:Hidx;
      [ reflexivity | ].
    exfalso. revert Hm. rewrite <- Hidx.
    apply members_nonempty; [ | rewrite Hidx; discriminate ].
    apply petalIndices_covered. lia.
Qed.

Lemma computeRStar_value (initialBodies : list BodyState) :
  let members := List.filter isPetal initialBodies in
  computeRStar initialBodies (petalIndices initialBodies)
  = Ok (if Rgt_dec (totalMass members) 0 then targetRadius members else 12).
Proof.
  intros members. unfold computeRStar.
  rewrite (rStar_fold initialBodies _ members).
  - cbn [bindR]. rewrite !Rplus_0_l.
    destruct (Rgt_dec (totalMass members) 0) as [Hm | Hm]; [ | reflexivity ].
    rewrite fdiv_ok by lra. reflexivity.
  - unfold members. rewrite <- petalIndices_members.
    apply covers_members, petalIndices_covered. lia.
Qed.

Lemma computeOmegaStar_value (initialBodies : list BodyState) :
  let members := List.filter isPetal initialBodies in
  computeOmegaStar initialBodies (petalIndices initialBodies)
  = Ok (if Rgt_dec (totalMass members) 0 then targetAngularSpeed members else 0).
Proof.
  intros members. unfold computeOmegaStar.
  rewrite (omegaStar_fold initialBodies _ members).
  - cbn [bindR]. rewrite !Rplus_0_l.
    destruct (Rgt_dec (totalMass members) 0) as [Hm | Hm]; [ | reflexivity ].
    rewrite fdiv_ok by lra. reflexivity.
  - unfold members. rewrite <- petalIndices_members.
    apply covers_members, petalIndices_covered. lia.
Qed.

(** The factory never throws; the closure holds the ring indices and the
    two targets, with the preset fallbacks when the ring has no mass. *)
Lemma makeRosetteController_value (initialBodies : list BodyState) :
  let members := List.filter isPetal initialBodies in
  makeRosetteController initialBodies
  = Ok (mkController (petalIndices initialBodies)
          (if Rgt_dec (totalMass members) 0 then targetRadius members else 12)
          (if Rgt_dec (totalMass members) 0 then targetAngularSpeed members else 0)).
Proof.
  intros members. unfold makeRosetteController.
  rewrite computeRStar_value. cbn [bindR].
  rewrite computeOmegaStar_value. cbn [bindR]. reflexivity.
Qed.

(** C3: with a non-empty ring subset whose members all have positive
    mass, the target radius fixed at construction is the mass-weighted
    mean of the members' distances from the origin, the distance being
    the 3-D Euclidean norm of the initial position. *)
Theorem rStar_is_mass_weighted_mean_radius :
  forall initialBodies : list BodyState,
    let members := List.filter isPetal initialBodies in
    members <> [] ->
    Forall (fun b => 0 < mass b) members ->
    exists c : Controller,
      makeRosetteController initialBodies = Ok c
      /\ rStar c
         = sumOver (fun b => mass b * norm (position b)) members
           / sumOver mass members.
Proof.
  intros initialBodies members Hne Hpos.
  pose proof (totalMass_pos members Hne Hpos) as Hm.
  eexists. split; [ apply makeRosetteController_value | ].
  cbn [rStar]. fold members.
  destruct (Rgt_dec (totalMass members) 0) as [ _ | Hn ]; [ reflexivity | lra ].
Qed.

Lemma rStar_sample_witness :
  exists c : Controller,
    makeRosetteController Samples.ring = Ok c
    /\ rStar c
       = sumOver (fun b => mass b * norm (position b))
           (List.filter isPetal Samples.ring)
         / sumOver mass (List.filter isPetal Samples.ring).
Proof.
  apply (rStar_is_mass_weighted_mean_radius Samples.ring).
  - cbn. discriminate.
  - cbn. repeat constructor; cbn; lra.
Defined.

Lemma sumOver_agree (f g : BodyState -> R) (members : list BodyState) :
  Forall (fun b => f b = g b) members -> sumOver f members = sumOver g members.
Proof.
  induction 1 as [ | b l Hb _ IH ]; [ reflexivity | ].
  unfold sumOver in *. cbn [fold_right]. rewrite Hb, IH. reflexivity.
Qed.

Lemma planarDistance_hypot2 (b : BodyState) :
  planarDistance b = hypot2 (x (position b)) (y (position b)).
Proof. reflexivity. Qed.

(** C4 (as the code has it): with a non-empty ring subset whose members
    all have positive mass and lie off the z axis, the target angular
    speed fixed at construction is the mass-weighted mean over the members
    of the velocity along increasing azimuth divided by the distance from
    the z axis (not from the origin); for each member that quotient is
    its angular velocity about the z axis,
    [(x vy - y vx) / (x^2 + y^2)]. *)
Theorem omegaStar_is_mass_weighted_mean_angular_speed :
  forall initialBodies : list BodyState,
    let members := List.filter isPetal initialBodies in
    members <> [] ->
    Forall (fun b => 0 < mass b) members ->
    Forall (fun b => x (position b) <> 0 \/ y (position b) <> 0) members ->
    exists c : Controller,
      makeRosetteController initialBodies = Ok c
      /\ omegaStar c
         = sumOver (fun b => mass b * (azimuthalVelocity b / planarDistance b))
             members
           / sumOver mass members
      /\ Forall (fun b => 0 < planarDistance b
                          /\ azimuthalVelocity b / planarDistance b
                             = angularVelocityAboutZ b) members.
Proof.
  intros initialBodies members Hne Hpos Hoff.
  pose proof (totalMass_pos members Hne Hpos) as Hm.
  eexists. split; [ apply makeRosetteController_value | ].
  cbn [omegaStar]. fold members.
  destruct (Rgt_dec (totalMass members) 0) as [ _ | Hn ]; [ | lra ].
  split.
  - unfold targetAngularSpeed, weightedMean. f_equal.
    apply sumOver_agree.
    eapply List.Forall_impl; [ | exact Hoff ].
    intros b Hb. cbv beta.
    destruct (angular_speed_about_origin b Hb) as [Hr [Hv _]].
    unfold azimuthalVelocity. rewrite planarDistance_hypot2, Hv, Hr. reflexivity.
  - eapply List.Forall_impl; [ | exact Hoff ].
    intros b Hb. cbv beta.
    destruct (angular_speed_about_origin b Hb) as [Hr [Hv Hw]].
    split.
    + rewrite planarDistance_hypot2. apply hypot2_pos. exact Hb.
    + unfold azimuthalVelocity, angularVelocityAboutZ.
      rewrite planarDistance_hypot2. rewrite <- Hw, Hv, Hr. reflexivity.
Qed.

Lemma omegaStar_sample_witness :
  exists c : Controller,
    makeRosetteController Samples.ring = Ok c
    /\ omegaStar c
       = sumOver (fun b => mass b * (azimuthalVelocity b / planarDistance b))
           (List.filter isPetal Samples.ring)
         / sumOver mass (List.filter isPetal Samples.ring).
Proof.
  destruct (omegaStar_is_mass_weighted_mean_angular_speed Samples.ring)
    as [c [Hc [Hw _]]].
  - cbn. discriminate.
  - cbn. repeat constructor; cbn; lra.
  - cbn. repeat constructor; cbn; lra.
  - exists c. split; [ exact Hc | exact Hw ].
Defined.

(** ** One evaluation of the law *)

Lemma ringRadius_nonzero (f : Frame) (b : BodyState) : ringRadius f b <> 0.
Proof. unfold ringRadius. apply orElse_nonzero. lra. Qed.

(** The code's pre-cap correction is the specification's. *)
Lemma unclamped_value (c : Controller) (f : Frame) (b : BodyState) :
  unclamped c f b = Ok (pdCorrection c f b).
Proof.
  unfold unclamped.
  change (orElse (hypot3 (x (position b) - cx f) (y (position b) - cy f)
                    (z (position b) - cz f)) 1e-9)
    with (ringRadius f b).
  rewrite !(fdiv_ok _ _ (ringRadius_nonzero f b)). cbn [bindR].
  set (t0 := cross (mkVector3 (nx f) (ny f) (nz f)) (r_hat f b)).
  change (orElse (hypot3 _ _ _) 1e-9) with (orElse (norm t0) 1e-9).
  assert (Ht : orElse (norm t0) 1e-9 <> 0) by (apply orElse_nonzero; lra).
  rewrite !(fdiv_ok _ _ Ht). cbn [bindR].
  apply (f_equal Ok).
  unfold pdCorrection, a_r, a_t, v_r, v_t, t_hat. fold t0.
  unfold vsub, vadd, vscale, vdiv, dot, r_hat, relVelocity, relPosition.
  cbn [x y z]. f_equal; unfold t0, cross, r_hat, vdiv, relPosition, vsub;
    cbn [x y z]; ring.
Qed.

Lemma clamp_value (a : Vector3) : clamp a = Ok (capped a).
Proof.
  unfold clamp, capped. rewrite hypot3_norm.
  destruct (Rgt_dec (norm a) a_max) as [Hgt | Hle]; [ | reflexivity ].
  pose proof a_max_pos.
  rewrite fdiv_ok by lra. cbn [bindR].
  apply (f_equal Ok). unfold vscale. f_equal; ring.
Qed.

Lemma norm_nonneg (v : Vector3) : 0 <= norm v.
Proof. apply sqrt_pos. Qed.

Lemma norm_zero3 : norm zero3 = 0.
Proof. exact hypot3_origin. Qed.

Lemma norm_vscale (k : R) (v : Vector3) : 0 <= k -> norm (vscale k v) = k * norm v.
Proof.
  intros Hk. unfold norm, vscale. cbn [x y z].
  replace (k * x v * (k * x v) + k * y v * (k * y v) + k * z v * (k * z v))
    with (k * k * (x v * x v + y v * y v + z v * z v)) by ring.
  rewrite sqrt_mult; [ | nra | apply squares3_nonneg ].
  rewrite sqrt_square by exact Hk. reflexivity.
Qed.

(** A vector over the cap comes back with magnitude exactly the cap. *)
Lemma norm_capped_over (a : Vector3) :
  norm a > a_max -> norm (capped a) = a_max.
Proof.
  intros Hgt. unfold capped.
  destruct (Rgt_dec (norm a) a_max) as [ _ | Hn ]; [ | contradiction ].
  pose proof a_max_pos as Hp.
  rewrite norm_vscale.
  - field. lra.
  - apply Rlt_le, Rdiv_lt_0_compat; lra.
Qed.


Lemma norm_capped (a : Vector3) : norm (capped a) <= a_max.
Proof.
  destruct (Rgt_dec (norm a) a_max) as [Hgt | Hle].
  - rewrite (norm_capped_over a Hgt). lra.
  - unfold capped. destruct (Rgt_dec (norm a) a_max); [ contradiction | lra ].
Qed.

Lemma setAcc_value (acc : list Vector3) (i : nat) (a : Vector3) :
  (i < length acc)%nat -> setAcc acc i a = Ok (<[i := a]> acc).
Proof.
  intros Hi. unfold setAcc.
  destruct (lookup_lt_is_Some_2 acc i Hi) as [a0 Ha0]. rewrite Ha0. reflexivity.
Qed.

Lemma petalStep_value (c : Controller) (f : Frame) (state : list BodyState)
  (acc : list Vector3) (i : nat) (b : BodyState) :
  state !! i = Some b -> length acc = length state ->
  petalStep c f state acc i = Ok (<[i := capped (pdCorrection c f b)]> acc).
Proof.
  intros Hb Hlen. unfold petalStep.
  rewrite (getBody_Some _ _ _ Hb). cbn [bindR].
  rewrite unclamped_value. cbn [bindR].
  rewrite clamp_value. cbn [bindR].
  apply setAcc_value. rewrite Hlen. eapply lookup_lt_Some. exact Hb.
Qed.

(** The last loop writes the capped correction of each ring member at the
    member's own index and nothing else. *)
Lemma petal_fold (c : Controller) (f : Frame) (state : list BodyState)
  (idx : list nat) (acc : list Vector3) :
  covers idx state -> length acc = length state ->
  exists acc' : list Vector3,
    forOf (petalStep c f state) idx acc = Ok acc'
    /\ length acc' = length state
    /\ (forall i, ~ In i idx -> acc' !! i = acc !! i)
    /\ (forall i, In i idx ->
          exists b, state !! i = Some b
                    /\ acc' !! i = Some (capped (pdCorrection c f b))).
Proof.
  revert acc. induction idx as [ | i idx IH ]; intros acc Hc Hlen.
  - exists acc. cbn [forOf].
    split; [ reflexivity | ]. split; [ exact Hlen | ]. split.
    + intros i _. reflexivity.
    + intros i Hi. destruct Hi.
  - apply covers_cons in Hc as [Hi Hc].
    destruct (lookup_lt_is_Some_2 state i Hi) as [b Hb].
    cbn [forOf]. rewrite (petalStep_value c f state acc i b Hb Hlen). cbn [bindR].
    destruct (IH (<[i := capped (pdCorrection c f b)]> acc) Hc) as
      [acc' [Hrun [Hlen' [Hout Hin]]]].
    { rewrite length_insert. exact Hlen. }
    exists acc'. split; [ exact Hrun | ]. split; [ exact Hlen' | ]. split.
    + intros j Hj. rewrite Hout by (intros Hj'; apply Hj; right; exact Hj').
      apply list_lookup_insert_ne. intros ->. apply Hj. left. reflexivity.
    + intros j Hj.
      destruct (in_dec Nat.eq_dec j idx) as [Hjin | Hjout];
        [ exact (Hin j Hjin) | ].
      destruct Hj as [-> | Hj]; [ | contradiction ].
      exists b. split; [ exact Hb | ].
      rewrite (Hout j Hjout). apply list_lookup_insert_eq. lia.
Qed.

Lemma law_no_ring (c : Controller) (state : list BodyState) (t : R) :
  petalIdx c = [] -> law c state t = Ok (replicate (length state) zero3).
Proof. intros H. unfold law. rewrite H. reflexivity. Qed.

Lemma length_eqb_nonempty {A : Type} (l : list A) :
  l <> [] -> Nat.eqb (length l) 0 = false.
Proof. destruct l; [ congruence | reflexivity ]. Qed.

(** A snapshot that misses a ring index makes the first loop throw. *)
Lemma law_uncovered (c : Controller) (state : list BodyState) (t : R) :
  ~ covers (petalIdx c) state -> law c state t = Throw TypeError.
Proof.
  intros Hnc. unfold law.
  rewrite length_eqb_nonempty
    by (intros H; apply Hnc; rewrite H; apply covers_nil).
  rewrite (centroid_uncovered _ _ _ Hnc). reflexivity.
Qed.

Lemma law_massless (c : Controller) (state : list BodyState) (t : R) :
  covers (petalIdx c) state ->
  totalMass (ringMembers (petalIdx c) state) <= 0 ->
  law c state t = Ok (replicate (length state) zero3).
Proof.
  intros Hc Hm. unfold law.
  destruct (Nat.eqb (length (petalIdx c)) 0); [ reflexivity | ].
  rewrite (centroid_fold state _ _ _ _ _ _ _ _ _ (covers_members _ _ Hc)).
  cbn [bindR]. rewrite !Rplus_0_l.
  destruct (Rle_dec (totalMass (ringMembers (petalIdx c) state)) 0);
    [ reflexivity | contradiction ].
Qed.

Lemma law_covered (c : Controller) (state : list BodyState) (t : R) :
  covers (petalIdx c) state ->
  petalIdx c <> [] ->
  0 < totalMass (ringMembers (petalIdx c) state) ->
  law c state t
  = forOf (petalStep c (frameOf (ringMembers (petalIdx c) state)) state)
      (petalIdx c) (replicate (length state) zero3).
Proof.
  intros Hc Hne Hm. unfold law.
  rewrite (length_eqb_nonempty _ Hne).
  pose proof (covers_members _ _ Hc) as HF.
  set (members := ringMembers (petalIdx c) state) in *.
  rewrite (centroid_fold state _ _ _ _ _ _ _ _ _ HF).
  cbn [bindR]. rewrite !Rplus_0_l.
  destruct (Rle_dec (totalMass members) 0) as [Hle | _ ]; [ lra | ].
  assert (Hnz : totalMass members <> 0) by lra.
  rewrite !(fdiv_ok _ _ Hnz). cbn [bindR].
  change (sumOver (fun b => mass b * x (position b)) members / totalMass members)
    with (x (centroid members)).
  change (sumOver (fun b => mass b * y (position b)) members / totalMass members)
    with (y (centroid members)).
  change (sumOver (fun b => mass b * z (position b)) members / totalMass members)
    with (z (centroid members)).
  change (sumOver (fun b => mass b * x (velocity b)) members / totalMass members)
    with (x (centroidVelocity members)).
  change (sumOver (fun b => mass b * y (velocity b)) members / totalMass members)
    with (y (centroidVelocity members)).
  change (sumOver (fun b => mass b * z (velocity b)) members / totalMass members)
    with (z (centroidVelocity members)).
  rewrite (momentum_fold state _ _ (centroid members) (centroidVelocity members)
             0 0 0 HF).
  cbn [bindR]. rewrite !Rplus_0_l.
  set (L := angularMomentum members).
  change (orElse (hypot3 _ _ _) 1) with (orElse (norm L) 1).
  assert (Hn : orElse (norm L) 1 <> 0) by (apply orElse_nonzero; lra).
  rewrite !(fdiv_ok _ _ Hn). cbn [bindR].
  reflexivity.
Qed.

Lemma totalMass_nil : totalMass [] = 0.
Proof. reflexivity. Qed.

Lemma stationKeeping_length (c : Controller) (state : list BodyState) :
  length (stationKeeping c state) = length state.
Proof.
  unfold stationKeeping.
  destruct (Rlt_dec 0 (totalMass (ringMembers (petalIdx c) state))).
  - apply length_imap.
  - apply length_replicate.
Qed.

Lemma stationKeeping_outside (c : Controller) (state : list BodyState) (i : nat) :
  (i < length state)%nat -> ~ In i (petalIdx c) ->
  stationKeeping c state !! i = Some zero3.
Proof.
  intros Hi Hout. unfold stationKeeping.
  destruct (Rlt_dec 0 (totalMass (ringMembers (petalIdx c) state))).
  - rewrite list_lookup_imap.
    destruct (lookup_lt_is_Some_2 state i Hi) as [b Hb]. rewrite Hb. cbn.
    destruct (in_dec Nat.eq_dec i (petalIdx c)); [ contradiction | reflexivity ].
  - apply lookup_replicate. split; [ reflexivity | exact Hi ].
Qed.

Lemma stationKeeping_member (c : Controller) (state : list BodyState) (i : nat)
  (b : BodyState) :
  0 < totalMass (ringMembers (petalIdx c) state) ->
  In i (petalIdx c) -> state !! i = Some b ->
  stationKeeping c state !! i
  = Some (capped (pdCorrection c (frameOf (ringMembers (petalIdx c) state)) b)).
Proof.
  intros Hm Hin Hb. unfold stationKeeping.
  destruct (Rlt_dec 0 (totalMass (ringMembers (petalIdx c) state)));
    [ | contradiction ].
  rewrite list_lookup_imap, Hb. cbn.
  destruct (in_dec Nat.eq_dec i (petalIdx c)); [ reflexivity | contradiction ].
Qed.

Lemma stationKeeping_massless (c : Controller) (state : list BodyState) :
  totalMass (ringMembers (petalIdx c) state) <= 0 ->
  stationKeeping c state = replicate (length state) zero3.
Proof.
  intros Hm. unfold stationKeeping.
  destruct (Rlt_dec 0 (totalMass (ringMembers (petalIdx c) state)));
    [ lra | reflexivity ].
Qed.

(** On a snapshot that holds every ring index the law returns, and what it
    returns is [stationKeeping]. *)
Lemma law_value (c : Controller) (state : list BodyState) (t : R) :
  covers (petalIdx c) state -> law c state t = Ok (stationKeeping c state).
Proof.
  intros Hc.
  destruct (Rlt_dec 0 (totalMass (ringMembers (petalIdx c) state))) as [Hm | Hm].
  - assert (Hne : petalIdx c <> []).
    { intros H. rewrite H in Hm. cbn in Hm. lra. }
    rewrite (law_covered c state t Hc Hne Hm).
    destruct (petal_fold c (frameOf (ringMembers (petalIdx c) state)) state
                (petalIdx c) (replicate (length state) zero3) Hc)
      as [acc [Hrun [Hlen [Hout Hin]]]].
    { apply length_replicate. }
    rewrite Hrun. apply (f_equal Ok).
    apply list_eq. intros i.
    destruct (le_lt_dec (length state) i) as [Hge | Hlt].
    + rewrite (proj2 (lookup_ge_None acc i)) by lia.
      rewrite (proj2 (lookup_ge_None (stationKeeping c state) i))
        by (rewrite stationKeeping_length; lia).
      reflexivity.
    + destruct (in_dec Nat.eq_dec i (petalIdx c)) as [Hi | Hi].
      * destruct (Hin i Hi) as [b [Hb Hacc]].
        rewrite Hacc. symmetry. apply stationKeeping_member; assumption.
      * rewrite (Hout i Hi), (stationKeeping_outside c state i Hlt Hi).
        apply lookup_replicate. split; [ reflexivity | exact Hlt ].
  - rewrite stationKeeping_massless by lra.
    apply law_massless; [ exact Hc | lra ].
Qed.

Lemma covers_dec (idx : list nat) (state : list BodyState) :
  {covers idx state} + {~ covers idx state}.
Proof.
  unfold covers. apply List.Forall_dec. intros i. apply lt_dec.
Qed.

(** The law returns exactly on the snapshots that hold every ring index. *)
Lemma law_returns_iff (c : Controller) (state : list BodyState) (t : R) :
  (exists acc, law c state t = Ok acc) <-> covers (petalIdx c) state.
Proof.
  split.
  - intros [acc Hacc]. destruct (covers_dec (petalIdx c) state) as [Hc | Hnc];
      [ exact Hc | ].
    rewrite (law_uncovered c state t Hnc) in Hacc. discriminate.
  - intros Hc. eexists. apply law_value, Hc.
Qed.

Lemma law_returned (c : Controller) (state : list BodyState) (t : R)
  (acc : list Vector3) :
  law c state t = Ok acc ->
  covers (petalIdx c) state /\ acc = stationKeeping c state.
Proof.
  intros Hacc.
  assert (Hc : covers (petalIdx c) state)
    by (apply (law_returns_iff c state t); eexists; exact Hacc).
  split; [ exact Hc | ].
  rewrite (law_value c state t Hc) in Hacc. congruence.
Qed.

(** ** The claims about the returned law *)

(** C1: the law built by [makeRosetteController] returns the correction
    (0,0,0) for every body outside its target subset, the bodies whose
    name does not start with "Petal": on every state that carries the
    initial names it returns, with zero at each such body; whatever it
    returns on any state at all is zero at every index that was not a
    "Petal" of the initial snapshot; and with an empty target subset every
    correction is zero.  The factory always returns a law. *)
Theorem law_zero_outside_target_subset :
  forall (initialBodies state : list BodyState) (t : R),
    exists c : Controller,
      makeRosetteController initialBodies = Ok c
      /\ (Forall2 (fun b0 b => name b = name b0) initialBodies state ->
          exists acc : list Vector3,
            law c state t = Ok acc
            /\ forall (i : nat) (b : BodyState),
                 state !! i = Some b -> isPetal b = false ->
                 acc !! i = Some (mkVector3 0 0 0))
      /\ (forall acc : list Vector3,
            law c state t = Ok acc ->
            forall i : nat,
              (i < length state)%nat ->
              ~ (exists b0, initialBodies !! i = Some b0 /\ isPetal b0 = true) ->
              acc !! i = Some (mkVector3 0 0 0))
      /\ (List.filter isPetal initialBodies = [] ->
          law c state t = Ok (replicate (length state) (mkVector3 0 0 0)))
      /\ ((length initialBodies <= length state)%nat ->
          exists acc : list Vector3, law c state t = Ok acc).
Proof.
  intros initialBodies state t.
  eexists. split; [ apply makeRosetteController_value | ].
  set (c := mkController _ _ _).
  assert (Hret : (length initialBodies <= length state)%nat ->
                 law c state t = Ok (stationKeeping c state)).
  { intros Hlen. apply law_value. apply petalIndices_covered, Hlen. }
  split; [ | split; [ | split ] ].
  - intros Hnames. exists (stationKeeping c state). split.
    + apply Hret. rewrite (Forall2_length _ _ _ Hnames). lia.
    + intros i b Hb Hp.
      apply stationKeeping_outside; [ eapply lookup_lt_Some; exact Hb | ].
      intros Hin. apply petalIndices_spec in Hin as [b0 [Hb0 Hp0]].
      pose proof (Forall2_lookup_lr _ _ _ _ _ _ Hnames Hb0 Hb) as Hn.
      unfold isPetal in *. rewrite Hn, Hp0 in Hp. discriminate.
  - intros acc Hacc i Hi Hout.
    apply law_returned in Hacc as [_ ->].
    apply stationKeeping_outside; [ exact Hi | ].
    intros Hin. apply Hout, petalIndices_spec, Hin.
  - intros Hnone. apply law_no_ring.
    apply petalIndices_empty, Hnone.
  - intros Hlen. eexists. apply Hret, Hlen.
Qed.

Lemma law_zero_at_star_witness :
  exists (c : Controller) (acc : list Vector3),
    makeRosetteController Samples.ring = Ok c
    /\ law c Samples.ringLater 5 = Ok acc
    /\ acc !! 0%nat = Some (mkVector3 0 0 0).
Proof.
  destruct (law_zero_outside_target_subset Samples.ring Samples.ringLater 5)
    as [c [Hc [Hzero _]]].
  destruct Hzero as [acc [Hacc Hz]].
  - unfold Samples.ring, Samples.ringLater. repeat constructor.
  - exists c, acc. split; [ exact Hc | ]. split; [ exact Hacc | ].
    apply (Hz 0%nat Samples.sun); reflexivity.
Defined.

Lemma stationKeeping_within_cap (c : Controller) (state : list BodyState) :
  Forall (fun a => norm a <= a_max) (stationKeeping c state).
Proof.
  apply List.Forall_forall. intros a Ha.
  apply list_elem_of_In, list_elem_of_lookup in Ha as [i Hi].
  assert (Hlt : (i < length state)%nat)
    by (rewrite <- (stationKeeping_length c state); eapply lookup_lt_Some; exact Hi).
  pose proof a_max_pos as Hp.
  destruct (Rlt_dec 0 (totalMass (ringMembers (petalIdx c) state))) as [Hm | Hm];
    [ destruct (in_dec Nat.eq_dec i (petalIdx c)) as [Hin | Hout] | ].
  - destruct (lookup_lt_is_Some_2 state i Hlt) as [b Hb].
    rewrite (stationKeeping_member c state i b Hm Hin Hb) in Hi.
    injection Hi as <-. apply norm_capped.
  - rewrite (stationKeeping_outside c state i Hlt Hout) in Hi.
    injection Hi as <-. rewrite norm_zero3. lra.
  - rewrite stationKeeping_massless in Hi by lra.
    apply lookup_replicate in Hi as [-> _].
    rewrite norm_zero3. lra.
Qed.




Lemma vdiv_vscale (v : Vector3) (k : R) : vdiv v k = vscale (/ k) v.
Proof. unfold vdiv, vscale, Rdiv. f_equal; apply Rmult_comm. Qed.

Lemma norm_unit (v : Vector3) (d : R) :
  norm v <> 0 -> norm (vdiv v (orElse (norm v) d)) = 1.
Proof.
  intros Hv. rewrite (orElse_keep _ d Hv), vdiv_vscale.
  pose proof (norm_nonneg v) as Hn.
  rewrite norm_vscale.
  - field. exact Hv.
  - apply Rlt_le, Rinv_0_lt_compat. lra.
Qed.

(** C5: before the cap, the Cartesian correction of a ring member is
    [a_r * r_hat + a_t * t_hat - k_c * v]: [v] the member's velocity
    relative to the centroid, [a_r = k_r * (r* - r) - k_dr * v_r] and
    [a_t = k_t * (omega* * r - v_t) - k_dt * v_t] the radial and tangential
    proportional-derivative terms, [r_hat] the centroid-relative position
    over its length [r], [t_hat] the normalized cross product of the plane
    normal with [r_hat], [v_r] and [v_t] the components of [v] along them.
    The law stores this vector, capped, at the member's index. *)
Theorem unclamped_is_pd_plus_drag :
  forall (c : Controller) (f : Frame) (b : BodyState),
    let v := vsub (velocity b) (mkVector3 (cvx f) (cvy f) (cvz f)) in
    let p := vsub (position b) (mkVector3 (cx f) (cy f) (cz f)) in
    let r := orElse (norm p) 1e-9 in
    let rhat := vdiv p r in
    let t0 := cross (mkVector3 (nx f) (ny f) (nz f)) rhat in
    let that := vdiv t0 (orElse (norm t0) 1e-9) in
    let vr := dot v rhat in
    let vt := dot v that in
    let ar := k_r * (rStar c - r) - k_dr * vr in
    let at' := k_t * (omegaStar c * r - vt) - k_dt * vt in
    unclamped c f b
    = Ok (vsub (vadd (vscale ar rhat) (vscale at' that)) (vscale k_c v))
    /\ (norm p <> 0 -> norm rhat = 1)
    /\ (norm t0 <> 0 -> norm that = 1)
    /\ (forall (state : list BodyState) (t : R) (i : nat),
          let members := ringMembers (petalIdx c) state in
          covers (petalIdx c) state ->
          0 < totalMass members ->
          In i (petalIdx c) ->
          state !! i = Some b ->
          f = frameOf members ->
          v = vsub (velocity b) (centroidVelocity members)
          /\ p = vsub (position b) (centroid members)
          /\ exists (acc : list Vector3) (u : Vector3),
               law c state t = Ok acc
               /\ unclamped c f b = Ok u
               /\ clamp u = Ok (capped u)
               /\ acc !! i = Some (capped u)).
Proof.
  intros c f b v p r rhat t0 that vr vt ar at'.
  split; [ exact (unclamped_value c f b) | ].
  split; [ intros Hp; exact (norm_unit p 1e-9 Hp) | ].
  split; [ intros Ht; exact (norm_unit t0 1e-9 Ht) | ].
  intros state t i members Hc Hm Hin Hb Hf.
  split; [ subst f; reflexivity | ].
  split; [ subst f; reflexivity | ].
  exists (stationKeeping c state), (pdCorrection c f b).
  split; [ apply law_value, Hc | ].
  split; [ apply unclamped_value | ].
  split; [ apply clamp_value | ].
  subst f. apply stationKeeping_member; assumption.
Qed.



Lemma unclamped_is_pd_plus_drag_witness :
  let c := mkController [1%nat; 2%nat] 5 0.2 in
  let members := ringMembers (petalIdx c) Samples.ringLater in
  exists (acc : list Vector3) (u : Vector3),
    law c Samples.ringLater 0 = Ok acc
    /\ unclamped c (frameOf members) Samples.petal1Later = Ok u
    /\ clamp u = Ok (capped u)
    /\ acc !! 1%nat = Some (capped u).
Proof.
  intros c members.
  destruct (unclamped_is_pd_plus_drag c (frameOf members) Samples.petal1Later)
    as [_ [_ [_ H]]].
  destruct (H Samples.ringLater 0 1%nat) as [_ [_ Hex]].
  - unfold covers. cbn. repeat constructor.
  - cbn. lra.
  - cbn. auto.
  - reflexivity.
  - reflexivity.
  - exact Hex.
Defined.

(** The generator of [createSeededRandom] is a closure with state: every
    call changes the captured [s]. *)
Lemma seeded_generator_is_stateful (s : Random.SeededRandom) :
  (- Random.two31 <= s < Random.two32)%Z -> snd (Random.next s) <> s.
Proof.
  intros Hs Heq. rewrite next_snd, nextRaw_state in Heq.
  unfold Random.ToInt32, Random.two31, Random.two32 in *.
  pose proof (Z.div_mod (s + 1831565813 + 2147483648) 4294967296) as Hd.
  lia.
Qed.

(** C8 (as the code has it): on every state that holds a body at each ring
    index fixed at construction, in particular on every state at least as
    long as the initial snapshot, the law returns exactly one correction
    per body of the state, the correction of body [i] at index [i]; on a
    state that misses a ring index it throws a TypeError instead. *)
Theorem law_index_aligned_when_ring_present :
  forall (initialBodies state : list BodyState) (t : R),
    covers (petalIndices initialBodies) state ->
    exists (c : Controller) (acc : list Vector3),
      makeRosetteController initialBodies = Ok c
      /\ petalIdx c = petalIndices initialBodies
      /\ law c state t = Ok acc
      /\ length acc = length state
      /\ (let members := ringMembers (petalIdx c) state in
          forall (i : nat) (b : BodyState),
            state !! i = Some b ->
            acc !! i
            = Some (if Rlt_dec 0 (totalMass members) then
                      if in_dec Nat.eq_dec i (petalIdx c)
                      then capped (pdCorrection c (frameOf members) b)
                      else zero3
                    else zero3))
      /\ ((length initialBodies <= length state)%nat ->
          covers (petalIndices initialBodies) state)
      /\ (forall short : list BodyState,
            ~ covers (petalIndices initialBodies) short ->
            law c short t = Throw TypeError).
Proof.
  intros initialBodies state t Hc.
  pose proof (makeRosetteController_value initialBodies) as Hmk.
  cbv zeta in Hmk.
  set (c := mkController _ _ _) in Hmk.
  exists c, (stationKeeping c state).
  split; [ exact Hmk | ]. split; [ reflexivity | ].
  split; [ exact (law_value c state t Hc) | ].
  split; [ apply stationKeeping_length | ].
  split; [ | split ].
  - intros members i b Hb. unfold stationKeeping. fold members.
    destruct (Rlt_dec 0 (totalMass members)).
    + rewrite list_lookup_imap, Hb. reflexivity.
    + apply lookup_replicate. split; [ reflexivity | ].
      eapply lookup_lt_Some. exact Hb.
  - apply petalIndices_covered.
  - intros short Hnc. apply law_uncovered. exact Hnc.
Qed.

Lemma law_index_aligned_witness :
  exists (c : Controller) (acc : list Vector3),
    makeRosetteController Samples.ring = Ok c
    /\ law c Samples.ringLater 7 = Ok acc
    /\ length acc = 3%nat.
Proof.
  destruct (law_index_aligned_when_ring_present Samples.ring Samples.ringLater 7)
    as [c [acc [Hc [_ [Hacc [Hlen _]]]]]].
  - unfold covers. cbn. repeat constructor.
  - exists c, acc. split; [ exact Hc | ]. split; [ exact Hacc | exact Hlen ].
Defined.

(** C8 as stated fails: built on a star and two petals, the law throws on
    a state of length 2, which has lost the body at ring index 2; it
    returns no correction sequence there, let alone one of length 2. *)
Lemma law_throws_on_short_state :
  exists c : Controller,
    makeRosetteController Samples.ring = Ok c
    /\ length Samples.ringShort = 2%nat
    /\ law c Samples.ringShort 0 = Throw TypeError
    /\ ~ (exists acc : list Vector3,
            law c Samples.ringShort 0 = Ok acc
            /\ length acc = length Samples.ringShort).
Proof.
  eexists. split; [ apply makeRosetteController_value | ].
  set (c := mkController _ _ _).
  assert (Hthrow : law c Samples.ringShort 0 = Throw TypeError).
  { apply law_uncovered. cbn [petalIdx c].
    change (petalIndices Samples.ring) with [1%nat; 2%nat].
    intros Hc. apply covers_cons in Hc as [_ Hc].
    apply covers_cons in Hc as [H2 _]. cbn in H2. lia. }
  split; [ reflexivity | ]. split; [ exact Hthrow | ].
  intros [acc [Hacc _]]. rewrite Hthrow in Hacc. discriminate.
Qed.

(** ** The sample ring, evaluated *)

Lemma sample_members : List.filter isPetal Samples.ring = [Samples.petal1; Samples.petal2].
Proof. reflexivity. Qed.

Lemma sample_indices : petalIndices Samples.ring = [1%nat; 2%nat].
Proof. reflexivity. Qed.

Lemma norm_value (v : Vector3) (k : R) :
  0 <= k -> x v * x v + y v * y v + z v * z v = k * k -> norm v = k.
Proof. intros Hk Hsq. unfold norm. rewrite Hsq. apply sqrt_square, Hk. Qed.

Lemma sample_totalMass : totalMass [Samples.petal1; Samples.petal2] = 3.
Proof. unfold totalMass, sumOver. cbn. lra. Qed.

Lemma sample_targetRadius : targetRadius [Samples.petal1; Samples.petal2] = 5.
Proof.
  unfold targetRadius, weightedMean. rewrite sample_totalMass.
  unfold sumOver. cbn [fold_right].
  rewrite (norm_value (position Samples.petal1) 5) by (cbn; lra).
  rewrite (norm_value (position Samples.petal2) 5) by (cbn; lra).
  cbn. lra.
Qed.

Lemma sample_targetAngularSpeed :
  targetAngularSpeed [Samples.petal1; Samples.petal2] = 1 / 3.
Proof.
  unfold targetAngularSpeed, weightedMean. rewrite sample_totalMass.
  unfold sumOver. cbn [fold_right].
  destruct (angular_speed_about_origin Samples.petal1) as [_ [_ H1]];
    [ left; cbn; lra | ].
  destruct (angular_speed_about_origin Samples.petal2) as [_ [_ H2]];
    [ left; cbn; lra | ].
  rewrite H1, H2. cbn. lra.
Qed.

(** On the sample ring the factory fixes the ring indices 1 and 2, the
    target radius 5 and the target angular speed 1/3. *)
Example makeRosetteController_sample :
  makeRosetteController Samples.ring = Ok (mkController [1%nat; 2%nat] 5 (1 / 3)).
Proof.
  rewrite makeRosetteController_value, sample_members, sample_indices.
  rewrite sample_totalMass, sample_targetRadius, sample_targetAngularSpeed.
  destruct (Rgt_dec 3 0) as [ _ | Hn ]; [ reflexivity | lra ].
Qed.

(** C4 as stated fails: off the xy-plane the distance from the origin is
    not the distance the code divides by.  On the sample ring (petals at
    distance 5 from the origin and 3 from the z axis, each moving at speed
    1 across its radius) the code fixes the angular speed 1/3, and no
    reading of the tangential velocity as a component of the velocity
    makes the mean of tangential velocity over distance from the origin
    come out as 1/3: that mean is at most 1/5 in magnitude. *)
Lemma omegaStar_is_not_over_distance_from_origin :
  exists c : Controller,
    makeRosetteController Samples.ring = Ok c
    /\ omegaStar c = 1 / 3
    /\ forall tangential : BodyState -> R,
         (forall b, Rabs (tangential b) <= norm (velocity b)) ->
         omegaStar c
         <> sumOver (fun b => mass b * (tangential b / norm (position b)))
              (List.filter isPetal Samples.ring)
            / sumOver mass (List.filter isPetal Samples.ring).
Proof.
  exists (mkController [1%nat; 2%nat] 5 (1 / 3)).
  split; [ exact makeRosetteController_sample | ].
  split; [ reflexivity | ].
  intros tangential Hb Heq. cbn [omegaStar] in Heq.
  rewrite sample_members in Heq. unfold sumOver in Heq. cbn [fold_right] in Heq.
  pose proof (Hb Samples.petal1) as H1. pose proof (Hb Samples.petal2) as H2.
  rewrite (norm_value (velocity Samples.petal1) 1) in H1 by (cbn; lra).
  rewrite (norm_value (velocity Samples.petal2) 1) in H2 by (cbn; lra).
  rewrite (norm_value (position Samples.petal1) 5) in Heq by (cbn; lra).
  rewrite (norm_value (position Samples.petal2) 5) in Heq by (cbn; lra).
  assert (B1 : -1 <= tangential Samples.petal1 <= 1)
    by (unfold Rabs in H1; destruct (Rcase_abs _); lra).
  assert (B2 : -1 <= tangential Samples.petal2 <= 1)
    by (unfold Rabs in H2; destruct (Rcase_abs _); lra).
  cbn [mass Samples.petal1 Samples.petal2] in Heq. lra.
Qed.

Lemma sample_ring_members :
  ringMembers [1%nat; 2%nat] Samples.ring = [Samples.petal1; Samples.petal2].
Proof. reflexivity. Qed.

Lemma sample_centroid :
  centroid [Samples.petal1; Samples.petal2] = mkVector3 1 0 4.
Proof.
  unfold centroid, weightedMeanVec, weightedMean. rewrite sample_totalMass.
  unfold sumOver. cbn. f_equal; lra.
Qed.

Lemma sample_centroidVelocity :
  centroidVelocity [Samples.petal1; Samples.petal2] = mkVector3 0 (1 / 3) 0.
Proof.
  unfold centroidVelocity, weightedMeanVec, weightedMean. rewrite sample_totalMass.
  unfold sumOver. cbn. f_equal; lra.
Qed.

Lemma sample_angularMomentum :
  angularMomentum [Samples.petal1; Samples.petal2] = mkVector3 0 0 8.
Proof.
  unfold angularMomentum. rewrite sample_centroid, sample_centroidVelocity.
  unfold sumOver, vscale, cross, vsub. cbn. f_equal; lra.
Qed.

Lemma sample_frame :
  frameOf [Samples.petal1; Samples.petal2] = mkFrame 1 0 4 0 (1 / 3) 0 0 0 1.
Proof.
  unfold frameOf, planeNormal.
  rewrite sample_centroid, sample_centroidVelocity, sample_angularMomentum.
  rewrite (norm_value (mkVector3 0 0 8) 8) by (cbn; lra).
  rewrite orElse_keep by lra.
  unfold vdiv. cbn. f_equal; lra.
Qed.

(** The pre-cap correction of the first petal of the sample ring. *)
Lemma sample_pdCorrection :
  pdCorrection (mkController [1%nat; 2%nat] 5 (1 / 3))
    (mkFrame 1 0 4 0 (1 / 3) 0 0 0 1) Samples.petal1
  = mkVector3 (6 / 25) (- (1 / 15)) 0.
Proof.
  set (c := mkController _ _ _). set (f := mkFrame _ _ _ _ _ _ _ _ _).
  assert (Hp : relPosition f Samples.petal1 = mkVector3 2 0 0)
    by (unfold relPosition, vsub; cbn; f_equal; lra).
  assert (Hv : relVelocity f Samples.petal1 = mkVector3 0 (2 / 3) 0)
    by (unfold relVelocity, vsub; cbn; f_equal; lra).
  assert (Hr : ringRadius f Samples.petal1 = 2).
  { unfold ringRadius. rewrite Hp, (norm_value _ 2) by (cbn; lra).
    apply orElse_keep. lra. }
  assert (Hrh : r_hat f Samples.petal1 = mkVector3 1 0 0)
    by (unfold r_hat; rewrite Hp, Hr; unfold vdiv; cbn; f_equal; lra).
  assert (Hth : t_hat f Samples.petal1 = mkVector3 0 1 0).
  { unfold t_hat. rewrite Hrh.
    assert (Ht0 : cross (mkVector3 (nx f) (ny f) (nz f)) (mkVector3 1 0 0)
                  = mkVector3 0 1 0)
      by (unfold cross; cbn; f_equal; lra).
    rewrite Ht0, (norm_value _ 1) by (cbn; lra).
    rewrite orElse_keep by lra. unfold vdiv. cbn. f_equal; lra. }
  unfold pdCorrection, a_r, a_t, v_r, v_t.
  rewrite Hv, Hr, Hrh, Hth.
  unfold vsub, vadd, vscale, dot, k_r, k_dr, k_t, k_dt, k_c. cbn.
  f_equal; lra.
Qed.

Lemma above_cap (v : Vector3) :
  a_max * a_max < x v * x v + y v * y v + z v * z v -> norm v > a_max.
Proof.
  intros H. pose proof a_max_pos as Hp.
  rewrite <- (sqrt_square a_max) by lra.
  apply sqrt_lt_1_alt. split; [ nra | exact H ].
Qed.

(** The law evaluated on the sample ring itself: nothing for the star, and
    for the first petal the pre-cap correction (6/25, -1/15, 0), which is
    longer than the cap and comes back with length exactly [a_max]. *)
Example law_sample :
  let c := mkController [1%nat; 2%nat] 5 (1 / 3) in
  let u := mkVector3 (6 / 25) (- (1 / 15)) 0 in
  makeRosetteController Samples.ring = Ok c
  /\ exists acc : list Vector3,
       law c Samples.ring 0 = Ok acc
       /\ length acc = 3%nat
       /\ acc !! 0%nat = Some (mkVector3 0 0 0)
       /\ unclamped c (frameOf (ringMembers (petalIdx c) Samples.ring))
            Samples.petal1 = Ok u
       /\ norm u > a_max
       /\ acc !! 1%nat = Some (capped u)
       /\ norm (capped u) = a_max.
Proof.
  intros c u. split; [ exact makeRosetteController_sample | ].
  assert (Hc : covers (petalIdx c) Samples.ring)
    by (unfold covers; cbn; repeat constructor).
  assert (Hm : 0 < totalMass (ringMembers (petalIdx c) Samples.ring))
    by (cbn [petalIdx c]; rewrite sample_ring_members, sample_totalMass; lra).
  assert (Hu : pdCorrection c (frameOf (ringMembers (petalIdx c) Samples.ring))
                 Samples.petal1 = u)
    by (cbn [petalIdx c]; rewrite sample_ring_members, sample_frame;
        exact sample_pdCorrection).
  assert (Hgt : norm u > a_max)
    by (apply above_cap; unfold a_max; cbn; lra).
  exists (stationKeeping c Samples.ring).
  split; [ apply law_value, Hc | ].
  split; [ apply stationKeeping_length | ].
  split; [ apply stationKeeping_outside; cbn; [ lia | intuition lia ] | ].
  split; [ rewrite unclamped_value, Hu; reflexivity | ].
  split; [ exact Hgt | ].
  split; [ | exact (norm_capped_over u Hgt) ].
  rewrite <- Hu. apply stationKeeping_member; [ exact Hm | cbn; auto | reflexivity ].
Qed.

(** The degenerate case, evaluated: the ring at rest has no angular
    momentum, the normal is the zero vector (0 / 1), the tangential
    direction is the zero vector (0 / 1e-9), and the first petal is pulled
    along the radial direction only. *)
Example law_at_rest :
  let c := mkController [1%nat; 2%nat] 5 (1 / 3) in
  let members := ringMembers (petalIdx c) Samples.ringAtRest in
  angularMomentum members = zero3
  /\ orElse (norm (angularMomentum members)) 1 = 1
  /\ planeNormal members = zero3
  /\ t_hat (frameOf members) Samples.petal1AtRest = zero3
  /\ unclamped c (frameOf members) Samples.petal1AtRest
     = Ok (mkVector3 (6 / 25) 0 0)
  /\ exists acc : list Vector3,
       law c Samples.ringAtRest 0 = Ok acc
       /\ acc !! 1%nat = Some (capped (mkVector3 (6 / 25) 0 0)).
Proof.
  intros c members.
  assert (Hmem : members = [Samples.petal1AtRest; Samples.petal2AtRest])
    by reflexivity.
  assert (Hmass : totalMass members = 3)
    by (rewrite Hmem; unfold totalMass, sumOver; cbn; lra).
  assert (Hcen : centroid members = mkVector3 1 0 4).
  { unfold centroid, weightedMeanVec, weightedMean. rewrite Hmass, Hmem.
    unfold sumOver. cbn. f_equal; lra. }
  assert (Hcv : centroidVelocity members = zero3).
  { unfold centroidVelocity, weightedMeanVec, weightedMean. rewrite Hmass, Hmem.
    unfold sumOver, zero3. cbn. f_equal; lra. }
  assert (HL : angularMomentum members = zero3).
  { unfold angularMomentum. rewrite Hcen, Hcv, Hmem.
    unfold sumOver, vscale, cross, vsub, zero3. cbn. f_equal; lra. }
  assert (HLn : orElse (norm (angularMomentum members)) 1 = 1)
    by (rewrite HL, norm_zero3; apply orElse_zero).
  assert (Hn : planeNormal members = zero3).
  { unfold planeNormal. cbv zeta. rewrite HLn, HL.
    unfold vdiv, zero3. cbn. f_equal; lra. }
  assert (Hf : frameOf members = mkFrame 1 0 4 0 0 0 0 0 0)
    by (unfold frameOf; rewrite Hcen, Hcv, Hn; reflexivity).
  set (f := mkFrame 1 0 4 0 0 0 0 0 0) in *.
  assert (Hp : relPosition f Samples.petal1AtRest = mkVector3 2 0 0)
    by (unfold relPosition, vsub; cbn; f_equal; lra).
  assert (Hv : relVelocity f Samples.petal1AtRest = zero3)
    by (unfold relVelocity, vsub, zero3; cbn; f_equal; lra).
  assert (Hr : ringRadius f Samples.petal1AtRest = 2).
  { unfold ringRadius. rewrite Hp, (norm_value _ 2) by (cbn; lra).
    apply orElse_keep. lra. }
  assert (Hrh : r_hat f Samples.petal1AtRest = mkVector3 1 0 0)
    by (unfold r_hat; rewrite Hp, Hr; unfold vdiv; cbn; f_equal; lra).
  assert (Hth : t_hat f Samples.petal1AtRest = zero3).
  { unfold t_hat. rewrite Hrh.
    assert (Ht0 : cross (mkVector3 (nx f) (ny f) (nz f)) (mkVector3 1 0 0) = zero3)
      by (unfold cross, zero3; cbn; f_equal; lra).
    rewrite Ht0, norm_zero3, orElse_zero.
    unfold vdiv, zero3. cbn. f_equal; lra. }
  assert (Hu : pdCorrection c f Samples.petal1AtRest = mkVector3 (6 / 25) 0 0).
  { unfold pdCorrection, a_r, a_t, v_r, v_t. rewrite Hv, Hr, Hrh, Hth.
    unfold vsub, vadd, vscale, dot, zero3, k_r, k_dr, k_t, k_dt, k_c. cbn.
    f_equal; lra. }
  split; [ exact HL | ]. split; [ exact HLn | ]. split; [ exact Hn | ].
  rewrite Hf.
  split; [ exact Hth | ].
  split; [ rewrite unclamped_value, Hu; reflexivity | ].
  exists (stationKeeping c Samples.ringAtRest).
  split; [ apply law_value; unfold covers; cbn; repeat constructor | ].
  rewrite <- Hu, <- Hf. apply stationKeeping_member.
  - fold members. lra.
  - cbn. auto.
  - reflexivity.
Qed.

End RosetteFacts.

(** * The closure on a heap *)

Section ClosureFacts.

Import Rosette Closure.
Local Open Scope R_scope.

Lemma bindH_ok {A B : Type} (m : M A) (k : A -> M B) (h h' : Heap) (a : A) :
  m h = (Ok a, h') -> bindH m k h = k a h'.
Proof. intros E. unfold bindH. rewrite E. reflexivity. Qed.

Lemma bindH_throw {A B : Type} (m : M A) (k : A -> M B) (h h' : Heap) (e : JSError) :
  m h = (Throw e, h') -> bindH m k h = (Throw e, h').
Proof. intros E. unfold bindH. rewrite E. reflexivity. Qed.

Lemma bindH_lift {A B : Type} (r : Result A) (k : A -> M B) (h : Heap) :
  bindH (lift r) k h
  = match r with Ok a => k a h | Throw e => (Throw e, h) end.
Proof. unfold bindH, lift. destruct r; reflexivity. Qed.

Lemma deref_Some {A : Type} (store : Heap -> list A) (r : ref) (h : Heap) (a : A) :
  store h !! r = Some a -> deref store r h = (Ok a, h).
Proof. intros E. unfold deref. rewrite E. reflexivity. Qed.

Lemma preserved_refl (h : Heap) : preserved h h.
Proof. repeat split; reflexivity. Qed.

Lemma preserved_trans (h1 h2 h3 : Heap) :
  preserved h1 h2 -> preserved h2 h3 -> preserved h1 h3.
Proof.
  intros (A1 & A2 & A3 & A4 & A5 & A6) (B1 & B2 & B3 & B4 & B5 & B6).
  repeat split; etransitivity; eassumption.
Qed.

(** Under [wellFormed] every reference of an array finds its body and the
    body's two vectors, in the heap and in every heap that preserves it. *)
Lemma bodyAt_preserved (h h' : Heap) (r : ref) :
  wellFormed h -> preserved h h' -> (r < length (bodies h))%nat ->
  exists b, bodyAt h r = Some b /\ bodyAt h' r = Some b.
Proof.
  intros [Hb _] (Pv & Pb & _) Hr.
  destruct (lookup_lt_is_Some_2 (bodies h) r Hr) as [o Ho].
  rewrite List.Forall_forall in Hb.
  destruct (Hb o) as [Hp Hv].
  { apply list_elem_of_In. eapply list_elem_of_lookup_2. exact Ho. }
  destruct (lookup_lt_is_Some_2 (vectors h) _ Hp) as [p Ep].
  destruct (lookup_lt_is_Some_2 (vectors h) _ Hv) as [v Ev].
  exists (mkBodyState (oName o) (oMass o) (oRadius o) (oColor o) (oIsStar o) p v).
  unfold bodyAt.
  rewrite Ho, Ep, Ev.
  rewrite (prefix_lookup_Some _ _ _ _ Ho Pb).
  rewrite (prefix_lookup_Some _ _ _ _ Ep Pv), (prefix_lookup_Some _ _ _ _ Ev Pv).
  split; reflexivity.
Qed.

Lemma array_in_bounds (h : Heap) (state : ref) (arr : list ref) :
  wellFormed h -> bodyArrays h !! state = Some arr ->
  Forall (fun r => (r < length (bodies h))%nat) arr.
Proof.
  intros [_ Ha] E. rewrite List.Forall_forall in Ha. apply Ha.
  apply list_elem_of_In. eapply list_elem_of_lookup_2. exact E.
Qed.

Lemma omap_lookup_total {A B : Type} (f : A -> option B) (l : list A) (i : nat) :
  Forall (fun a => is_Some (f a)) l ->
  omap f l !! i = match l !! i with Some a => f a | None => None end.
Proof.
  intros HF. revert i. induction HF as [ | a l [b Hb] _ IH ]; intros i.
  - reflexivity.
  - cbn [omap list_omap]. rewrite Hb. destruct i as [ | i ].
    + cbn. symmetry. exact Hb.
    + cbn. apply IH.
Qed.

Lemma omap_length_total {A B : Type} (f : A -> option B) (l : list A) :
  Forall (fun a => is_Some (f a)) l -> length (omap f l) = length l.
Proof.
  induction 1 as [ | a l [b Hb] _ IH ]; [ reflexivity | ].
  cbn [omap list_omap]. rewrite Hb. cbn [length]. rewrite IH. reflexivity.
Qed.

Lemma array_total (h : Heap) (state : ref) (arr : list ref) :
  wellFormed h -> bodyArrays h !! state = Some arr ->
  Forall (fun r => is_Some (bodyAt h r)) arr.
Proof.
  intros Hwf E. pose proof (array_in_bounds h state arr Hwf E) as Hin.
  eapply List.Forall_impl; [ | exact Hin ].
  intros r Hr. destruct (bodyAt_preserved h h r Hwf (preserved_refl h) Hr) as [b [Hb _]].
  exists b. exact Hb.
Qed.

Lemma snapshot_length (h : Heap) (state : ref) (arr : list ref) :
  wellFormed h -> bodyArrays h !! state = Some arr ->
  length (snapshot h state) = length arr.
Proof.
  intros Hwf E. unfold snapshot. rewrite E.
  apply omap_length_total, (array_total h state arr Hwf E).
Qed.

(** Reading a body of an old array in a heap that preserves the old one
    gives the old body, or the error of a missing index; it writes
    nothing. *)
Lemma readBody_spec (h h' : Heap) (state : ref) (arr : list ref) (i : nat) :
  wellFormed h -> preserved h h' -> bodyArrays h !! state = Some arr ->
  readBody state i h' = (getBody (snapshot h state) i, h').
Proof.
  intros Hwf Hp E.
  pose proof (array_total h state arr Hwf E) as Htot.
  pose proof (array_in_bounds h state arr Hwf E) as Hin.
  unfold getBody, snapshot. rewrite E, (omap_lookup_total _ _ i Htot).
  unfold readBody.
  assert (E' : bodyArrays h' !! state = Some arr).
  { destruct Hp as (_ & _ & Pa & _). exact (prefix_lookup_Some _ _ _ _ E Pa). }
  rewrite (bindH_ok _ _ _ _ _ (deref_Some bodyArrays state h' arr E')).
  destruct (arr !! i) as [ r | ] eqn:Er; [ | reflexivity ].
  assert (Hr : (r < length (bodies h))%nat).
  { rewrite List.Forall_forall in Hin. apply Hin.
    apply list_elem_of_In. eapply list_elem_of_lookup_2. exact Er. }
  destruct (bodyAt_preserved h h' r Hwf Hp Hr) as [b [Hb Hb']].
  rewrite Hb. unfold bodyAt in Hb'.
  destruct (bodies h' !! r) as [ o | ] eqn:Eo; [ | discriminate ].
  destruct (vectors h' !! oPosition o) as [ p | ] eqn:Epos; [ | discriminate ].
  destruct (vectors h' !! oVelocity o) as [ v | ] eqn:Evel; [ | discriminate ].
  rewrite (bindH_ok _ _ _ _ _ (deref_Some bodies r h' o Eo)).
  rewrite (bindH_ok _ _ _ _ _ (deref_Some vectors _ h' p Epos)).
  rewrite (bindH_ok _ _ _ _ _ (deref_Some vectors _ h' v Evel)).
  unfold ret. injection Hb' as <-. reflexivity.
Qed.

Lemma snapshot_preserved (h h' : Heap) (state : ref) (arr : list ref) :
  wellFormed h -> preserved h h' -> bodyArrays h !! state = Some arr ->
  snapshot h' state = snapshot h state.
Proof.
  intros Hwf Hp E.
  pose proof (array_in_bounds h state arr Hwf E) as Hin.
  unfold snapshot. rewrite E.
  rewrite (prefix_lookup_Some _ _ _ _ E (proj1 (proj2 (proj2 Hp)))).
  clear E. induction Hin as [ | r l Hr _ IH ]; [ reflexivity | ].
  cbn [omap list_omap].
  destruct (bodyAt_preserved h h' r Hwf Hp Hr) as [b [Hb Hb']].
  rewrite Hb, Hb', IH. reflexivity.
Qed.

Lemma wellFormed_preserved (h h' : Heap) :
  wellFormed h -> preserved h h' ->
  bodies h' = bodies h -> bodyArrays h' = bodyArrays h ->
  wellFormed h'.
Proof.
  intros [Hb Ha] (Pv & _) Eb Ea. unfold wellFormed. rewrite Eb, Ea.
  apply prefix_length in Pv.
  split; [ | exact Ha ].
  eapply List.Forall_impl; [ | exact Hb ].
  intros o [H1 H2]. split; lia.
Qed.

(** A loop whose body only reads is the loop of [Rosette]. *)
Lemma forOfH_readonly {A B : Type} (body : B -> A -> M B)
  (pure : B -> A -> Result B) (h : Heap) (xs : list A) (acc : B) :
  (forall acc x, body acc x h = (pure acc x, h)) ->
  forOfH body xs acc h = (forOf pure xs acc, h).
Proof.
  intros Hbody. revert acc. induction xs as [ | x xs IH ]; intros acc.
  - reflexivity.
  - cbn [forOfH forOf]. unfold bindH. rewrite Hbody.
    destruct (pure acc x) as [ acc' | e ]; cbn [bindR]; [ apply IH | reflexivity ].
Qed.

Lemma onBody_spec {A : Type} (h h' : Heap) (state : ref) (arr : list ref) (i : nat)
  (step : list BodyState -> nat -> Result A) :
  wellFormed h -> preserved h h' -> bodyArrays h !! state = Some arr ->
  onBody state i step h'
  = (match getBody (snapshot h state) i with
     | Ok b => step [b] 0%nat
     | Throw e => Throw e
     end, h').
Proof.
  intros Hwf Hp E. unfold onBody, bindH.
  rewrite (readBody_spec h h' state arr i Hwf Hp E).
  destruct (getBody (snapshot h state) i); reflexivity.
Qed.

Lemma centroidStep_on (st : list BodyState) (i : nat)
  (sums : R * R * R * R * R * R * R) :
  match getBody st i with
  | Ok b => centroidStep [b] sums 0%nat
  | Throw e => Throw e
  end = centroidStep st sums i.
Proof.
  unfold centroidStep. destruct sums as [[[[[[a1 a2] a3] a4] a5] a6] a7].
  destruct (getBody st i); reflexivity.
Qed.

Lemma momentumStep_on (st : list BodyState) (i : nat) (cx cy cz cvx cvy cvz : R)
  (sums : R * R * R) :
  match getBody st i with
  | Ok b => momentumStep [b] cx cy cz cvx cvy cvz sums 0%nat
  | Throw e => Throw e
  end = momentumStep st cx cy cz cvx cvy cvz sums i.
Proof.
  unfold momentumStep. destruct sums as [[a1 a2] a3].
  destruct (getBody st i); reflexivity.
Qed.

Lemma rStarStep_on (st : list BodyState) (i : nat) (sums : R * R) :
  match getBody st i with
  | Ok b => rStarStep [b] sums 0%nat
  | Throw e => Throw e
  end = rStarStep st sums i.
Proof.
  unfold rStarStep. destruct sums as [a1 a2].
  destruct (getBody st i); reflexivity.
Qed.

Lemma omegaStarStep_on (st : list BodyState) (i : nat) (sums : R * R) :
  match getBody st i with
  | Ok b => omegaStarStep [b] sums 0%nat
  | Throw e => Throw e
  end = omegaStarStep st sums i.
Proof.
  unfold omegaStarStep. destruct sums as [a1 a2].
  destruct (getBody st i); reflexivity.
Qed.


(** *** Allocation and writes *)

Lemma newVectors_spec (n : nat) (h : Heap) :
  newVectors n h
  = (Ok (seq (length (vectors h)) n),
     mkHeap (vectors h ++ replicate n (mkVector3 0 0 0)) (bodies h) (bodyArrays h)
       (vectorArrays h) (indexArrays h) (scopes h)).
Proof.
  revert h. induction n as [ | n IH ]; intros h.
  - cbn [newVectors seq replicate]. unfold ret. rewrite app_nil_r.
    destruct h; reflexivity.
  - cbn [newVectors]. unfold bindH at 1. unfold newVector at 1.
    unfold bindH at 1. rewrite IH. cbn [vectors bodies bodyArrays vectorArrays indexArrays scopes].
    unfold ret. rewrite length_app. cbn [length].
    replace (length (vectors h) + 1)%nat with (S (length (vectors h))) by lia.
    rewrite <- app_assoc. reflexivity.
Qed.

Lemma arrayFrom_spec (n : nat) (h : Heap) :
  arrayFrom n h
  = (Ok (length (vectorArrays h)), withCorrections h n (replicate n (mkVector3 0 0 0))).
Proof.
  unfold arrayFrom, bindH. rewrite newVectors_spec. reflexivity.
Qed.

Lemma grownBy_refl (h : Heap) : grownBy h h.
Proof. repeat split; reflexivity. Qed.

Lemma grownBy_trans (h1 h2 h3 : Heap) :
  grownBy h1 h2 -> grownBy h2 h3 -> grownBy h1 h3.
Proof.
  intros (A1 & A2 & A3 & A4 & A5 & A6) (B1 & B2 & B3 & B4 & B5 & B6).
  unfold grownBy. rewrite B3, B4, B5, B6.
  repeat split; try assumption; etransitivity; eassumption.
Qed.

Lemma grownBy_preserved (h h' : Heap) : grownBy h h' -> preserved h h'.
Proof.
  intros (A1 & A2 & A3 & A4 & A5 & A6). unfold preserved.
  rewrite A3, A4, A5, A6. repeat split; try assumption; reflexivity.
Qed.

Lemma grownBy_withCorrections (h : Heap) (n : nat) (accs : list Vector3) :
  grownBy h (withCorrections h n accs).
Proof.
  unfold grownBy, withCorrections.
  cbn [vectors bodies bodyArrays vectorArrays indexArrays scopes].
  repeat split; apply prefix_app_r; reflexivity.
Qed.

Lemma wellFormed_grownBy (h h' : Heap) :
  wellFormed h -> grownBy h h' -> wellFormed h'.
Proof.
  intros Hwf Hg. apply (wellFormed_preserved h h' Hwf (grownBy_preserved _ _ Hg)).
  - exact (proj1 (proj2 (proj2 Hg))).
  - exact (proj1 (proj2 (proj2 (proj2 Hg)))).
Qed.

Lemma setField_spec (update : Vector3 -> Vector3) (h : Heap) (n i : nat)
  (accs : list Vector3) (v : Vector3) :
  accs !! i = Some v ->
  setField update (length (vectors h) + i) (withCorrections h n accs)
  = (Ok tt, withCorrections h n (<[i := update v]> accs)).
Proof.
  intros Hv. unfold setField, withCorrections.
  cbn [vectors bodies bodyArrays vectorArrays indexArrays scopes].
  rewrite lookup_app_r by lia.
  replace (length (vectors h) + i - length (vectors h))%nat with i by lia.
  rewrite Hv, insert_app_r. reflexivity.
Qed.

(** The three writes of one correction land in the correction's own
    object, which the call allocated. *)
Lemma setAcc_spec (h : Heap) (n i : nat) (accs : list Vector3) (a : Vector3) :
  length accs = n ->
  Closure.setAcc (length (vectorArrays h)) i a (withCorrections h n accs)
  = match Rosette.setAcc accs i a with
    | Ok accs' => (Ok tt, withCorrections h n accs')
    | Throw e => (Throw e, withCorrections h n accs)
    end.
Proof.
  intros Hlen. unfold Closure.setAcc, Rosette.setAcc.
  assert (Harr : vectorArrays (withCorrections h n accs) !! length (vectorArrays h)
                 = Some (seq (length (vectors h)) n)).
  { unfold withCorrections. cbn [vectorArrays]. apply list_lookup_middle. reflexivity. }
  rewrite (bindH_ok _ _ _ _ _ (deref_Some vectorArrays _ _ _ Harr)).
  destruct (accs !! i) as [ v | ] eqn:Ev.
  - assert (Hi : (i < n)%nat) by (rewrite <- Hlen; eapply lookup_lt_Some; exact Ev).
    rewrite (lookup_seq_lt _ _ _ Hi). unfold setX, setY, setZ.
    rewrite (bindH_ok _ _ _ _ _ (setField_spec _ h n i accs v Ev)).
    assert (Hi' : (i < length accs)%nat) by lia.
    rewrite (bindH_ok _ _ _ _ _
               (setField_spec _ h n i _ _ (list_lookup_insert_eq accs i _ Hi'))).
    rewrite list_insert_insert_eq.
    rewrite (setField_spec _ h n i _ _ (list_lookup_insert_eq accs i _ Hi')).
    rewrite list_insert_insert_eq. cbn [x y z].
    destruct a; reflexivity.
  - assert (Hi : (n <= i)%nat) by (rewrite <- Hlen; apply lookup_ge_None; exact Ev).
    rewrite (lookup_seq_ge _ _ _ Hi). reflexivity.
Qed.

Lemma setAcc_length (accs accs' : list Vector3) (i : nat) (a : Vector3) :
  Rosette.setAcc accs i a = Ok accs' -> length accs' = length accs.
Proof.
  unfold Rosette.setAcc. destruct (accs !! i); [ | discriminate ].
  intros [= <-]. apply length_insert.
Qed.

Lemma petalStep_spec (h : Heap) (state : ref) (arr : list ref) (c : Controller)
  (f : Frame) (n i : nat) (accs : list Vector3) :
  wellFormed h -> bodyArrays h !! state = Some arr -> length accs = n ->
  Closure.petalStep c f state (length (vectorArrays h)) tt i (withCorrections h n accs)
  = match Rosette.petalStep c f (snapshot h state) accs i with
    | Ok accs' => (Ok tt, withCorrections h n accs')
    | Throw e => (Throw e, withCorrections h n accs)
    end.
Proof.
  intros Hwf E Hlen. unfold Closure.petalStep, Rosette.petalStep.
  unfold bindH at 1.
  rewrite (readBody_spec h _ state arr i Hwf
             (grownBy_preserved _ _ (grownBy_withCorrections h n accs)) E).
  destruct (getBody (snapshot h state) i) as [ b | e ]; cbn [bindR]; [ | reflexivity ].
  rewrite bindH_lift.
  destruct (unclamped c f b) as [ a | e ]; cbn [bindR]; [ | reflexivity ].
  rewrite bindH_lift.
  destruct (clamp a) as [ a' | e ]; cbn [bindR]; [ | reflexivity ].
  apply setAcc_spec, Hlen.
Qed.

Lemma petalLoop_spec (h : Heap) (state : ref) (arr : list ref) (c : Controller)
  (f : Frame) (n : nat) (idx : list nat) (accs : list Vector3) :
  wellFormed h -> bodyArrays h !! state = Some arr -> length accs = n ->
  exists accs' : list Vector3,
    length accs' = n
    /\ forOfH (Closure.petalStep c f state (length (vectorArrays h))) idx tt
         (withCorrections h n accs)
       = (match forOf (Rosette.petalStep c f (snapshot h state)) idx accs with
          | Ok _ => Ok tt
          | Throw e => Throw e
          end, withCorrections h n accs')
    /\ (forall out, forOf (Rosette.petalStep c f (snapshot h state)) idx accs = Ok out ->
                    accs' = out).
Proof.
  intros Hwf E. revert accs. induction idx as [ | i idx IH ]; intros accs Hlen.
  - exists accs. split; [ exact Hlen | ]. split; [ reflexivity | ].
    intros out [= <-]. reflexivity.
  - cbn [forOfH forOf]. unfold bindH at 1.
    rewrite (petalStep_spec h state arr c f n i accs Hwf E Hlen).
    destruct (Rosette.petalStep c f (snapshot h state) accs i) as [ accs1 | e ] eqn:Estep;
      cbn [bindR]; cbv iota beta.
    + assert (Hlen1 : length accs1 = n).
      { unfold Rosette.petalStep in Estep.
        destruct (getBody (snapshot h state) i); cbn [bindR] in Estep; [ | discriminate ].
        destruct (unclamped c f a); cbn [bindR] in Estep; [ | discriminate ].
        destruct (clamp a0); cbn [bindR] in Estep; [ | discriminate ].
        rewrite (setAcc_length _ _ _ _ Estep). exact Hlen. }
      exact (IH accs1 Hlen1).
    + exists accs. split; [ exact Hlen | ]. split; [ reflexivity | ].
      intros out Hout. discriminate.
Qed.

Lemma readVectors_spec (h : Heap) (refs : list ref) (vs : list Vector3) :
  Forall2 (fun r v => vectors h !! r = Some v) refs vs ->
  readVectors refs h = (Ok vs, h).
Proof.
  induction 1 as [ | r v refs vs Hr _ IH ]; [ reflexivity | ].
  cbn [readVectors].
  rewrite (bindH_ok _ _ _ _ _ (deref_Some vectors r h v Hr)).
  rewrite (bindH_ok _ _ _ _ _ IH). reflexivity.
Qed.

Lemma corrections_spec (h : Heap) (n : nat) (accs : list Vector3) :
  length accs = n ->
  corrections (length (vectorArrays h)) (withCorrections h n accs)
  = (Ok accs, withCorrections h n accs).
Proof.
  intros Hlen. unfold corrections.
  assert (Harr : vectorArrays (withCorrections h n accs) !! length (vectorArrays h)
                 = Some (seq (length (vectors h)) n)).
  { unfold withCorrections. cbn [vectorArrays]. apply list_lookup_middle. reflexivity. }
  rewrite (bindH_ok _ _ _ _ _ (deref_Some vectorArrays _ _ _ Harr)).
  apply readVectors_spec.
  apply Forall2_same_length_lookup_2.
  - rewrite length_seq. congruence.
  - intros i r v Hr Hv. apply lookup_seq in Hr as [-> Hi].
    unfold withCorrections. cbn [vectors].
    rewrite lookup_app_r by lia.
    replace (length (vectors h) + i - length (vectors h))%nat with i by lia.
    exact Hv.
Qed.


(** *** One evaluation *)

Ltac early_exit n :=
  exists (replicate n (mkVector3 0 0 0));
  split; [ apply length_replicate | ];
  split; [ reflexivity | ];
  try (intros out [= <-]; reflexivity);
  try (intros out Hout; discriminate Hout).

Lemma law_run (h : Heap) (cl state : ref) (t : R) (scope : Scope)
  (idx : list nat) (arr : list ref) :
  wellFormed h ->
  scopes h !! cl = Some scope ->
  indexArrays h !! sPetalIdx scope = Some idx ->
  bodyArrays h !! state = Some arr ->
  let c := mkController idx (sRStar scope) (sOmegaStar scope) in
  exists accs : list Vector3,
    length accs = length arr
    /\ Closure.law cl state t h
       = (match Rosette.law c (snapshot h state) t with
          | Ok _ => Ok (length (vectorArrays h))
          | Throw e => Throw e
          end, withCorrections h (length arr) accs)
    /\ (forall out, Rosette.law c (snapshot h state) t = Ok out -> accs = out).
Proof.
  intros Hwf Hscope Hidx Harr c. subst c.
  set (c := mkController idx (sRStar scope) (sOmegaStar scope)).
  set (n := length arr).
  set (h1 := withCorrections h n (replicate n (mkVector3 0 0 0))).
  assert (Hg : preserved h h1)
    by (apply grownBy_preserved, grownBy_withCorrections).
  assert (Hn : length (snapshot h state) = n) by (apply snapshot_length; assumption).
  unfold Closure.law, Rosette.law.
  rewrite (bindH_ok _ _ _ _ _ (deref_Some scopes cl h scope Hscope)).
  rewrite (bindH_ok _ _ _ _ _ (deref_Some bodyArrays state h arr Harr)).
  rewrite (bindH_ok _ _ _ _ _ (arrayFrom_spec (length arr) h)).
  fold n. fold h1.
  assert (Hidx1 : indexArrays h1 !! sPetalIdx scope = Some idx) by exact Hidx.
  rewrite (bindH_ok _ _ _ _ _ (deref_Some indexArrays _ h1 idx Hidx1)).
  change (petalIdx c) with idx. rewrite Hn.
  destruct (Nat.eqb (length idx) 0); [ early_exit n | ].
  unfold bindH at 1.
  rewrite (forOfH_readonly _ (centroidStep (snapshot h state)) h1).
  2:{ intros sums i. rewrite (onBody_spec h h1 state arr i _ Hwf Hg Harr).
      rewrite centroidStep_on. reflexivity. }
  destruct (forOf (centroidStep (snapshot h state)) idx (0, 0, 0, 0, 0, 0, 0))
    as [ [[[[[[mSum cx] cy] cz] cvx] cvy] cvz] | e ]; cbn [bindR];
    [ | early_exit n ].
  destruct (Rle_dec mSum 0); [ early_exit n | ].
  rewrite bindH_lift.
  destruct (fdiv cx mSum) as [ cx' | e ]; cbn [bindR]; [ | early_exit n ].
  rewrite bindH_lift.
  destruct (fdiv cy mSum) as [ cy' | e ]; cbn [bindR]; [ | early_exit n ].
  rewrite bindH_lift.
  destruct (fdiv cz mSum) as [ cz' | e ]; cbn [bindR]; [ | early_exit n ].
  rewrite bindH_lift.
  destruct (fdiv cvx mSum) as [ cvx' | e ]; cbn [bindR]; [ | early_exit n ].
  rewrite bindH_lift.
  destruct (fdiv cvy mSum) as [ cvy' | e ]; cbn [bindR]; [ | early_exit n ].
  rewrite bindH_lift.
  destruct (fdiv cvz mSum) as [ cvz' | e ]; cbn [bindR]; [ | early_exit n ].
  unfold bindH at 1.
  rewrite (forOfH_readonly _
             (momentumStep (snapshot h state) cx' cy' cz' cvx' cvy' cvz') h1).
  2:{ intros sums i. rewrite (onBody_spec h h1 state arr i _ Hwf Hg Harr).
      rewrite momentumStep_on. reflexivity. }
  destruct (forOf (momentumStep (snapshot h state) cx' cy' cz' cvx' cvy' cvz') idx
              (0, 0, 0)) as [ [[Lx Ly] Lz] | e ]; cbn [bindR]; [ | early_exit n ].
  rewrite bindH_lift.
  destruct (fdiv Lx (orElse (hypot3 Lx Ly Lz) 1)) as [ nx' | e ]; cbn [bindR];
    [ | early_exit n ].
  rewrite bindH_lift.
  destruct (fdiv Ly (orElse (hypot3 Lx Ly Lz) 1)) as [ ny' | e ]; cbn [bindR];
    [ | early_exit n ].
  rewrite bindH_lift.
  destruct (fdiv Lz (orElse (hypot3 Lx Ly Lz) 1)) as [ nz' | e ]; cbn [bindR];
    [ | early_exit n ].
  destruct (petalLoop_spec h state arr c
              (mkFrame cx' cy' cz' cvx' cvy' cvz' nx' ny' nz') n idx
              (replicate n (mkVector3 0 0 0)) Hwf Harr (length_replicate _ _))
    as [accs [Hlen [Hrun Hout]]].
  exists accs. split; [ exact Hlen | ].
  unfold bindH at 1. fold h1 in Hrun. fold c. rewrite Hrun.
  destruct (forOf (Rosette.petalStep c _ (snapshot h state)) idx
              (replicate n (mkVector3 0 0 0))) as [ out | e ].
  - split; [ reflexivity | ]. intros out' [= <-]. apply Hout. reflexivity.
  - split; [ reflexivity | ]. intros out' Hd. discriminate Hd.
Qed.

(** One call, looked at by the caller: what comes back is what [Rosette.law]
    computes from the values the state array held, and the heap afterwards
    is the heap before plus the returned corrections. *)
Lemma law_spec (h : Heap) (cl state : ref) (t : R) (scope : Scope)
  (idx : list nat) (arr : list ref) :
  wellFormed h ->
  scopes h !! cl = Some scope ->
  indexArrays h !! sPetalIdx scope = Some idx ->
  bodyArrays h !! state = Some arr ->
  exists accs : list Vector3,
    length accs = length arr
    /\ bindH (Closure.law cl state t) corrections h
       = (Rosette.law (mkController idx (sRStar scope) (sOmegaStar scope))
            (snapshot h state) t,
          withCorrections h (length arr) accs).
Proof.
  intros Hwf Hscope Hidx Harr.
  destruct (law_run h cl state t scope idx arr Hwf Hscope Hidx Harr)
    as [accs [Hlen [Hrun Hout]]].
  exists accs. split; [ exact Hlen | ].
  unfold bindH. rewrite Hrun.
  destruct (Rosette.law _ (snapshot h state) t) as [ out | e ]; [ | reflexivity ].
  rewrite (corrections_spec h (length arr) accs Hlen).
  rewrite (Hout out eq_refl). reflexivity.
Qed.


(** *** A sequence of evaluations *)

Lemma evaluations_spec (h : Heap) (cl : ref) (scope : Scope) (idx : list nat)
  (inputs : list (ref * R)) :
  wellFormed h ->
  scopes h !! cl = Some scope ->
  indexArrays h !! sPetalIdx scope = Some idx ->
  Forall (fun input => (fst input < length (bodyArrays h))%nat) inputs ->
  forall hk : Heap,
    grownBy h hk ->
    fst (evaluations cl inputs hk)
    = map (fun input =>
             Rosette.law (mkController idx (sRStar scope) (sOmegaStar scope))
               (snapshot h (fst input)) (snd input))
          inputs
    /\ grownBy h (snd (evaluations cl inputs hk)).
Proof.
  intros Hwf Hscope Hidx Hin.
  induction Hin as [ | [state t] inputs Hstate _ IH ]; intros hk Hg.
  - split; [ reflexivity | exact Hg ].
  - cbn [fst snd] in Hstate.
    destruct (lookup_lt_is_Some_2 (bodyArrays h) state Hstate) as [arr Harr].
    pose proof Hg as (_ & _ & Eb & Ea & Ei & Es).
    assert (Hwfk : wellFormed hk) by exact (wellFormed_grownBy h hk Hwf Hg).
    assert (Hscopek : scopes hk !! cl = Some scope) by (rewrite Es; exact Hscope).
    assert (Hidxk : indexArrays hk !! sPetalIdx scope = Some idx)
      by (rewrite Ei; exact Hidx).
    assert (Harrk : bodyArrays hk !! state = Some arr) by (rewrite Ea; exact Harr).
    destruct (law_spec hk cl state t scope idx arr Hwfk Hscopek Hidxk Harrk)
      as [accs [Hlen Hrun]].
    rewrite (snapshot_preserved h hk state arr Hwf (grownBy_preserved _ _ Hg) Harr)
      in Hrun.
    cbn [evaluations]. rewrite Hrun.
    assert (Hg1 : grownBy h (withCorrections hk (length arr) accs))
      by exact (grownBy_trans _ _ _ Hg (grownBy_withCorrections hk _ accs)).
    destruct (IH _ Hg1) as [Houts Hg2].
    destruct (evaluations cl inputs (withCorrections hk (length arr) accs))
      as [outs h2].
    cbn [fst snd] in *. split; [ | exact Hg2 ].
    cbn [map fst snd]. rewrite Houts. reflexivity.
Qed.

(** *** The construction *)

Lemma readBodies_spec (h : Heap) (state : ref) (arr : list ref) (count from : nat) :
  wellFormed h -> bodyArrays h !! state = Some arr ->
  (from + count = length arr)%nat ->
  readBodies state from count h = (Ok (drop from (snapshot h state)), h).
Proof.
  intros Hwf Harr. revert from. induction count as [ | count IH ]; intros from Hlen.
  - cbn [readBodies]. unfold ret. rewrite drop_ge; [ reflexivity | ].
    rewrite (snapshot_length h state arr Hwf Harr). lia.
  - cbn [readBodies]. unfold bindH at 1.
    rewrite (readBody_spec h h state arr from Hwf (preserved_refl h) Harr).
    assert (Hlt : (from < length (snapshot h state))%nat)
      by (rewrite (snapshot_length h state arr Hwf Harr); lia).
    destruct (lookup_lt_is_Some_2 _ _ Hlt) as [b Hb].
    unfold getBody. rewrite Hb.
    rewrite (bindH_ok _ _ _ _ _ (IH (S from) ltac:(lia))).
    unfold ret. rewrite (drop_S _ _ _ Hb). reflexivity.
Qed.

Lemma makeRosetteController_spec (h : Heap) (initialBodies : ref) (arr : list ref) :
  wellFormed h -> bodyArrays h !! initialBodies = Some arr ->
  exists c : Controller,
    Rosette.makeRosetteController (snapshot h initialBodies) = Ok c
    /\ Closure.makeRosetteController initialBodies h
       = (Ok (length (scopes h)), withClosure h c).
Proof.
  intros Hwf Harr.
  set (snap := snapshot h initialBodies).
  pose proof (makeRosetteController_value snap) as Hval. cbv zeta in Hval.
  rewrite Hval.
  unfold Rosette.makeRosetteController, computeRStar, computeOmegaStar in Hval.
  unfold Closure.makeRosetteController.
  rewrite (bindH_ok _ _ _ _ _ (deref_Some bodyArrays initialBodies h arr Harr)).
  rewrite (bindH_ok _ _ _ _ _
             (readBodies_spec h initialBodies arr (length arr) 0 Hwf Harr eq_refl)).
  rewrite drop_0. fold snap.
  unfold bindH at 1. unfold newIndexArray at 1.
  set (hA := mkHeap _ _ _ _ _ _).
  assert (Hp : preserved h hA).
  { unfold preserved, hA. cbn [vectors bodies bodyArrays vectorArrays indexArrays scopes].
    repeat split; try reflexivity. apply prefix_app_r. reflexivity. }
  assert (HidxA : indexArrays hA !! length (indexArrays h) = Some (petalIndices snap)).
  { unfold hA. cbn [indexArrays]. apply list_lookup_middle. reflexivity. }
  rewrite (bindH_ok _ _ _ _ _ (deref_Some indexArrays _ hA _ HidxA)).
  unfold bindH at 1.
  rewrite (forOfH_readonly _ (rStarStep snap) hA).
  2:{ intros sums i. rewrite (onBody_spec h hA initialBodies arr i _ Hwf Hp Harr).
      rewrite rStarStep_on. reflexivity. }
  destruct (forOf (rStarStep snap) (petalIndices snap) (0, 0)) as [ [m1 mr] | e ];
    cbn [bindR] in Hval; [ | discriminate Hval ].
  rewrite bindH_lift.
  destruct (if Rgt_dec m1 0 then fdiv mr m1 else Ok 12) as [ rS | e ];
    cbn [bindR] in Hval; [ | discriminate Hval ].
  unfold bindH at 1.
  rewrite (forOfH_readonly _ (omegaStarStep snap) hA).
  2:{ intros sums i. rewrite (onBody_spec h hA initialBodies arr i _ Hwf Hp Harr).
      rewrite omegaStarStep_on. reflexivity. }
  destruct (forOf (omegaStarStep snap) (petalIndices snap) (0, 0)) as [ [m2 sm] | e ];
    cbn [bindR] in Hval; [ | discriminate Hval ].
  rewrite bindH_lift.
  destruct (if Rgt_dec m2 0 then fdiv sm m2 else Ok 0) as [ oS | e ];
    cbn [bindR] in Hval; [ | discriminate Hval ].
  eexists. split; [ reflexivity | ].
  injection Hval as <- <-. reflexivity.
Qed.

Lemma preserved_withClosure (h : Heap) (c : Controller) : preserved h (withClosure h c).
Proof.
  unfold preserved, withClosure.
  cbn [vectors bodies bodyArrays vectorArrays indexArrays scopes].
  repeat split; try reflexivity; apply prefix_app_r; reflexivity.
Qed.

Lemma wellFormed_withClosure (h : Heap) (c : Controller) :
  wellFormed h -> wellFormed (withClosure h c).
Proof. intros Hwf. exact Hwf. Qed.

Lemma snapshot_withClosure (h : Heap) (c : Controller) (state : ref) :
  snapshot (withClosure h c) state = snapshot h state.
Proof. reflexivity. Qed.

(** C7: the law as a closure over a heap.  Built from the array
    [initialBodies] of a heap without dangling references, and evaluated
    any number of times on arrays of that heap, one call after the other:
    the construction fixes the constants the sequential model computes
    from the initial bodies; nothing that was in the heap is written, by
    the construction or by an evaluation (the bodies of every input state
    and the captured scope with its index array read as before; the only
    writes go to the corrections each call allocates); every outcome is
    [Rosette.law] of those constants on the values its own input holds;
    and two evaluations on states that hold equal bodies return equal
    outcomes, at whatever times and with whatever other evaluations in
    between. *)
Theorem law_stateless_and_deterministic :
  forall (h : Heap) (initialBodies : ref) (inputs : list (ref * R)),
    wellFormed h ->
    (initialBodies < length (bodyArrays h))%nat ->
    Forall (fun input => (fst input < length (bodyArrays h))%nat) inputs ->
    exists (c : Controller) (cl : ref) (h1 : Heap),
      Rosette.makeRosetteController (snapshot h initialBodies) = Ok c
      /\ Closure.makeRosetteController initialBodies h = (Ok cl, h1)
      /\ preserved h h1
      /\ (let outs := fst (evaluations cl inputs h1) in
          let h2 := snd (evaluations cl inputs h1) in
          preserved h h2
          /\ (forall state : ref,
                (state < length (bodyArrays h))%nat ->
                snapshot h2 state = snapshot h state)
          /\ (exists scope : Scope,
                scopes h1 !! cl = Some scope
                /\ scopes h2 !! cl = Some scope
                /\ indexArrays h2 !! sPetalIdx scope = Some (petalIdx c)
                /\ sRStar scope = rStar c
                /\ sOmegaStar scope = omegaStar c)
          /\ outs = map (fun input => Rosette.law c (snapshot h (fst input)) (snd input))
                      inputs
          /\ (forall (i j : nat) (si sj : ref) (ti tj : R),
                inputs !! i = Some (si, ti) ->
                inputs !! j = Some (sj, tj) ->
                snapshot h si = snapshot h sj ->
                outs !! i = outs !! j)).
Proof.
  intros h initialBodies inputs Hwf Hinit Hin.
  destruct (lookup_lt_is_Some_2 (bodyArrays h) initialBodies Hinit) as [arr Harr].
  destruct (makeRosetteController_spec h initialBodies arr Hwf Harr) as [c [Hc Hmk]].
  exists c, (length (scopes h)), (withClosure h c).
  split; [ exact Hc | ]. split; [ exact Hmk | ].
  split; [ apply preserved_withClosure | ].
  set (h1 := withClosure h c).
  set (scope := mkScope (length (indexArrays h)) (rStar c) (omegaStar c)).
  assert (Hscope : scopes h1 !! length (scopes h) = Some scope)
    by (unfold h1, withClosure; cbn [scopes]; apply list_lookup_middle; reflexivity).
  assert (Hidx : indexArrays h1 !! sPetalIdx scope = Some (petalIdx c))
    by (unfold h1, withClosure; cbn [indexArrays sPetalIdx scope];
        apply list_lookup_middle; reflexivity).
  destruct (evaluations_spec h1 (length (scopes h)) scope (petalIdx c) inputs
              (wellFormed_withClosure h c Hwf) Hscope Hidx Hin h1 (grownBy_refl h1))
    as [Houts Hg].
  cbv zeta.
  set (outs := fst (evaluations (length (scopes h)) inputs h1)) in *.
  set (h2 := snd (evaluations (length (scopes h)) inputs h1)) in *.
  assert (Heq : outs = map (fun input => Rosette.law c (snapshot h (fst input)) (snd input))
                         inputs).
  { rewrite Houts. cbn [sRStar sOmegaStar scope]. destruct c; reflexivity. }
  pose proof Hg as (_ & _ & Eb & Ea & Ei & Es).
  split; [ | split; [ | split; [ | split ] ] ].
  - exact (preserved_trans _ _ _ (preserved_withClosure h c) (grownBy_preserved _ _ Hg)).
  - intros state Hstate.
    destruct (lookup_lt_is_Some_2 (bodyArrays h) state Hstate) as [arr' Harr'].
    exact (snapshot_preserved h h2 state arr' Hwf
             (preserved_trans _ _ _ (preserved_withClosure h c)
                (grownBy_preserved _ _ Hg)) Harr').
  - exists scope. split; [ exact Hscope | ].
    split; [ rewrite Es; exact Hscope | ].
    split; [ rewrite Ei; exact Hidx | ]. split; reflexivity.
  - exact Heq.
  - intros i j si sj ti tj Hi Hj Hsnap. rewrite Heq.
    change (map ?f ?l) with (f <$> l). rewrite !list_lookup_fmap, Hi, Hj.
    cbn [fmap option_fmap option_map fst snd].
    rewrite Hsnap. reflexivity.
Qed.

End ClosureFacts.

Lemma law_stateless_on_ring_heap_witness :
  exists (c : Rosette.Controller) (cl : nat) (h1 : Closure.Heap),
    Rosette.makeRosetteController (Closure.snapshot Samples.ringHeap 0) = Ok c
    /\ Closure.makeRosetteController 0 Samples.ringHeap = (Ok cl, h1)
    /\ Closure.preserved Samples.ringHeap
         (snd (Closure.evaluations cl [(0%nat, 0%R); (0%nat, 1%R); (0%nat, 0%R)] h1))
    /\ fst (Closure.evaluations cl [(0%nat, 0%R); (0%nat, 1%R); (0%nat, 0%R)] h1)
       = map (fun input =>
                Rosette.law c (Closure.snapshot Samples.ringHeap (fst input))
                  (snd input))
           [(0%nat, 0%R); (0%nat, 1%R); (0%nat, 0%R)].
Proof.
  destruct (law_stateless_and_deterministic Samples.ringHeap 0
              [(0%nat, 0%R); (0%nat, 1%R); (0%nat, 0%R)])
    as (c & cl & h1 & Hc & Hmk & _ & Hrest).
  - split.
    + repeat (constructor; [ cbn; lia | ]). constructor.
    + constructor; [ | constructor ].
      repeat (constructor; [ cbn; lia | ]). constructor.
  - cbn. lia.
  - repeat (constructor; [ cbn; lia | ]). constructor.
  - cbv zeta in Hrest. destruct Hrest as (Hp & _ & _ & Houts & _).
    exists c, cl, h1.
    split; [ exact Hc | ]. split; [ exact Hmk | ]. split; [ exact Hp | exact Houts ].
Defined.

(** * The cap in double precision *)

Section DoublePrecision.

Import PrimFloat FloatOps SpecFloat.



End DoublePrecision.

(** * Further properties of [src/utils/random.ts] *)

Section RandomMore.

Import Random.
Local Open Scope Z_scope.

Lemma ToInt32_of_congr (a b : Z) : a mod two32 = b mod two32 -> ToInt32 a = ToInt32 b.
Proof.
  intros H. unfold ToInt32. f_equal.
  rewrite <- (Zplus_mod_idemp_l a), <- (Zplus_mod_idemp_l b), H. reflexivity.
Qed.

(** A call reads the captured state modulo 2^32 only. *)
Lemma next_of_congr (s s' : SeededRandom) :
  s mod two32 = s' mod two32 -> next s = next s'.
Proof.
  intros H. unfold next, nextRaw. rewrite !bor_zero_r.
  rewrite (ToInt32_of_congr (s + 1831565813) (s' + 1831565813)); [ reflexivity | ].
  rewrite <- (Zplus_mod_idemp_l s), <- (Zplus_mod_idemp_l s'), H. reflexivity.
Qed.

Lemma stateAfter_add (j k : nat) (s : SeededRandom) :
  stateAfter (j + k) s = stateAfter k (stateAfter j s).
Proof.
  revert s. induction j as [ | j IH ]; intros s; [ reflexivity | ].
  cbn [Nat.add stateAfter]. apply IH.
Qed.

Lemma increment_coprime : Z.gcd two32 1831565813 = 1.
Proof. vm_compute. reflexivity. Qed.

(** X1: the stream of a seeded generator is periodic, draw number
    [k + 2^32] is draw number [k]; and within a period the captured state
    never repeats: two states agree modulo 2^32 exactly when their call
    numbers do. *)
Theorem seeded_stream_period :
  forall (s : SeededRandom) (j k : nat),
    output (k + Z.to_nat 4294967296) s = output k s
    /\ (stateAfter j s mod 4294967296 = stateAfter k s mod 4294967296
        <-> Z.of_nat j mod 4294967296 = Z.of_nat k mod 4294967296).
Proof.
  intros s j k. split.
  - unfold output. f_equal. apply next_of_congr.
    rewrite !stateAfter_congr. unfold two32.
    rewrite Nat2Z.inj_add, Z2Nat.id by lia.
    replace (s + (Z.of_nat k + 4294967296) * 1831565813)
      with (s + Z.of_nat k * 1831565813 + 1831565813 * 4294967296) by ring.
    apply Z_mod_plus_full.
  - pose proof (stateAfter_congr j s) as Hj.
    pose proof (stateAfter_congr k s) as Hk.
    unfold two32 in Hj, Hk. rewrite Hj, Hk.
    split; intros H.
    + assert (Hd : (4294967296 | 1831565813 * (Z.of_nat j - Z.of_nat k))).
      { apply Z.mod_divide; [ lia | ].
        replace (1831565813 * (Z.of_nat j - Z.of_nat k))
          with ((s + Z.of_nat j * 1831565813) - (s + Z.of_nat k * 1831565813))
          by ring.
        rewrite Zminus_mod, H, Z.sub_diag. reflexivity. }
      apply Z.gauss in Hd; [ | exact increment_coprime ].
      destruct Hd as [q Hq].
      replace (Z.of_nat j) with (Z.of_nat k + q * 4294967296) by lia.
      apply Z_mod_plus_full.
    + rewrite <- (Zplus_mod_idemp_r (Z.of_nat j * 1831565813)).
      rewrite <- (Zplus_mod_idemp_r (Z.of_nat k * 1831565813)).
      rewrite <- (Zmult_mod_idemp_l (Z.of_nat j)), <- (Zmult_mod_idemp_l (Z.of_nat k)).
      rewrite H. reflexivity.
Qed.

Lemma next_in_unit_interval (s : SeededRandom) :
  (0 <= fst (next s) /\ fst (next s) < 1)%Q.
Proof. rewrite next_fst. apply unit_interval_of_uint32, nextRaw_output_range. Qed.

Lemma randomRange_value {St : Type} (rand : St -> Q * St) (s : St) (lo hi : Q) :
  randomRange rand s lo hi = ((lo + (hi - lo) * fst (rand s))%Q, snd (rand s)).
Proof. unfold randomRange. destruct (rand s). reflexivity. Qed.

(** X3: with the generator of [createSeededRandom], whatever its state,
    [pickRandom] on a non-empty list never throws and never returns
    [undefined]: it returns an element of the list and advances the
    generator by one call. *)
Theorem pickRandom_seeded_total :
  forall (T : Type) (s : SeededRandom) (items : list T),
    items <> [] ->
    exists a : T,
      pickRandom next s items = (Ok (Some a), stateAfter 1 s)
      /\ In a items.
Proof.
  intros T s items Hne.
  rewrite (pickRandom_nonempty next s items Hne).
  destruct (next_in_unit_interval s) as [H0 H1].
  assert (Hlen : 0 < Z.of_nat (length items))
    by (destruct items; [ congruence | cbn [length]; lia ]).
  pose proof (floor_scaled_index _ _ Hlen H0 H1) as [Hi0 Hi1].
  set (idx := Qfloor (fst (next s) * inject_Z (Z.of_nat (length items)))) in *.
  assert (Hlt : (Z.to_nat idx < length items)%nat) by lia.
  destruct (lookup_lt_is_Some_2 items (Z.to_nat idx) Hlt) as [a Ha].
  exists a. split.
  - unfold arrayGet.
    replace (idx <? 0) with false by (symmetry; apply Z.ltb_ge; exact Hi0).
    rewrite Ha. reflexivity.
  - apply list_elem_of_In. eapply list_elem_of_lookup_2. exact Ha.
Qed.

Lemma pickRandom_seeded_witness :
  exists a : string,
    pickRandom next 7 ["#f4f8ff"; "#dbeafe"]%string = (Ok (Some a), stateAfter 1 7)
    /\ In a ["#f4f8ff"; "#dbeafe"]%string.
Proof.
  apply (pickRandom_seeded_total string 7 ["#f4f8ff"; "#dbeafe"]%string).
  discriminate.
Defined.

End RandomMore.

(** * Properties of [src/services/starfieldGenerator.ts] *)

Section ColourFacts.

Import Random Starfield StarfieldSpec.
Local Open Scope Z_scope.

(** X4: [clamp(value, min, max)] never exceeds [max]; with [min <= max]
    it is at least [min]; and a value already between the two comes back
    unchanged. *)
Theorem clamp_within_bounds :
  forall value lo hi : Q,
    (clamp value lo hi <= hi)%Q
    /\ ((lo <= hi)%Q -> (lo <= clamp value lo hi)%Q)
    /\ ((lo <= value)%Q -> (value <= hi)%Q -> (clamp value lo hi == value)%Q).
Proof.
  intros value lo hi. unfold clamp. split; [ | split ].
  - apply Q.le_min_l.
  - intros Hle. apply Q.min_glb; [ exact Hle | apply Q.le_max_l ].
  - intros Hlo Hhi.
    rewrite Q.max_r by exact Hlo. apply Q.min_r. exact Hhi.
Qed.

Lemma ToInt32_byte (n : Z) : 0 <= n <= 255 -> ToInt32 n = n.
Proof. intros H. apply ToInt32_small. unfold two31. lia. Qed.

Lemma band_255 (a : Z) : band a 255 = ToInt32 a mod 256.
Proof.
  unfold band. rewrite (ToInt32_byte 255) by lia.
  change 255 with (Z.ones 8). rewrite Z.land_ones by lia.
  change (2 ^ 8) with 256.
  apply ToInt32_byte. pose proof (Z.mod_pos_bound (ToInt32 a) 256). lia.
Qed.

Lemma band_255_range (a : Z) : 0 <= band a 255 <= 255.
Proof. rewrite band_255. pose proof (Z.mod_pos_bound (ToInt32 a) 256). lia. Qed.

Lemma channel_in_unit_interval (n : Z) :
  0 <= n <= 255 -> (0 <= inject_Z n / 255 /\ inject_Z n / 255 <= 1)%Q.
Proof.
  intros [H0 H1]. unfold Qle, Qdiv, Qmult, Qinv, inject_Z. cbn. lia.
Qed.

(** X5: whatever the string, [hexToRGB] returns three channels that are
    each a whole number of 255ths between 0 and 1; it never throws. *)
Theorem hexToRGB_channels_in_unit_interval :
  forall hex : string,
    exists r g b : Z,
      hexToRGB hex = (inject_Z r / 255, inject_Z g / 255, inject_Z b / 255)%Q
      /\ (0 <= r <= 255 /\ 0 <= g <= 255 /\ 0 <= b <= 255)
      /\ (0 <= inject_Z r / 255 /\ inject_Z r / 255 <= 1)%Q
      /\ (0 <= inject_Z g / 255 /\ inject_Z g / 255 <= 1)%Q
      /\ (0 <= inject_Z b / 255 /\ inject_Z b / 255 <= 1)%Q.
Proof.
  intros hex. unfold hexToRGB.
  set (num := NumberToInt32 _).
  exists (band (sar num 16) 255), (band (sar num 8) 255), (band num 255).
  split; [ reflexivity | ].
  pose proof (band_255_range (sar num 16)).
  pose proof (band_255_range (sar num 8)).
  pose proof (band_255_range num).
  repeat split; try lia; apply channel_in_unit_interval; assumption.
Qed.

(** ** Decoding the digits *)

Lemma hexDigit_char (c : ascii) (d : Z) :
  hexDigit c = Some d ->
  isWhiteSpace c = false /\ 0 <= d <= 15
  /\ c <> "#"%char /\ c <> "+"%char /\ c <> "-"%char
  /\ c <> "x"%char /\ c <> "X"%char.
Proof.
  destruct c as [b0 b1 b2 b3 b4 b5 b6 b7].
  destruct b0, b1, b2, b3, b4, b5, b6, b7; vm_compute; intros H;
    try discriminate H; injection H as <-;
    (repeat split; try reflexivity; try discriminate).
Qed.

Lemma trimStart_keep (c : ascii) (rest : string) :
  isWhiteSpace c = false -> trimStart (String c rest) = String c rest.
Proof. intros H. cbn [trimStart]. rewrite H. reflexivity. Qed.

Lemma trimEnd_hex (s : string) (ds : list Z) : HexString s ds -> trimEnd s = s.
Proof.
  induction 1 as [ | c d s ds Hc Hs IH ]; [ reflexivity | ].
  cbn [trimEnd]. rewrite IH.
  destruct s; [ | reflexivity ].
  destruct (hexDigit_char c d Hc) as [Hw _]. rewrite Hw. reflexivity.
Qed.

Lemma trimEnd_cons_nonempty (c : ascii) (s : string) :
  trimEnd s = s -> s <> EmptyString -> trimEnd (String c s) = String c s.
Proof.
  intros H Hne. cbn [trimEnd]. rewrite H. destruct s; [ congruence | reflexivity ].
Qed.

Lemma hexPrefix_some (s : string) (ds : list Z) (acc : Z) :
  HexString s ds -> hexPrefix s (Some acc) = Some (hexValue ds acc).
Proof.
  intros H. revert acc. induction H as [ | c d s ds Hc Hs IH ]; intros acc.
  - reflexivity.
  - cbn [hexPrefix]. rewrite Hc. rewrite IH. reflexivity.
Qed.

Lemma hexPrefix_none (c : ascii) (d : Z) (s : string) (ds : list Z) :
  HexString (String c s) (d :: ds) ->
  hexPrefix (String c s) None = Some (hexValue (d :: ds) 0).
Proof.
  intros H. inversion H as [ | c' d' s' ds' Hc Hs ]; subst.
  cbn [hexPrefix]. rewrite Hc. rewrite (hexPrefix_some s ds _ Hs).
  reflexivity.
Qed.

Lemma HexString_length (s : string) (ds : list Z) :
  HexString s ds -> String.length s = length ds.
Proof. induction 1; cbn; congruence. Qed.

Lemma hexValue_bound (ds : list Z) (acc : Z) :
  Forall (fun d => 0 <= d <= 15) ds -> 0 <= acc ->
  0 <= hexValue ds acc < (acc + 1) * 16 ^ Z.of_nat (length ds).
Proof.
  intros HF. revert acc. induction HF as [ | d ds Hd HF IH ]; intros acc Hacc.
  - cbn. lia.
  - cbn [hexValue fold_left length]. fold (hexValue ds (16 * acc + d)).
    specialize (IH (16 * acc + d) ltac:(lia)).
    rewrite Nat2Z.inj_succ, Z.pow_succ_r by lia.
    assert (Hp : 0 < 16 ^ Z.of_nat (length ds)) by (apply Z.pow_pos_nonneg; lia).
    nia.
Qed.

Lemma HexString_digits (s : string) (ds : list Z) :
  HexString s ds -> Forall (fun d => 0 <= d <= 15) ds.
Proof.
  induction 1 as [ | c d s ds Hc Hs IH ]; constructor; [ | exact IH ].
  apply (hexDigit_char c d Hc).
Qed.

(** [parseInt] on a string of digits: no white space, sign or prefix to
    strip; the value is the number the digits write. *)
Lemma parseInt16_hex (c : ascii) (d : Z) (s : string) (ds : list Z) :
  HexString (String c s) (d :: ds) ->
  parseInt16 (String c s) = integerToNumber (hexValue (d :: ds) 0).
Proof.
  intros H. pose proof H as H'.
  inversion H as [ | c' d' s' ds' Hc Hs ]; subst.
  destruct (hexDigit_char c d Hc) as [Hw [_ [_ [Hplus [Hminus _]]]]].
  unfold parseInt16. rewrite (trimStart_keep c s Hw).
  assert (Hsign :
    match String c s with
    | String "-"%char rest => (-1, rest)
    | String "+"%char rest => (1, rest)
    | _ => (1, String c s)
    end = (1, String c s)).
  { destruct c as [b0 b1 b2 b3 b4 b5 b6 b7].
    destruct b0, b1, b2, b3, b4, b5, b6, b7; try reflexivity; congruence. }
  rewrite Hsign.
  assert (Hprefix :
    match String c s with
    | String "0"%char (String "x"%char rest) => rest
    | String "0"%char (String "X"%char rest) => rest
    | _ => String c s
    end = String c s).
  { destruct s as [ | c2 s2 ].
    - destruct c as [b0 b1 b2 b3 b4 b5 b6 b7].
      destruct b0, b1, b2, b3, b4, b5, b6, b7; reflexivity.
    - inversion Hs as [ | c2' d2 s2' ds2 Hc2 Hs2 ]; subst.
      destruct (hexDigit_char c2 d2 Hc2) as [_ [_ [_ [_ [_ [Hx HX]]]]]].
      destruct c as [b0 b1 b2 b3 b4 b5 b6 b7].
      destruct b0, b1, b2, b3, b4, b5, b6, b7; try reflexivity.
      destruct c2 as [e0 e1 e2 e3 e4 e5 e6 e7].
      destruct e0, e1, e2, e3, e4, e5, e6, e7; try reflexivity; congruence. }
  rewrite Hprefix, (hexPrefix_none c d s ds H').
  rewrite Z.mul_1_l. reflexivity.
Qed.

Lemma integerToNumber_small (v : Z) :
  0 <= v < 2 ^ 31 ->
  NumberToInt32 (integerToNumber v) = v.
Proof.
  intros Hv. unfold integerToNumber, roundTo53.
  rewrite Z.abs_eq by lia.
  assert (H53 : v < 2 ^ 53) by (assert (2 ^ 31 < 2 ^ 53) by (vm_compute; reflexivity); lia).
  replace (v <? 2 ^ 53) with true by (symmetry; apply Z.ltb_lt; exact H53).
  assert (H1024 : v < 2 ^ 1024).
  { assert (2 ^ 53 < 2 ^ 1024) by (apply Z.pow_lt_mono_r; lia). lia. }
  replace (2 ^ 1024 <=? v) with false by (symmetry; apply Z.leb_gt; exact H1024).
  cbn [NumberToInt32 inject_Z Qnum Qden]. rewrite Z.quot_1_r.
  assert (Hs : Z.sgn v * v = v) by (destruct (Z.eq_dec v 0); [ subst; reflexivity | rewrite Z.sgn_pos by lia; lia ]).
  rewrite Hs. apply ToInt32_small. unfold two31. change (2 ^ 31) with 2147483648 in Hv. lia.
Qed.

Lemma prefix_hash_same (s : string) : String.prefix "#" (String "#" s) = true.
Proof. cbn. destruct s; reflexivity. Qed.

Lemma prefix_hash_other (c : ascii) (s : string) :
  c <> "#"%char -> String.prefix "#" (String c s) = false.
Proof.
  intros Hc.
  change (String.prefix "#" (String c s))
    with (if ascii_dec "#" c then String.prefix "" s else false).
  destruct (ascii_dec "#" c) as [He | _ ]; [ | reflexivity ].
  congruence.
Qed.

Lemma trim_hex (c : ascii) (d : Z) (s : string) (ds : list Z) :
  HexString (String c s) (d :: ds) ->
  trim (String c s) = String c s
  /\ trim (String "#" (String c s)) = String "#" (String c s).
Proof.
  intros H. inversion H as [ | c' d' s' ds' Hc Hs ]; subst.
  destruct (hexDigit_char c d Hc) as [Hw _].
  pose proof (trimEnd_hex _ _ H) as Hend.
  split; unfold trim.
  - rewrite (trimStart_keep c s Hw). exact Hend.
  - rewrite trimStart_keep by reflexivity.
    apply trimEnd_cons_nonempty; [ exact Hend | discriminate ].
Qed.

(** The three bytes of a number below 2^24. *)
Lemma channels_of_value (v : Z) :
  0 <= v < 2 ^ 24 ->
  band (sar v 16) 255 = v / 65536
  /\ band (sar v 8) 255 = (v / 256) mod 256
  /\ band v 255 = v mod 256.
Proof.
  intros Hv. change (2 ^ 24) with 16777216 in Hv.
  assert (Hi : ToInt32 v = v) by (apply ToInt32_small; unfold two31; lia).
  rewrite !band_255. unfold sar. rewrite Hi.
  change (16 mod 32) with 16. change (8 mod 32) with 8.
  rewrite !Z.shiftr_div_pow2 by lia.
  change (2 ^ 16) with 65536. change (2 ^ 8) with 256.
  assert (H16 : 0 <= v / 65536 < 256)
    by (split; [ apply Z.div_pos; lia | apply Z.div_lt_upper_bound; lia ]).
  assert (H8 : 0 <= v / 256 < 65536)
    by (split; [ apply Z.div_pos; lia | apply Z.div_lt_upper_bound; lia ]).
  rewrite (ToInt32_small (v / 65536)) by (unfold two31; lia).
  rewrite (ToInt32_small (v / 256)) by (unfold two31; lia).
  split; [ apply Z.mod_small; lia | split; reflexivity ].
Qed.

(** What [hexToRGB] makes of a string once it is trimmed and freed of its
    [#], when six digits are left. *)
Lemma decode_six (s : string) (d1 d2 d3 d4 d5 d6 : Z) :
  HexString s [d1; d2; d3; d4; d5; d6] ->
  let num := NumberToInt32 (parseInt16 s) in
  band (sar num 16) 255 = 16 * d1 + d2
  /\ band (sar num 8) 255 = 16 * d3 + d4
  /\ band num 255 = 16 * d5 + d6.
Proof.
  intros H num.
  pose proof (HexString_digits _ _ H) as HF.
  assert (Hd : (0 <= d1 <= 15) /\ (0 <= d2 <= 15) /\ (0 <= d3 <= 15)
               /\ (0 <= d4 <= 15) /\ (0 <= d5 <= 15) /\ (0 <= d6 <= 15)).
  { repeat (apply List.Forall_cons_iff in HF; destruct HF as [? HF]).
    repeat split; lia. }
  destruct s as [ | c s' ]; [ inversion H | ].
  assert (Hnum : num = hexValue [d1; d2; d3; d4; d5; d6] 0).
  { unfold num. rewrite (parseInt16_hex c d1 s' _ H).
    apply integerToNumber_small.
    pose proof (hexValue_bound _ 0 (HexString_digits _ _ H) ltac:(lia)) as Hb.
    cbn [length] in Hb. change (2 ^ 31) with 2147483648.
    change ((0 + 1) * 16 ^ Z.of_nat 6) with 16777216 in Hb. lia. }
  rewrite Hnum. cbn [hexValue fold_left].
  set (v := 16 * (16 * (16 * (16 * (16 * (16 * 0 + d1) + d2) + d3) + d4) + d5) + d6).
  assert (Hv : 0 <= v < 2 ^ 24) by (change (2 ^ 24) with 16777216; unfold v; lia).
  destruct (channels_of_value v Hv) as [Hr [Hg Hb]].
  rewrite Hr, Hg, Hb. unfold v.
  repeat split.
  - symmetry. apply (Z.div_unique _ 65536 _ (4096 * d3 + 256 * d4 + 16 * d5 + d6)); lia.
  - symmetry. apply (Z.mod_unique _ 256 (16 * d1 + d2) (16 * d3 + d4)); [ lia | ].
    symmetry. apply (Z.div_unique _ 256 _ (16 * d5 + d6)); lia.
  - symmetry.
    apply (Z.mod_unique _ 256 (4096 * d1 + 256 * d2 + 16 * d3 + d4) (16 * d5 + d6)); lia.
Qed.

Lemma hexToRGB_of_six (hex s : string) (d1 d2 d3 d4 d5 d6 : Z) :
  HexString s [d1; d2; d3; d4; d5; d6] ->
  (if String.prefix "#" (trim hex) then slice1 (trim hex) else trim hex) = s ->
  hexToRGB hex
  = (inject_Z (16 * d1 + d2) / 255, inject_Z (16 * d3 + d4) / 255,
     inject_Z (16 * d5 + d6) / 255)%Q.
Proof.
  intros H Hn. unfold hexToRGB. rewrite Hn.
  replace (String.length s =? 3)%nat with false
    by (rewrite (HexString_length _ _ H); reflexivity).
  destruct (decode_six s _ _ _ _ _ _ H) as [Hr [Hg Hb]].
  rewrite Hr, Hg, Hb. reflexivity.
Qed.

(** X6: a colour written with six radix-16 digits, in either case, with
    or without the leading [#], decodes to its three bytes over 255: red
    from the first two digits, green from the next two, blue from the last
    two. *)
Theorem hexToRGB_six_digits :
  forall (s : string) (d1 d2 d3 d4 d5 d6 : Z),
    HexString s [d1; d2; d3; d4; d5; d6] ->
    hexToRGB (String "#" s)
    = (inject_Z (16 * d1 + d2) / 255, inject_Z (16 * d3 + d4) / 255,
       inject_Z (16 * d5 + d6) / 255)%Q
    /\ hexToRGB s = hexToRGB (String "#" s).
Proof.
  intros s d1 d2 d3 d4 d5 d6 H.
  destruct s as [ | c s' ]; [ inversion H | ].
  destruct (trim_hex c d1 s' _ H) as [Ht Ht'].
  inversion H as [ | c' d' s'' ds' Hc Hs ]; subst.
  destruct (hexDigit_char c d1 Hc) as [_ [_ [Hhash _]]].
  assert (Hwith : hexToRGB (String "#" (String c s'))
                  = (inject_Z (16 * d1 + d2) / 255, inject_Z (16 * d3 + d4) / 255,
                     inject_Z (16 * d5 + d6) / 255)%Q).
  { apply (hexToRGB_of_six _ (String c s') _ _ _ _ _ _ H).
    rewrite Ht', prefix_hash_same. reflexivity. }
  split; [ exact Hwith | ].
  rewrite Hwith.
  apply (hexToRGB_of_six _ (String c s') _ _ _ _ _ _ H).
  rewrite Ht, (prefix_hash_other c s' Hhash). reflexivity.
Qed.

Lemma hexToRGB_palette_witness :
  hexToRGB "#f4f8ff"
  = (inject_Z (16 * 15 + 4) / 255, inject_Z (16 * 15 + 8) / 255,
     inject_Z (16 * 15 + 15) / 255)%Q
  /\ hexToRGB "f4f8ff" = hexToRGB "#f4f8ff".
Proof.
  apply (hexToRGB_six_digits "f4f8ff" 15 4 15 8 15 15).
  repeat (constructor; [ reflexivity | ]). constructor.
Defined.

Lemma doubleChars_hex (s : string) (ds : list Z) :
  HexString s ds ->
  HexString (doubleChars s) (flat_map (fun d => [d; d]) ds).
Proof.
  induction 1 as [ | c d s ds Hc Hs IH ]; [ constructor | ].
  cbn [doubleChars flat_map app].
  constructor; [ exact Hc | ]. constructor; [ exact Hc | exact IH ].
Qed.

(** X7: the three-digit shorthand repeats each digit: [#abc] decodes as
    [#aabbcc], every channel being 17 times its digit over 255. *)
Theorem hexToRGB_shorthand :
  forall (s : string) (d1 d2 d3 : Z),
    HexString s [d1; d2; d3] ->
    hexToRGB (String "#" s)
    = (inject_Z (17 * d1) / 255, inject_Z (17 * d2) / 255,
       inject_Z (17 * d3) / 255)%Q
    /\ hexToRGB s = hexToRGB (String "#" s)
    /\ hexToRGB (String "#" (doubleChars s)) = hexToRGB (String "#" s).
Proof.
  intros s d1 d2 d3 H.
  pose proof (doubleChars_hex _ _ H) as H6. cbn [flat_map app] in H6.
  destruct s as [ | c s' ]; [ inversion H | ].
  destruct (trim_hex c d1 s' _ H) as [Ht Ht'].
  pose proof H as H'.
  inversion H as [ | c' d' s'' ds' Hc Hs ]; subst.
  destruct (hexDigit_char c d1 Hc) as [_ [_ [Hhash _]]].
  assert (Hshort : forall hex,
             (if String.prefix "#" (trim hex) then slice1 (trim hex) else trim hex)
             = String c s' ->
             hexToRGB hex
             = (inject_Z (17 * d1) / 255, inject_Z (17 * d2) / 255,
                inject_Z (17 * d3) / 255)%Q).
  { intros hex Hn. unfold hexToRGB. rewrite Hn.
    replace (String.length (String c s') =? 3)%nat with true
      by (rewrite (HexString_length _ _ H'); reflexivity).
    destruct (decode_six _ _ _ _ _ _ _ H6) as [Hr [Hg Hb]].
    rewrite Hr, Hg, Hb.
    replace (16 * d1 + d1) with (17 * d1) by lia.
    replace (16 * d2 + d2) with (17 * d2) by lia.
    replace (16 * d3 + d3) with (17 * d3) by lia.
    reflexivity. }
  assert (Hwith : hexToRGB (String "#" (String c s'))
                  = (inject_Z (17 * d1) / 255, inject_Z (17 * d2) / 255,
                     inject_Z (17 * d3) / 255)%Q).
  { apply Hshort. rewrite Ht', prefix_hash_same. reflexivity. }
  split; [ exact Hwith | ]. split.
  - rewrite Hwith. apply Hshort.
    rewrite Ht, (prefix_hash_other c s' Hhash). reflexivity.
  - rewrite Hwith.
    assert (Hd : hexToRGB (String "#" (doubleChars (String c s')))
                 = (inject_Z (16 * d1 + d1) / 255, inject_Z (16 * d2 + d2) / 255,
                    inject_Z (16 * d3 + d3) / 255)%Q).
    { apply (hexToRGB_of_six _ (doubleChars (String c s')) _ _ _ _ _ _ H6).
      cbn [doubleChars] in *.
      destruct (trim_hex c d1 _ _ H6) as [_ Ht6].
      rewrite Ht6, prefix_hash_same. reflexivity. }
    rewrite Hd.
    replace (16 * d1 + d1) with (17 * d1) by lia.
    replace (16 * d2 + d2) with (17 * d2) by lia.
    replace (16 * d3 + d3) with (17 * d3) by lia.
    reflexivity.
Qed.

Lemma hexToRGB_shorthand_witness :
  hexToRGB "#fa0"
  = (inject_Z (17 * 15) / 255, inject_Z (17 * 10) / 255, inject_Z (17 * 0) / 255)%Q
  /\ hexToRGB "fa0" = hexToRGB "#fa0"
  /\ hexToRGB (String "#" (doubleChars "fa0")) = hexToRGB "#fa0".
Proof.
  apply (hexToRGB_shorthand "fa0" 15 10 0).
  repeat (constructor; [ reflexivity | ]). constructor.
Defined.





End ColourFacts.

Section GeneratorFacts.

Import Random Starfield.

Lemma jitterChannel_value {St : Type} (rand : St -> Q * St) (amount channel : Q)
  (s : St) :
  jitterChannel rand amount channel s
  = (clamp (channel + (fst (rand s) * 2 - 1) * amount) 0 1, snd (rand s))%Q.
Proof. unfold jitterChannel. destruct (rand s). reflexivity. Qed.

Lemma jitterColor_value {St : Type} (rand : St -> Q * St) (r g b : Q) (s : St)
  (amount : Q) :
  let s1 := snd (rand s) in
  let s2 := snd (rand s1) in
  let s3 := snd (rand s2) in
  jitterColor rand (r, g, b) s amount
  = ((clamp (r + (fst (rand s) * 2 - 1) * amount) 0 1,
      clamp (g + (fst (rand s1) * 2 - 1) * amount) 0 1,
      clamp (b + (fst (rand s2) * 2 - 1) * amount) 0 1)%Q, s3).
Proof.
  intros s1 s2 s3. unfold jitterColor.
  rewrite !jitterChannel_value. reflexivity.
Qed.

Lemma clamp_unit (v : Q) : (0 <= clamp v 0 1 /\ clamp v 0 1 <= 1)%Q.
Proof.
  unfold clamp. split.
  - apply Q.min_glb; [ unfold Qle; cbn; lia | apply Q.le_max_l ].
  - apply Q.le_min_l.
Qed.

(** X9: whatever the base colour, the amount and the generator,
    [jitterColor] returns three channels between 0 and 1 and takes exactly
    three values from the generator, one per channel in order; with an
    amount of zero a base colour whose channels are between 0 and 1 comes
    back unchanged. *)
Theorem jitterColor_channels_clamped :
  forall (St : Type) (rand : St -> Q * St) (base : Q * Q * Q) (s : St)
         (amount : Q),
    let out := fst (jitterColor rand base s amount) in
    (0 <= fst (fst out) /\ fst (fst out) <= 1)%Q
    /\ (0 <= snd (fst out) /\ snd (fst out) <= 1)%Q
    /\ (0 <= snd out /\ snd out <= 1)%Q
    /\ snd (jitterColor rand base s amount)
       = snd (rand (snd (rand (snd (rand s)))))
    /\ ((amount == 0)%Q ->
        (0 <= fst (fst base) /\ fst (fst base) <= 1)%Q ->
        (0 <= snd (fst base) /\ snd (fst base) <= 1)%Q ->
        (0 <= snd base /\ snd base <= 1)%Q ->
        (fst (fst out) == fst (fst base) /\ snd (fst out) == snd (fst base)
         /\ snd out == snd base)%Q).
Proof.
  intros St rand [[r g] b] s amount out. unfold out.
  rewrite jitterColor_value. cbn [fst snd].
  split; [ apply clamp_unit | ]. split; [ apply clamp_unit | ].
  split; [ apply clamp_unit | ]. split; [ reflexivity | ].
  intros Ha [Hr0 Hr1] [Hg0 Hg1] [Hb0 Hb1].
  assert (Hid : forall c v : Q, (0 <= c)%Q -> (c <= 1)%Q ->
                  (clamp (c + (v * 2 - 1) * amount) 0 1 == c)%Q).
  { intros c v H0 H1.
    assert (He : (c + (v * 2 - 1) * amount == c)%Q) by (rewrite Ha; ring).
    unfold clamp. rewrite He.
    rewrite Q.max_r by exact H0. apply Q.min_r. exact H1. }
  repeat split; apply Hid; assumption.
Qed.

Local Open Scope R_scope.

Lemma randomUnitVector_value {St : Type} (rand : St -> Q * St) (s : St) (scale : R) :
  let u := Q2R (fst (rand s)) * 2 - 1 in
  let theta := Q2R (fst (rand (snd (rand s)))) * PI * 2 in
  randomUnitVector rand s scale
  = ((cos theta * sqrt (1 - u * u) * scale, sin theta * sqrt (1 - u * u) * scale,
      u * scale),
     snd (rand (snd (rand s)))).
Proof.
  intros u theta. unfold randomUnitVector, u, theta.
  destruct (rand s) as [a s1]. cbn [fst snd].
  destruct (rand s1) as [b s2]. reflexivity.
Qed.

Lemma randomPointInShell_value {St : Type} (rand : St -> Q * St) (s : St)
  (radius thickness : Q) :
  let dir := fst (randomUnitVector rand s 1) in
  let s2 := snd (rand (snd (rand s))) in
  let offset := fst (randomRange rand s2 (- thickness / 2)%Q (thickness / 2)%Q) in
  let r := Qmax 1 (radius + offset)%Q in
  randomPointInShell rand s radius thickness
  = ((fst (fst dir) * Q2R r, snd (fst dir) * Q2R r, snd dir * Q2R r),
     snd (rand s2)).
Proof.
  cbv zeta. unfold randomPointInShell.
  rewrite !randomUnitVector_value. cbn [fst snd].
  unfold randomRange.
  destruct (rand (snd (rand (snd (rand s))))) as [v s3]. cbn [fst snd]. reflexivity.
Qed.

End GeneratorFacts.

(** ** Layers *)

Section LayerFacts.

Import Random Starfield StarfieldSpec.
Variable fround : R -> R.
Context {St : Type}.
Variable rand : St -> Q * St.
Hypothesis rand_unit : forall s : St, (0 <= fst (rand s) /\ fst (rand s) < 1)%Q.

Lemma length_writeFrom (arr : list R) (offset : nat) (vals : list R) :
  length (writeFrom fround arr offset vals) = length arr.
Proof.
  revert arr offset. induction vals as [ | v vals IH ]; intros arr offset.
  - reflexivity.
  - cbn [writeFrom]. rewrite IH. apply length_insert.
Qed.

Lemma typedSet_ok (arr vals : list R) (offset : nat) :
  (offset + length vals <= length arr)%nat ->
  typedSet fround arr vals offset = Ok (writeFrom fround arr offset vals).
Proof.
  intros H. unfold typedSet.
  replace (length arr <? offset + length vals)%nat with false; [ reflexivity | ].
  symmetry. apply Nat.ltb_ge. exact H.
Qed.

Lemma pickRandom_member (s : St) (palette : list string) :
  palette <> [] ->
  exists h, pickRandom rand s palette = (Ok (Some h), snd (rand s)).
Proof.
  intros Hne. rewrite (pickRandom_nonempty rand s palette Hne).
  destruct (rand_unit s) as [H0 H1].
  assert (Hlen : (0 < Z.of_nat (length palette))%Z)
    by (destruct palette; [ congruence | cbn [length]; lia ]).
  pose proof (floor_scaled_index _ _ Hlen H0 H1) as [Hi0 Hi1].
  set (idx := Qfloor (fst (rand s) * inject_Z (Z.of_nat (length palette)))) in *.
  assert (Hlt : (Z.to_nat idx < length palette)%nat) by lia.
  destruct (lookup_lt_is_Some_2 palette (Z.to_nat idx) Hlt) as [a Ha].
  exists a. unfold arrayGet.
  replace (idx <? 0)%Z with false by (symmetry; apply Z.ltb_ge; exact Hi0).
  rewrite Ha. reflexivity.
Qed.

Lemma starStep_ok (layerConfig : StarLayerConfig) (palette : list string)
  (colorJitter : Q) (n i : nat) (buf : Buffers) (s : St) :
  palette <> [] -> (i < n)%nat -> sizedFor n buf ->
  exists buf',
    starStep fround rand layerConfig palette colorJitter (buf, s) i
    = Ok (buf', advance rand 13 s)
    /\ sizedFor n buf'.
Proof.
  intros Hne Hi (Hp & Hc & Hs & Hts & Htp & Hta & Hd).
  unfold starStep.
  rewrite randomPointInShell_value. cbv zeta.
  set (s3 := snd (rand (snd (rand (snd (rand s)))))).
  match goal with |- context [typedSet fround (positions buf) ?v ?o] =>
    rewrite (typedSet_ok (positions buf) v o)
      by (unfold tripleToList; cbn [length]; lia) end.
  cbn [bindR].
  destruct (pickRandom_member s3 palette Hne) as [h Hh]. rewrite Hh. cbn [bindR].
  destruct (hexToRGB h) as [[cr cg] cb].
  rewrite jitterColor_value. cbv zeta.
  match goal with |- context [typedSet fround (colors buf) ?v ?o] =>
    rewrite (typedSet_ok (colors buf) v o)
      by (unfold colorToList; cbn [length]; lia) end.
  cbn [bindR].
  rewrite !randomRange_value.
  match goal with |- context [let '(phase, s0) := rand ?x in _] =>
    destruct (rand x) as [phase s9] eqn:Eph end.
  rewrite !randomRange_value.
  rewrite randomUnitVector_value. cbv zeta.
  match goal with |- context [typedSet fround (drift buf) ?v ?o] =>
    rewrite (typedSet_ok (drift buf) v o)
      by (unfold tripleToList; cbn [length]; lia) end.
  cbn [bindR].
  eexists. split.
  - f_equal. f_equal. cbn [advance]. subst s3.
    apply (f_equal snd) in Eph. cbn [snd] in Eph. rewrite <- Eph. reflexivity.
  - unfold sizedFor, typedPut. cbn [positions colors sizes twinkleSpeed twinklePhase twinkleAmplitude drift].
    rewrite !length_writeFrom, !length_insert. repeat split; assumption.
Qed.

Lemma advance_add (j k : nat) (s : St) :
  advance rand (j + k) s = advance rand k (advance rand j s).
Proof.
  revert s. induction j as [ | j IH ]; intros s; [ reflexivity | ].
  cbn [Nat.add advance]. apply IH.
Qed.

Lemma starLoop_ok (layerConfig : StarLayerConfig) (palette : list string)
  (colorJitter : Q) (n k start : nat) (buf : Buffers) (s : St) :
  palette <> [] -> (start + k <= n)%nat -> sizedFor n buf ->
  exists buf',
    forOf (starStep fround rand layerConfig palette colorJitter) (seq start k) (buf, s)
    = Ok (buf', advance rand (13 * k) s)
    /\ sizedFor n buf'.
Proof.
  intros Hne. revert start buf s.
  induction k as [ | k IH ]; intros start buf s Hle Hsz.
  - exists buf. split; [ reflexivity | exact Hsz ].
  - cbn [seq forOf].
    destruct (starStep_ok layerConfig palette colorJitter n start buf s Hne)
      as [buf1 [Hstep Hsz1]]; [ lia | exact Hsz | ].
    rewrite Hstep. cbn [bindR].
    destruct (IH (S start) buf1 (advance rand 13 s)) as [buf2 [Hrun Hsz2]];
      [ lia | exact Hsz1 | ].
    exists buf2. split; [ | exact Hsz2 ].
    rewrite Hrun. f_equal. f_equal.
    replace (13 * S k)%nat with (13 + 13 * k)%nat by lia.
    symmetry. apply advance_add.
Qed.

Lemma newFloat32Array_ok (n : Z) :
  (0 <= n)%Z -> newFloat32Array n = Ok (replicate (Z.to_nat n) 0%R).
Proof.
  intros H. unfold newFloat32Array.
  replace (n <? 0)%Z with false by (symmetry; apply Z.ltb_ge; exact H).
  reflexivity.
Qed.

Lemma fresh_buffers_sized (count : Z) :
  (0 <= count)%Z ->
  sizedFor (Z.to_nat count)
    (mkBuffers (replicate (Z.to_nat (count * 3)) 0%R)
       (replicate (Z.to_nat (count * 3)) 0%R)
       (replicate (Z.to_nat count) 0%R) (replicate (Z.to_nat count) 0%R)
       (replicate (Z.to_nat count) 0%R) (replicate (Z.to_nat count) 0%R)
       (replicate (Z.to_nat (count * 3)) 0%R)).
Proof.
  intros H. unfold sizedFor.
  cbn [positions colors sizes twinkleSpeed twinklePhase twinkleAmplitude drift].
  rewrite !length_replicate. repeat split; lia.
Qed.

Lemma generateLayer_ok (layerConfig : StarLayerConfig) (palette : list string)
  (colorJitter : Q) (s : St) :
  (0 <= count layerConfig)%Z -> palette <> [] ->
  exists buf,
    generateLayer fround rand layerConfig palette colorJitter s
    = Ok (mkStarLayerData (id layerConfig) (count layerConfig)
            (parallaxFactor layerConfig) buf,
          advance rand (13 * Z.to_nat (count layerConfig)) s)
    /\ sizedFor (Z.to_nat (count layerConfig)) buf.
Proof.
  intros Hc Hne. unfold generateLayer.
  rewrite !newFloat32Array_ok by lia. cbn [bindR].
  destruct (starLoop_ok layerConfig palette colorJitter (Z.to_nat (count layerConfig))
              (Z.to_nat (count layerConfig)) 0 _ s Hne (Nat.le_refl _)
              (fresh_buffers_sized _ Hc)) as [buf [Hrun Hsz]].
  rewrite Hrun. cbn [bindR]. exists buf. split; [ reflexivity | exact Hsz ].
Qed.

Lemma sizedFor_lengths (count : Z) (buf : Buffers) :
  (0 <= count)%Z -> sizedFor (Z.to_nat count) buf ->
  length (positions buf) = Z.to_nat (count * 3)
  /\ length (colors buf) = Z.to_nat (count * 3)
  /\ length (sizes buf) = Z.to_nat count
  /\ length (twinkleSpeed buf) = Z.to_nat count
  /\ length (twinklePhase buf) = Z.to_nat count
  /\ length (twinkleAmplitude buf) = Z.to_nat count
  /\ length (drift buf) = Z.to_nat (count * 3).
Proof.
  intros Hc (Hp & Hcl & Hs & Hts & Htp & Hta & Hd).
  repeat split; lia.
Qed.

(** X12: with generator values between 0 and 1, a count that is not
    negative and a non-empty palette, [generateLayer] returns a layer with
    the id, count and parallax factor of its configuration, three array
    entries per star for positions, colours and drift, one per star for
    sizes and the three twinkle arrays, and it takes exactly thirteen
    values from the generator per star. *)
Theorem generateLayer_fills_arrays :
  forall (layerConfig : StarLayerConfig) (palette : list string)
         (colorJitter : Q) (s : St),
    (0 <= count layerConfig)%Z -> palette <> [] ->
    exists data : StarLayerData,
      generateLayer fround rand layerConfig palette colorJitter s
      = Ok (data, advance rand (13 * Z.to_nat (count layerConfig)) s)
      /\ layerId data = id layerConfig
      /\ layerCount data = count layerConfig
      /\ layerParallaxFactor data = parallaxFactor layerConfig
      /\ length (positions (buffers data)) = Z.to_nat (count layerConfig * 3)
      /\ length (colors (buffers data)) = Z.to_nat (count layerConfig * 3)
      /\ length (sizes (buffers data)) = Z.to_nat (count layerConfig)
      /\ length (twinkleSpeed (buffers data)) = Z.to_nat (count layerConfig)
      /\ length (twinklePhase (buffers data)) = Z.to_nat (count layerConfig)
      /\ length (twinkleAmplitude (buffers data)) = Z.to_nat (count layerConfig)
      /\ length (drift (buffers data)) = Z.to_nat (count layerConfig * 3).
Proof.
  intros layerConfig palette colorJitter s Hc Hne.
  destruct (generateLayer_ok layerConfig palette colorJitter s Hc Hne)
    as [buf [Hrun Hsz]].
  eexists. split; [ exact Hrun | ].
  cbn [layerId layerCount layerParallaxFactor buffers].
  split; [ reflexivity | ]. split; [ reflexivity | ]. split; [ reflexivity | ].
  exact (sizedFor_lengths _ buf Hc Hsz).
Qed.

(** X13: [generateLayer] fails in two ways only.  A negative count
    throws the RangeError of [new Float32Array] before any value is drawn;
    a positive count with an empty palette throws the error of
    [pickRandom].  A count of zero returns seven empty arrays and leaves
    the generator as it was, even with an empty palette. *)
Theorem generateLayer_errors :
  forall (layerConfig : StarLayerConfig) (palette : list string)
         (colorJitter : Q) (s : St),
    ((count layerConfig < 0)%Z ->
     generateLayer fround rand layerConfig palette colorJitter s
     = Throw (rangeError "Invalid typed array length"))
    /\ ((0 < count layerConfig)%Z -> palette = [] ->
        generateLayer fround rand layerConfig palette colorJitter s
        = Throw (ThrownError "Cannot pick from an empty array"))
    /\ (count layerConfig = 0%Z ->
        generateLayer fround rand layerConfig palette colorJitter s
        = Ok (mkStarLayerData (id layerConfig) 0 (parallaxFactor layerConfig)
                (mkBuffers [] [] [] [] [] [] []), s)).
Proof.
  intros layerConfig palette colorJitter s. split; [ | split ].
  - intros Hneg. unfold generateLayer, newFloat32Array.
    replace (count layerConfig * 3 <? 0)%Z with true
      by (symmetry; apply Z.ltb_lt; lia).
    reflexivity.
  - intros Hpos ->. unfold generateLayer.
    rewrite !newFloat32Array_ok by lia. cbn [bindR].
    destruct (Z.to_nat (count layerConfig)) as [ | n ] eqn:Hn; [ lia | ].
    cbn [seq forOf]. unfold starStep at 1.
    rewrite randomPointInShell_value. cbv zeta.
    match goal with |- context [typedSet fround ?a ?v ?o] =>
      rewrite (typedSet_ok a v o)
        by (unfold tripleToList; cbn [length positions];
            rewrite length_replicate; lia) end.
    cbn [bindR]. rewrite pickRandom_empty. cbn [bindR]. reflexivity.
  - intros Hz. unfold generateLayer. rewrite Hz. reflexivity.
Qed.

Lemma generateLayers_ok (layers : list StarLayerConfig) (palette : list string)
  (colorJitter : Q) (s : St) :
  Forall (fun layer => (0 <= count layer)%Z) layers -> palette <> [] ->
  exists datas : list StarLayerData,
    generateLayers fround rand layers palette colorJitter s
    = Ok (datas, advance rand (13 * totalStars layers) s)
    /\ Forall2 answers layers datas.
Proof.
  intros HF Hne. revert s.
  induction HF as [ | layer layers Hc HF IH ]; intros s.
  - exists []. split; [ reflexivity | constructor ].
  - cbn [generateLayers].
    destruct (generateLayer_ok layer palette colorJitter s Hc Hne) as [buf [Hrun Hsz]].
    rewrite Hrun. cbn [bindR].
    destruct (IH (advance rand (13 * Z.to_nat (count layer)) s)) as [datas [Hrest HF2]].
    rewrite Hrest. cbn [bindR].
    eexists. split.
    + f_equal. f_equal. cbn [totalStars fold_right]. fold (totalStars layers).
      replace (13 * (Z.to_nat (count layer) + totalStars layers))%nat
        with (13 * Z.to_nat (count layer) + 13 * totalStars layers)%nat by lia.
      symmetry. apply advance_add.
    + constructor; [ | exact HF2 ].
      unfold answers. cbn [layerId layerCount layerParallaxFactor buffers].
      split; [ reflexivity | ]. split; [ reflexivity | ].
      split; [ reflexivity | exact Hsz ].
Qed.

(** X14: the layers of a starfield share one generator, in order: with
    generator values between 0 and 1, counts that are not negative and a
    non-empty palette, the layers are generated one for one with their
    configurations, and the layer that follows the layers [before] is
    what [generateLayer] makes from the generator advanced by thirteen
    values per star of [before]. *)
Theorem generateLayers_share_the_generator :
  forall (before after : list StarLayerConfig) (layer : StarLayerConfig)
         (palette : list string) (colorJitter : Q) (s : St),
    Forall (fun l => (0 <= count l)%Z) (before ++ layer :: after) ->
    palette <> [] ->
    exists (datas : list StarLayerData) (data : StarLayerData) (s' : St),
      generateLayers fround rand (before ++ layer :: after) palette colorJitter s
      = Ok (datas,
            advance rand (13 * totalStars (before ++ layer :: after)) s)
      /\ length datas = length (before ++ layer :: after)
      /\ generateLayer fround rand layer palette colorJitter
           (advance rand (13 * totalStars before) s) = Ok (data, s')
      /\ datas !! length before = Some data.
Proof.
  intros before after layer palette colorJitter s HF Hne.
  apply Forall_app in HF as [HFb HFa].
  apply List.Forall_cons_iff in HFa as [Hc HFa].
  revert s. induction HFb as [ | b before Hb HFb IH ]; intros s.
  - cbn [app length]. change (totalStars []) with 0%nat.
    rewrite Nat.mul_0_r. cbn [advance generateLayers].
    destruct (generateLayer_ok layer palette colorJitter s Hc Hne) as [buf [Hrun Hsz]].
    destruct (generateLayers_ok after palette colorJitter
                (advance rand (13 * Z.to_nat (count layer)) s) HFa Hne)
      as [datas [Hrest HF2]].
    rewrite Hrun. cbn [bindR]. rewrite Hrest. cbn [bindR].
    eexists. eexists. eexists. split; [ | split; [ | split ] ].
    + f_equal. f_equal. cbn [totalStars fold_right]. fold (totalStars after).
      replace (13 * (Z.to_nat (count layer) + totalStars after))%nat
        with (13 * Z.to_nat (count layer) + 13 * totalStars after)%nat by lia.
      symmetry. apply advance_add.
    + cbn [length]. f_equal. symmetry. exact (Forall2_length _ _ _ HF2).
    + reflexivity.
    + reflexivity.
  - cbn [app generateLayers].
    destruct (generateLayer_ok b palette colorJitter s Hb Hne) as [buf [Hrun Hsz]].
    rewrite Hrun. cbn [bindR].
    destruct (IH (advance rand (13 * Z.to_nat (count b)) s))
      as [datas [data [s' [Hrest [Hlen [Hlayer Hat]]]]]].
    rewrite Hrest. cbn [bindR].
    exists (mkStarLayerData (id b) (count b) (parallaxFactor b) buf :: datas), data, s'.
    split; [ | split; [ | split ] ].
    + f_equal. f_equal. cbn [totalStars fold_right].
      fold (totalStars (before ++ layer :: after)).
      replace (13 * (Z.to_nat (count b) + totalStars (before ++ layer :: after)))%nat
        with (13 * Z.to_nat (count b) + 13 * totalStars (before ++ layer :: after))%nat
        by lia.
      symmetry. apply advance_add.
    + cbn [length]. rewrite Hlen. reflexivity.
    + rewrite <- Hlayer. f_equal. cbn [totalStars fold_right]. fold (totalStars before).
      replace (13 * (Z.to_nat (count b) + totalStars before))%nat
        with (13 * Z.to_nat (count b) + 13 * totalStars before)%nat by lia.
      apply advance_add.
    + cbn [length]. exact Hat.
Qed.

End LayerFacts.

Lemma generateLayer_near_witness :
  exists data : Starfield.StarLayerData,
    Starfield.generateLayer (fun r => r) Random.next Samples.nearLayer
      Samples.palette 0.1 1337%Z
    = Ok (data,
          StarfieldSpec.advance Random.next
            (13 * Z.to_nat (Starfield.count Samples.nearLayer)) 1337%Z)
    /\ Starfield.layerId data = Starfield.id Samples.nearLayer
    /\ Starfield.layerCount data = Starfield.count Samples.nearLayer
    /\ Starfield.layerParallaxFactor data = Starfield.parallaxFactor Samples.nearLayer
    /\ length (Starfield.positions (Starfield.buffers data))
       = Z.to_nat (Starfield.count Samples.nearLayer * 3)
    /\ length (Starfield.colors (Starfield.buffers data))
       = Z.to_nat (Starfield.count Samples.nearLayer * 3)
    /\ length (Starfield.sizes (Starfield.buffers data))
       = Z.to_nat (Starfield.count Samples.nearLayer)
    /\ length (Starfield.twinkleSpeed (Starfield.buffers data))
       = Z.to_nat (Starfield.count Samples.nearLayer)
    /\ length (Starfield.twinklePhase (Starfield.buffers data))
       = Z.to_nat (Starfield.count Samples.nearLayer)
    /\ length (Starfield.twinkleAmplitude (Starfield.buffers data))
       = Z.to_nat (Starfield.count Samples.nearLayer)
    /\ length (Starfield.drift (Starfield.buffers data))
       = Z.to_nat (Starfield.count Samples.nearLayer * 3).
Proof.
  apply (generateLayer_fills_arrays (fun r => r) Random.next next_in_unit_interval
           Samples.nearLayer Samples.palette 0.1 1337%Z).
  - cbn [Starfield.count Samples.nearLayer]. lia.
  - discriminate.
Defined.

Lemma generateLayers_default_witness :
  exists (datas : list Starfield.StarLayerData) (data : Starfield.StarLayerData)
         (s' : Random.SeededRandom),
    Starfield.generateLayers (fun r => r) Random.next
      ([Samples.nearLayer] ++ Samples.nearLayer :: []) Samples.palette 0.1 1337%Z
    = Ok (datas,
          StarfieldSpec.advance Random.next
            (13 * StarfieldSpec.totalStars ([Samples.nearLayer] ++ Samples.nearLayer :: []))
            1337%Z)
    /\ length datas = length ([Samples.nearLayer] ++ Samples.nearLayer :: [])
    /\ Starfield.generateLayer (fun r => r) Random.next Samples.nearLayer
         Samples.palette 0.1
         (StarfieldSpec.advance Random.next
            (13 * StarfieldSpec.totalStars [Samples.nearLayer]) 1337%Z)
       = Ok (data, s')
    /\ datas !! length [Samples.nearLayer] = Some data.
Proof.
  apply (generateLayers_share_the_generator (fun r => r) Random.next
           next_in_unit_interval [Samples.nearLayer] [] Samples.nearLayer
           Samples.palette 0.1 1337%Z).
  - repeat constructor; cbn [Starfield.count Samples.nearLayer]; lia.
  - discriminate.
Defined.

Section StarfieldFacts.

Import Random Starfield StarfieldSpec.

Variable fround : R -> R.

Lemma answers_sized :
  forall (configured : list StarLayerConfig) (datas : list StarLayerData),
    Forall (fun layer => (0 <= count layer)%Z) configured ->
    Forall2 answers configured datas ->
    Forall2
      (fun layer data =>
         layerId data = id layer
         /\ layerCount data = count layer
         /\ layerParallaxFactor data = parallaxFactor layer
         /\ length (positions (buffers data)) = Z.to_nat (count layer * 3)
         /\ length (colors (buffers data)) = Z.to_nat (count layer * 3)
         /\ length (sizes (buffers data)) = Z.to_nat (count layer)
         /\ length (twinkleSpeed (buffers data)) = Z.to_nat (count layer)
         /\ length (twinklePhase (buffers data)) = Z.to_nat (count layer)
         /\ length (twinkleAmplitude (buffers data)) = Z.to_nat (count layer)
         /\ length (drift (buffers data)) = Z.to_nat (count layer * 3))
      configured datas.
Proof.
  intros configured datas Hcounts HF2.
  induction HF2 as [ | layer data ls ds Ha HF2 IH ].
  - constructor.
  - apply List.Forall_cons_iff in Hcounts as [Hc Hcounts].
    constructor; [ | exact (IH Hcounts) ].
    destruct Ha as (Hid & Hcnt & Hpar & Hsz).
    split; [ exact Hid | ]. split; [ exact Hcnt | ]. split; [ exact Hpar | ].
    exact (sizedFor_lengths _ _ Hc Hsz).
Qed.

(** X15: [generateStarfield] answers its configuration layer by layer:
    when the merged palette is not empty and no count is negative, it
    returns one layer per configured layer, in order, each with the id,
    count and parallax factor of its configuration and arrays of three
    entries per star (positions, colours, drift) or one entry per star
    (sizes and twinkle arrays).  Layers given in the partial configuration
    replace the default ones; with none given, or no configuration at all,
    the three default layers are used. *)
Theorem generateStarfield_answers_config :
  forall config : option PartialStarfieldConfig,
    let merged := mergeConfig config in
    palette merged <> [] ->
    Forall (fun layer => (0 <= count layer)%Z) (layers merged) ->
    (exists datas : list StarLayerData,
       generateStarfield fround config = Ok datas
       /\ length datas = length (layers merged)
       /\ Forall2
            (fun layer data =>
               layerId data = id layer
               /\ layerCount data = count layer
               /\ layerParallaxFactor data = parallaxFactor layer
               /\ length (positions (buffers data)) = Z.to_nat (count layer * 3)
               /\ length (colors (buffers data)) = Z.to_nat (count layer * 3)
               /\ length (sizes (buffers data)) = Z.to_nat (count layer)
               /\ length (twinkleSpeed (buffers data)) = Z.to_nat (count layer)
               /\ length (twinklePhase (buffers data)) = Z.to_nat (count layer)
               /\ length (twinkleAmplitude (buffers data)) = Z.to_nat (count layer)
               /\ length (drift (buffers data)) = Z.to_nat (count layer * 3))
            (layers merged) datas)
    /\ (forall (c : PartialStarfieldConfig) (given : list StarLayerConfig),
          config = Some c -> layers' c = Some given -> layers merged = given)
    /\ ((config = None \/ exists c, config = Some c /\ layers' c = None) ->
        layers merged = layers DEFAULT_STARFIELD_CONFIG).
Proof.
  intros config merged Hpal Hcounts. split; [ | split ].
  - unfold generateStarfield. fold merged.
    destruct (generateLayers_ok fround next next_in_unit_interval (layers merged)
                (palette merged) (colorJitter merged)
                (createSeededRandom (seed merged)) Hcounts Hpal)
      as [datas [Hrun HF2]].
    rewrite Hrun. cbn [bindR]. exists datas.
    split; [ reflexivity | ].
    split; [ symmetry; exact (Forall2_length _ _ _ HF2) | ].
    exact (answers_sized _ _ Hcounts HF2).
  - intros c given -> Hgiven. unfold merged, mergeConfig.
    cbn [layers]. rewrite Hgiven. apply map_id.
  - intros [-> | [c [-> Hnone]]]; unfold merged, mergeConfig; cbn [layers].
    + reflexivity.
    + rewrite Hnone. reflexivity.
Qed.

End StarfieldFacts.

Lemma generateStarfield_default_witness :
  exists datas : list Starfield.StarLayerData,
    Starfield.generateStarfield (fun r => r) None = Ok datas
    /\ length datas = length (Starfield.layers (Starfield.mergeConfig None)).
Proof.
  destruct (generateStarfield_answers_config (fun r => r) None) as [[datas [Hrun [Hlen _]]] _].
  - discriminate.
  - repeat constructor; cbn [Starfield.count]; lia.
  - exists datas. split; [ exact Hrun | exact Hlen ].
Defined.

(** * More on the station-keeper, the trails and the registry *)

Section RosetteMore.

Import Rosette RosetteSpec.
Local Open Scope R_scope.

Lemma covers_length (idx : list nat) (s1 s2 : list BodyState) :
  length s1 = length s2 -> covers idx s1 -> covers idx s2.
Proof. unfold covers. intros E. rewrite E. trivial. Qed.

Lemma ringMembers_agree (idx : list nat) (s1 s2 : list BodyState) :
  (forall i, In i idx -> s1 !! i = s2 !! i) ->
  ringMembers idx s1 = ringMembers idx s2.
Proof.
  unfold ringMembers. induction idx as [ | i idx IH ]; intros H; [ reflexivity | ].
  cbn [omap list_omap]. rewrite (H i) by (left; reflexivity).
  rewrite IH by (intros j Hj; apply H; right; exact Hj). reflexivity.
Qed.

Lemma stationKeeping_agree (c : Controller) (s1 s2 : list BodyState) :
  length s1 = length s2 ->
  (forall i, In i (petalIdx c) -> s1 !! i = s2 !! i) ->
  stationKeeping c s1 = stationKeeping c s2.
Proof.
  intros Hlen Hag. unfold stationKeeping. cbv zeta.
  rewrite (ringMembers_agree _ s1 s2 Hag), Hlen.
  destruct (Rlt_dec 0 (totalMass (ringMembers (petalIdx c) s2))); [ | reflexivity ].
  apply list_eq. intros i. rewrite !list_lookup_imap.
  destruct (in_dec Nat.eq_dec i (petalIdx c)) as [Hi | Hi].
  - rewrite (Hag i Hi). reflexivity.
  - destruct (s1 !! i) as [ b1 | ] eqn:E1; destruct (s2 !! i) as [ b2 | ] eqn:E2;
      cbn; try reflexivity.
    + apply lookup_lt_Some in E1. apply lookup_ge_None in E2. lia.
    + apply lookup_lt_Some in E2. apply lookup_ge_None in E1. lia.
Qed.

(** X16: the law reads the ring bodies only: two snapshots of the same
    length that hold the same bodies at the ring indices get the same
    answer, whatever the other bodies are. *)
Theorem law_reads_ring_only :
  forall (c : Controller) (state1 state2 : list BodyState) (t1 t2 : R),
    length state1 = length state2 ->
    (forall i, In i (petalIdx c) -> state1 !! i = state2 !! i) ->
    law c state1 t1 = law c state2 t2.
Proof.
  intros c s1 s2 t1 t2 Hlen Hag.
  destruct (covers_dec (petalIdx c) s1) as [Hc | Hnc].
  - rewrite (law_value c s1 t1 Hc).
    rewrite (law_value c s2 t2 (covers_length _ _ _ Hlen Hc)).
    rewrite (stationKeeping_agree c s1 s2 Hlen Hag). reflexivity.
  - rewrite (law_uncovered c s1 t1 Hnc).
    symmetry. apply law_uncovered. intros Hc. apply Hnc.
    exact (covers_length _ _ _ (eq_sym Hlen) Hc).
Qed.

End RosetteMore.

Lemma law_reads_ring_only_witness :
  Rosette.law (Rosette.mkController [1%nat; 2%nat] 5 0) Samples.ring 0
  = Rosette.law (Rosette.mkController [1%nat; 2%nat] 5 0)
      [Samples.petal1; Samples.petal1; Samples.petal2] 1.
Proof.
  apply law_reads_ring_only.
  - reflexivity.
  - intros i [ <- | [ <- | [] ] ]; reflexivity.
Defined.


Section TrailFacts.
Import App.
Local Open Scope Q_scope.

(** X17: trails get shorter as the speed grows: [getTrailLength] is one of
    60, 80, 120 and 200, and a speed at least as high gives a trail at
    most as long. *)
Theorem getTrailLength_shortens_with_speed :
  forall speed1 speed2 : Q,
    speed1 <= speed2 ->
    (60 <= getTrailLength speed2 <= getTrailLength speed1)%Z
    /\ (getTrailLength speed1 <= 200)%Z
    /\ In (getTrailLength speed1) [60; 80; 120; 200]%Z.
Proof.
  intros s1 s2 Hle. unfold getTrailLength.
  destruct (Qlt_le_dec 8 s1), (Qlt_le_dec 5 s1), (Qlt_le_dec 2 s1),
    (Qlt_le_dec 8 s2), (Qlt_le_dec 5 s2), (Qlt_le_dec 2 s2);
    try (exfalso; lra);
    (split; [ lia | split; [ lia | cbn; tauto ] ]).
Qed.

Lemma getTrailLength_witness :
  (60 <= getTrailLength 6 <= getTrailLength 1)%Z
  /\ (getTrailLength 1 <= 200)%Z
  /\ In (getTrailLength 1) [60; 80; 120; 200]%Z.
Proof.
  apply getTrailLength_shortens_with_speed. unfold Qle. cbn. lia.
Defined.

End TrailFacts.


Section RegistryFacts.

Import Rosette Registry.

Variable PRESETS : list Preset.

Lemma modeId_buildMode (p : Preset) : modeId (buildMode p) = presetName p.
Proof. unfold buildMode. destruct (String.eqb (presetName p) "Rosette"); reflexivity. Qed.

Lemma modeLabel_buildMode (p : Preset) : modeLabel (buildMode p) = presetLabel p.
Proof. unfold buildMode. destruct (String.eqb (presetName p) "Rosette"); reflexivity. Qed.

Lemma find_first_preset (id : string) (presets : list Preset) :
  match List.find (fun m => String.eqb (modeId m) id) (map buildMode presets) with
  | Some m =>
      exists before preset after,
        presets = before ++ preset :: after
        /\ presetName preset = id
        /\ Forall (fun p => presetName p <> id) before
        /\ m = buildMode preset
  | None => Forall (fun p => presetName p <> id) presets
  end.
Proof.
  induction presets as [ | p presets IH ]; [ constructor | ].
  cbn [map List.find]. rewrite modeId_buildMode.
  destruct (String.eqb (presetName p) id) eqn:E.
  - apply String.eqb_eq in E.
    exists [], p, presets. repeat split; [ exact E | constructor ].
  - apply String.eqb_neq in E.
    destruct (List.find _ (map buildMode presets)) as [ m | ].
    + destruct IH as (before & preset & after & -> & Hn & Hb & ->).
      exists (p :: before), preset, after.
      repeat split; [ exact Hn | constructor; assumption ].
    + constructor; assumption.
Qed.

(** X18: [getModeById(id)] returns the mode built from the first preset
    named [id], with that id and that preset's label, one of the modes
    [getAllModes()] lists; when no preset has the name it throws
    ["Mode not found: " ++ id]. *)
Theorem getModeById_finds_first_preset :
  forall id : string,
    match getModeById PRESETS id with
    | Ok m =>
        exists (before : list Preset) (preset : Preset) (after : list Preset),
          PRESETS = before ++ preset :: after
          /\ Forall (fun p => presetName p <> id) before
          /\ presetName preset = id
          /\ m = buildMode preset
          /\ modeId m = id
          /\ modeLabel m = presetLabel preset
          /\ In m (getAllModes PRESETS)
    | Throw e =>
        e = ThrownError ("Mode not found: " ++ id)
        /\ Forall (fun p => presetName p <> id) PRESETS
    end.
Proof.
  intros id. unfold getModeById, modes.
  pose proof (find_first_preset id PRESETS) as H.
  destruct (List.find _ (map buildMode PRESETS)) as [ m | ].
  - destruct H as (before & preset & after & HP & Hn & Hb & Hm).
    exists before, preset, after.
    split; [ exact HP | ]. split; [ exact Hb | ]. split; [ exact Hn | ].
    split; [ exact Hm | ].
    split; [ rewrite Hm, modeId_buildMode; exact Hn | ].
    split; [ rewrite Hm; apply modeLabel_buildMode | ].
    unfold getAllModes, modes. rewrite Hm, HP. apply in_map.
    apply in_or_app. right. left. reflexivity.
  - split; [ reflexivity | exact H ].
Qed.

(** X19: [getModeOptions()] lists the presets in order, one option per
    preset with the preset's name as id and its label, and the id of
    every option resolves with [getModeById]. *)
Theorem getModeOptions_lists_presets :
  forall (i : nat) (preset : Preset),
    PRESETS !! i = Some preset ->
    length (getModeOptions PRESETS) = length PRESETS
    /\ getModeOptions PRESETS !! i = Some (presetName preset, presetLabel preset)
    /\ exists m : Mode,
         getModeById PRESETS (presetName preset) = Ok m
         /\ modeId m = presetName preset.
Proof.
  intros i preset Hi.
  split; [ unfold getModeOptions, modes; rewrite !length_map; reflexivity | ].
  split.
  - unfold getModeOptions, modes. rewrite map_map.
    change (map ?f ?l) with (f <$> l). rewrite list_lookup_fmap, Hi.
    cbn [fmap option_fmap option_map].
    rewrite modeId_buildMode, modeLabel_buildMode. reflexivity.
  - unfold getModeById, modes.
    pose proof (find_first_preset (presetName preset) PRESETS) as H.
    destruct (List.find _ (map buildMode PRESETS)) as [ m | ].
    + destruct H as (before & found & after & _ & Hn & _ & Hm).
      exists m. split; [ reflexivity | ].
      rewrite Hm, modeId_buildMode. exact Hn.
    + exfalso. rewrite List.Forall_forall in H.
      apply (H preset); [ | reflexivity ].
      apply list_elem_of_In. eapply list_elem_of_lookup_2. exact Hi.
Qed.

End RegistryFacts.

Lemma getModeOptions_sample_witness :
  length (Registry.getModeOptions Samples.presets) = length Samples.presets
  /\ Registry.getModeOptions Samples.presets !! 1%nat
     = Some ("Rosette", "Rosette Hexa-Ring")%string
  /\ exists m : Registry.Mode,
       Registry.getModeById Samples.presets "Rosette" = Ok m
       /\ Registry.modeId m = "Rosette"%string.
Proof.
  apply (getModeOptions_lists_presets Samples.presets 1%nat
           (Registry.mkPreset "Rosette" "Rosette Hexa-Ring" Samples.ring)).
  reflexivity.
Defined.

(** ** Copies on the heap *)

Section CopyFacts.

Import Rosette Closure.
Local Open Scope R_scope.

Lemma bodyAt_Some (h : Heap) (r : ref) (b : BodyState) :
  bodyAt h r = Some b ->
  exists o : BodyObject,
    bodies h !! r = Some o
    /\ vectors h !! oPosition o = Some (position b)
    /\ vectors h !! oVelocity o = Some (velocity b)
    /\ b = mkBodyState (oName o) (oMass o) (oRadius o) (oColor o) (oIsStar o)
             (position b) (velocity b).
Proof.
  unfold bodyAt. intros H.
  destruct (bodies h !! r) as [ o | ] eqn:Eo; [ | discriminate ].
  destruct (vectors h !! oPosition o) as [ p | ] eqn:Ep; [ | discriminate ].
  destruct (vectors h !! oVelocity o) as [ v | ] eqn:Ev; [ | discriminate ].
  injection H as <-. exists o. cbn [position velocity].
  split; [ reflexivity | ]. split; [ exact Ep | ]. split; [ exact Ev | reflexivity ].
Qed.

Lemma copyBody_spec (h : Heap) (r : ref) (b : BodyState) :
  bodyAt h r = Some b ->
  copyBody r h = (Ok (length (bodies h)), withBodies h [b]).
Proof.
  intros Hb. destruct (bodyAt_Some h r b Hb) as (o & Ho & Hp & Hv & Eb).
  unfold copyBody.
  rewrite (bindH_ok _ _ _ _ _ (deref_Some bodies r h o Ho)).
  rewrite (bindH_ok _ _ _ _ _ (deref_Some vectors _ h _ Hp)).
  unfold bindH at 1. unfold newVector at 1.
  set (h1 := mkHeap _ _ _ _ _ _).
  assert (Hv1 : vectors h1 !! oVelocity o = Some (velocity b)).
  { unfold h1. cbn [vectors]. apply lookup_app_l_Some. exact Hv. }
  rewrite (bindH_ok _ _ _ _ _ (deref_Some vectors _ h1 _ Hv1)).
  unfold bindH at 1. unfold newVector at 1. unfold newBody. unfold h1.
  cbn [vectors bodies bodyArrays vectorArrays indexArrays scopes].
  unfold withBodies, copiedVectors, copiedBody. cbn [flat_map imap app].
  rewrite length_app. cbn [length].
  rewrite <- app_assoc. cbn [app].
  rewrite Eb. cbn [name mass radius color isStar position velocity].
  repeat f_equal; lia.
Qed.


Lemma bodyAt_withBodies (h : Heap) (bs : list BodyState) (r : ref) (b : BodyState) :
  bodyAt h r = Some b -> bodyAt (withBodies h bs) r = Some b.
Proof.
  intros Hb. destruct (bodyAt_Some h r b Hb) as (o & Ho & Hp & Hv & Eb).
  unfold bodyAt, withBodies. cbn [vectors bodies].
  rewrite (lookup_app_l_Some _ _ _ _ Ho).
  rewrite (lookup_app_l_Some _ _ _ _ Hp), (lookup_app_l_Some _ _ _ _ Hv).
  rewrite Eb at 3. reflexivity.
Qed.

Lemma withBodies_nil (h : Heap) : withBodies h [] = h.
Proof.
  unfold withBodies, copiedVectors. cbn [flat_map imap]. rewrite !app_nil_r.
  destruct h; reflexivity.
Qed.

Lemma withBodies_cons (h : Heap) (b : BodyState) (bs : list BodyState) :
  withBodies (withBodies h [b]) bs = withBodies h (b :: bs).
Proof.
  unfold withBodies, copiedVectors.
  cbn [vectors bodies bodyArrays vectorArrays indexArrays scopes flat_map imap app].
  rewrite <- !app_assoc. cbn [app].
  f_equal. f_equal. f_equal.
  apply imap_ext. intros k b' _. unfold copiedBody.
  rewrite length_app. cbn [length]. cbn [compose].
  f_equal; lia.
Qed.

Lemma copyBodies_spec (arr : list ref) :
  forall (h : Heap) (bs : list BodyState),
    Forall2 (fun r b => bodyAt h r = Some b) arr bs ->
    copyBodies arr h = (Ok (seq (length (bodies h)) (length bs)), withBodies h bs).
Proof.
  induction arr as [ | r arr IH ]; intros h bs HF.
  - apply Forall2_nil_inv_l in HF as ->. rewrite withBodies_nil. reflexivity.
  - apply Forall2_cons_inv_l in HF as (b & bs' & Hb & HF & ->).
    cbn [copyBodies].
    rewrite (bindH_ok _ _ _ _ _ (copyBody_spec h r b Hb)).
    assert (HF1 : Forall2 (fun r' b' => bodyAt (withBodies h [b]) r' = Some b') arr bs').
    { eapply Forall2_impl; [ exact HF | ].
      intros r' b' Hb'. apply bodyAt_withBodies. exact Hb'. }
    rewrite (bindH_ok _ _ _ _ _ (IH _ _ HF1)).
    unfold ret. rewrite withBodies_cons.
    unfold withBodies at 1. cbn [bodies imap]. rewrite length_app. cbn [length seq].
    replace (length (bodies h) + 1)%nat with (S (length (bodies h))) by lia.
    reflexivity.
Qed.

Lemma snapshot_Forall2 (h : Heap) (state : ref) (arr : list ref) :
  wellFormed h -> bodyArrays h !! state = Some arr ->
  Forall2 (fun r b => bodyAt h r = Some b) arr (snapshot h state).
Proof.
  intros Hwf Harr. pose proof (array_total h state arr Hwf Harr) as Htot.
  unfold snapshot. rewrite Harr. clear Harr.
  induction Htot as [ | r l [b Hb] _ IH ]; [ constructor | ].
  cbn [omap list_omap]. rewrite Hb. constructor; assumption.
Qed.

Lemma deepCopyBodies_spec (h : Heap) (bodiesRef : ref) (arr : list ref) :
  wellFormed h -> bodyArrays h !! bodiesRef = Some arr ->
  deepCopyBodies bodiesRef h
  = (Ok (length (bodyArrays h)), withCopy h (snapshot h bodiesRef)).
Proof.
  intros Hwf Harr. unfold deepCopyBodies.
  rewrite (bindH_ok _ _ _ _ _ (deref_Some bodyArrays bodiesRef h arr Harr)).
  rewrite (bindH_ok _ _ _ _ _
             (copyBodies_spec arr h _ (snapshot_Forall2 h bodiesRef arr Hwf Harr))).
  reflexivity.
Qed.

Lemma copiedVectors_length (bs : list BodyState) :
  length (copiedVectors bs) = (2 * length bs)%nat.
Proof.
  induction bs as [ | b bs IH ]; [ reflexivity | ].
  unfold copiedVectors in *. cbn [flat_map app length]. rewrite IH. lia.
Qed.

Lemma copiedVectors_lookup (bs : list BodyState) (k : nat) (b : BodyState) :
  bs !! k = Some b ->
  copiedVectors bs !! (2 * k)%nat = Some (position b)
  /\ copiedVectors bs !! (2 * k + 1)%nat = Some (velocity b).
Proof.
  revert k. induction bs as [ | b0 bs IH ]; intros k Hk; [ discriminate | ].
  destruct k as [ | k ].
  - injection Hk as ->. split; reflexivity.
  - cbn in Hk. destruct (IH k Hk) as [Hp Hv].
    unfold copiedVectors in *. cbn [flat_map app].
    replace (2 * S k)%nat with (S (S (2 * k))) by lia.
    replace (S (S (2 * k)) + 1)%nat with (S (S (2 * k + 1))) by lia.
    split; assumption.
Qed.

Lemma bodyAt_copy (h : Heap) (bs : list BodyState) (k : nat) (b : BodyState) :
  bs !! k = Some b ->
  bodyAt (withCopy h bs) (length (bodies h) + k) = Some b.
Proof.
  intros Hk. destruct (copiedVectors_lookup bs k b Hk) as [Hp Hv].
  unfold bodyAt, withCopy. cbn [vectors bodies].
  rewrite lookup_app_r by lia.
  replace (length (bodies h) + k - length (bodies h))%nat with k by lia.
  rewrite list_lookup_imap, Hk. cbn [fmap option_fmap option_map copiedBody].
  cbn [oPosition oVelocity oName oMass oRadius oColor oIsStar].
  rewrite (lookup_app_r (vectors h) _ (length (vectors h) + 2 * k)) by lia.
  rewrite (lookup_app_r (vectors h) _ (length (vectors h) + 2 * k + 1)) by lia.
  replace (length (vectors h) + 2 * k - length (vectors h))%nat with (2 * k)%nat by lia.
  replace (length (vectors h) + 2 * k + 1 - length (vectors h))%nat
    with (2 * k + 1)%nat by lia.
  rewrite Hp, Hv. destruct b; reflexivity.
Qed.

Lemma omap_seq (f : nat -> option BodyState) (bs : list BodyState) :
  forall n : nat,
    (forall k b, bs !! k = Some b -> f (n + k)%nat = Some b) ->
    omap f (seq n (length bs)) = bs.
Proof.
  induction bs as [ | b bs IH ]; intros n Hf; [ reflexivity | ].
  cbn [length seq omap list_omap].
  pose proof (Hf 0%nat b eq_refl) as H0. rewrite Nat.add_0_r in H0. rewrite H0.
  f_equal. apply IH. intros k b' Hk.
  replace (S n + k)%nat with (n + S k)%nat by lia. apply Hf. exact Hk.
Qed.

Lemma preserved_withCopy (h : Heap) (bs : list BodyState) : preserved h (withCopy h bs).
Proof.
  unfold preserved, withCopy.
  cbn [vectors bodies bodyArrays vectorArrays indexArrays scopes].
  repeat split; try reflexivity; apply prefix_app_r; reflexivity.
Qed.

Lemma wellFormed_withCopy (h : Heap) (bs : list BodyState) :
  wellFormed h -> wellFormed (withCopy h bs).
Proof.
  intros [Hb Ha]. unfold wellFormed, withCopy. cbn [vectors bodies bodyArrays].
  rewrite !length_app, copiedVectors_length, length_imap.
  split.
  - apply Forall_app. split.
    + eapply List.Forall_impl; [ | exact Hb ]. intros o [H1 H2]. split; lia.
    + apply Forall_lookup_2. intros k o Hk.
      rewrite list_lookup_imap in Hk.
      destruct (bs !! k) as [ b | ] eqn:Ek; [ | discriminate ].
      apply lookup_lt_Some in Ek.
      injection Hk as <-. cbn [copiedBody oPosition oVelocity]. split; lia.
  - apply Forall_app. split.
    + eapply List.Forall_impl; [ | exact Ha ]. intros arr Harr.
      eapply List.Forall_impl; [ | exact Harr ]. intros r Hr. cbv beta in *. lia.
    + constructor; [ | constructor ].
      apply Forall_lookup_2. intros k r Hk. apply lookup_seq in Hk as [-> Hk]. lia.
Qed.

(** X20: [deepCopyBodies] shares nothing with what it copies.  On a heap
    without dangling references it returns a new array of as many new
    bodies, each with a position and a velocity object of its own among
    the objects the call allocated; the copy holds the values the
    original holds, and the original and every other object of the heap
    are as they were. *)
Theorem deepCopyBodies_shares_nothing :
  forall (h : Heap) (bodiesRef : ref),
    wellFormed h ->
    (bodiesRef < length (bodyArrays h))%nat ->
    exists (copy : ref) (h' : Heap),
      deepCopyBodies bodiesRef h = (Ok copy, h')
      /\ preserved h h'
      /\ wellFormed h'
      /\ snapshot h' copy = snapshot h bodiesRef
      /\ snapshot h' bodiesRef = snapshot h bodiesRef
      /\ copy = length (bodyArrays h)
      /\ exists refs : list ref,
           bodyArrays h' !! copy = Some refs
           /\ length refs = length (snapshot h bodiesRef)
           /\ forall k : nat,
                (k < length refs)%nat ->
                refs !! k = Some (length (bodies h) + k)%nat
                /\ exists o : BodyObject,
                     bodies h' !! (length (bodies h) + k)%nat = Some o
                     /\ oPosition o = (length (vectors h) + 2 * k)%nat
                     /\ oVelocity o = (length (vectors h) + 2 * k + 1)%nat.
Proof.
  intros h bodiesRef Hwf Href.
  destruct (lookup_lt_is_Some_2 (bodyArrays h) bodiesRef Href) as [arr Harr].
  set (bs := snapshot h bodiesRef).
  exists (length (bodyArrays h)), (withCopy h bs).
  split; [ exact (deepCopyBodies_spec h bodiesRef arr Hwf Harr) | ].
  split; [ apply preserved_withCopy | ].
  split; [ apply wellFormed_withCopy, Hwf | ].
  assert (Hnew : bodyArrays (withCopy h bs) !! length (bodyArrays h)
                 = Some (seq (length (bodies h)) (length bs))).
  { unfold withCopy. cbn [bodyArrays]. apply list_lookup_middle. reflexivity. }
  split; [ | split; [ | split; [ reflexivity | ] ] ].
  - unfold snapshot at 1. rewrite Hnew.
    apply omap_seq. intros k b Hk. apply bodyAt_copy. exact Hk.
  - exact (snapshot_preserved h _ bodiesRef arr Hwf (preserved_withCopy h bs) Harr).
  - exists (seq (length (bodies h)) (length bs)).
    split; [ exact Hnew | ]. split; [ apply length_seq | ].
    intros k Hk. rewrite length_seq in Hk.
    split; [ apply lookup_seq_lt; exact Hk | ].
    destruct (lookup_lt_is_Some_2 bs k Hk) as [b Hb].
    exists (copiedBody (length (vectors h)) k b).
    split; [ | split; reflexivity ].
    unfold withCopy. cbn [bodies].
    rewrite lookup_app_r by lia.
    replace (length (bodies h) + k - length (bodies h))%nat with k by lia.
    rewrite list_lookup_imap, Hb. reflexivity.
Qed.

End CopyFacts.

Lemma deepCopyBodies_ring_witness :
  exists (copy : nat) (h' : Closure.Heap),
    Closure.deepCopyBodies 0 Samples.ringHeap = (Ok copy, h')
    /\ Closure.snapshot h' copy = Closure.snapshot Samples.ringHeap 0
    /\ copy = 1%nat.
Proof.
  destruct (deepCopyBodies_shares_nothing Samples.ringHeap 0)
    as (copy & h' & Hrun & _ & _ & Hsnap & _ & Hcopy & _).
  - split.
    + repeat (constructor; [ cbn; lia | ]). constructor.
    + constructor; [ | constructor ].
      repeat (constructor; [ cbn; lia | ]). constructor.
  - cbn. lia.
  - exists copy, h'. split; [ exact Hrun | ]. split; [ exact Hsnap | exact Hcopy ].
Defined.
